(** * FlipMan: the per-frame simulation of [src/main.cpp]

    The program is one [main] whose loop body samples input, ticks a clock,
    animates a rotation angle, integrates a body under a signed gravity,
    pushes the body out of the walls it intersects and clamps it to the
    screen.  All quantities are C++ [float]s, modelled here as IEEE-754
    binary32 values with the operations of the standard library's
    [SpecFloat] (round to nearest, ties to even): every [+], [-], [*] and
    [/] of the source rounds its exact result to binary32 once, a comparison
    with a NaN is false.  Tick counters are [Uint64], modelled as [Z] with
    the wrap-around written out.  The render half of the loop body reads the
    state and writes none of it; it is modelled as the list of calls it
    makes, and [main] around the loop as the trace of its SDL calls and
    output, for the outcomes of the calls that can fail.

    The first part embeds the program; the second part develops the facts
    about binary32 rounding that the invariants need (the result of an
    operation on finite numbers is a valid number that no representable
    number separates from the exact result) and proves the properties. *)

From Stdlib Require Import String.
From Stdlib Require Import ZArith Bool List Lia.
From Stdlib Require Import Floats.SpecFloat.
Import ListNotations.

Local Open Scope Z_scope.

(** ** binary32 *)

Module F32.

Definition prec : Z := 24.
Definition emax : Z := 128.

Definition float := spec_float.

Definition add : float -> float -> float := SFadd prec emax.
Definition sub : float -> float -> float := SFsub prec emax.
Definition mul : float -> float -> float := SFmul prec emax.
Definition div : float -> float -> float := SFdiv prec emax.

(** The C++ comparisons [a < b] and [a > b]; both are false on NaN. *)
Definition ltb (a b : float) : bool := SFltb a b.
Definition gtb (a b : float) : bool := SFltb b a.
Definition leb (a b : float) : bool := SFleb a b.
Definition eqb (a b : float) : bool := SFeqb a b.

(** Conversion of an integer to [float] (exact below 2^24, rounded above). *)
Definition of_Z (n : Z) : float := binary_normalize prec emax n 0 false.

(** [std::min(a, b)] is [(b < a) ? b : a]. *)
Definition min (a b : float) : float := if ltb b a then b else a.

Definition valid (a : float) : bool := valid_binary prec emax a.

Definition is_nan (a : float) : bool :=
  match a with S754_nan => true | _ => false end.

(** The literals of the program. *)
Definition zero : float := S754_zero false.             (* 0.f *)
Definition one : float := Eval cbv in of_Z 1.            (* 1.f *)
Definition neg_one : float := Eval cbv in SFopp (of_Z 1). (* -1.f *)
Definition f0_05 : float := S754_finite false 13421773 (-28). (* 0.05f *)
Definition f32 : float := Eval cbv in of_Z 32.
Definition f40 : float := Eval cbv in of_Z 40.
Definition f60 : float := Eval cbv in of_Z 60.
Definition f64 : float := Eval cbv in of_Z 64.
Definition f128 : float := Eval cbv in of_Z 128.
Definition f160 : float := Eval cbv in of_Z 160.
Definition f180 : float := Eval cbv in of_Z 180.
Definition f200 : float := Eval cbv in of_Z 200.
Definition f240 : float := Eval cbv in of_Z 240.
Definition f260 : float := Eval cbv in of_Z 260.
Definition f380 : float := Eval cbv in of_Z 380.
Definition f500 : float := Eval cbv in of_Z 500.
Definition f520 : float := Eval cbv in of_Z 520.
Definition f600 : float := Eval cbv in of_Z 600.
Definition f720 : float := Eval cbv in of_Z 720.
Definition f800 : float := Eval cbv in of_Z 800.
Definition f900 : float := Eval cbv in of_Z 900.
Definition f1000 : float := Eval cbv in of_Z 1000.

End F32.

Arguments F32.add : simpl never.
Arguments F32.sub : simpl never.
Arguments F32.mul : simpl never.
Arguments F32.div : simpl never.
Arguments F32.ltb : simpl never.
Arguments F32.gtb : simpl never.
Arguments F32.leb : simpl never.
Arguments F32.eqb : simpl never.
Arguments F32.of_Z : simpl never.
Arguments F32.min : simpl never.

Definition float : Type := F32.float.

(** ** Data *)

(** [SDL_FRect] *)
Record SDL_FRect := mkRect { x : float; y : float; w : float; h : float }.

(** The fields of [SDL_Event] that the loop reads.  [key_repeat] is the
    [repeat] field of [SDL_KeyboardEvent]: the program never reads it. *)
Inductive EventType := SDL_EVENT_QUIT | SDL_EVENT_KEY_DOWN | SDL_EVENT_KEY_UP | SDL_EVENT_OTHER.
Inductive Keycode := SDLK_ESCAPE | SDLK_SPACE | SDLK_OTHER.

Record SDL_Event := mkEvent {
  type : EventType;
  key : Keycode;
  down : bool;
  key_repeat : bool
}.

(** The four entries of [SDL_GetKeyboardState] that the loop reads. *)
Record Keyboard := mkKeyboard {
  SDL_SCANCODE_A : bool;
  SDL_SCANCODE_LEFT : bool;
  SDL_SCANCODE_D : bool;
  SDL_SCANCODE_RIGHT : bool
}.

(** One line written to [std::cout] by a gravity flip: the direction word
    and the printed target angle. *)
Inductive Output := GravityFlipped (now_down : bool) (angle : float).

(** The variables of [main] that live across iterations of the loop. *)
Record World := mkWorld {
  player : SDL_FRect;
  vx : float;
  vy : float;
  gravityDir : float;
  playerAngle : float;
  targetAngle : float;
  walls : list SDL_FRect;
  lastTicks : Z;
  running : bool;
  texPlayer : bool;   (* texture pointer is non-null *)
  texWall : bool;
  texBg : bool;
  cout : list Output  (* most recent line first *)
}.

(** What the collaborator hands to one iteration of the loop: the events
    returned by [SDL_PollEvent] until it returns false, the keyboard state
    and the value of [SDL_GetTicks]. *)
Record FrameInput := mkInput {
  events : list SDL_Event;
  kb : Keyboard;
  nowTicks : Z
}.

Definition set_player (p : SDL_FRect) (s : World) : World :=
  mkWorld p (vx s) (vy s) (gravityDir s) (playerAngle s) (targetAngle s)
          (walls s) (lastTicks s) (running s) (texPlayer s) (texWall s) (texBg s) (cout s).
Definition set_vx (v : float) (s : World) : World :=
  mkWorld (player s) v (vy s) (gravityDir s) (playerAngle s) (targetAngle s)
          (walls s) (lastTicks s) (running s) (texPlayer s) (texWall s) (texBg s) (cout s).
Definition set_vy (v : float) (s : World) : World :=
  mkWorld (player s) (vx s) v (gravityDir s) (playerAngle s) (targetAngle s)
          (walls s) (lastTicks s) (running s) (texPlayer s) (texWall s) (texBg s) (cout s).
Definition set_gravityDir (v : float) (s : World) : World :=
  mkWorld (player s) (vx s) (vy s) v (playerAngle s) (targetAngle s)
          (walls s) (lastTicks s) (running s) (texPlayer s) (texWall s) (texBg s) (cout s).
Definition set_playerAngle (v : float) (s : World) : World :=
  mkWorld (player s) (vx s) (vy s) (gravityDir s) v (targetAngle s)
          (walls s) (lastTicks s) (running s) (texPlayer s) (texWall s) (texBg s) (cout s).
Definition set_targetAngle (v : float) (s : World) : World :=
  mkWorld (player s) (vx s) (vy s) (gravityDir s) (playerAngle s) v
          (walls s) (lastTicks s) (running s) (texPlayer s) (texWall s) (texBg s) (cout s).
Definition set_lastTicks (v : Z) (s : World) : World :=
  mkWorld (player s) (vx s) (vy s) (gravityDir s) (playerAngle s) (targetAngle s)
          (walls s) v (running s) (texPlayer s) (texWall s) (texBg s) (cout s).
Definition set_running (v : bool) (s : World) : World :=
  mkWorld (player s) (vx s) (vy s) (gravityDir s) (playerAngle s) (targetAngle s)
          (walls s) (lastTicks s) v (texPlayer s) (texWall s) (texBg s) (cout s).
Definition cout_line (o : Output) (s : World) : World :=
  mkWorld (player s) (vx s) (vy s) (gravityDir s) (playerAngle s) (targetAngle s)
          (walls s) (lastTicks s) (running s) (texPlayer s) (texWall s) (texBg s) (o :: cout s).

Definition set_x (v : float) (p : SDL_FRect) : SDL_FRect := mkRect v (y p) (w p) (h p).
Definition set_y (v : float) (p : SDL_FRect) : SDL_FRect := mkRect (x p) v (w p) (h p).

(** ** Constants of [main] *)

Definition gravity : float := F32.f900.
Definition moveSpeed : float := F32.f240.
Definition angleSpeed : float := F32.f720.
Definition tileW : float := F32.f64.
Definition tileH : float := F32.f40.

Definition uint64_modulus : Z := 2 ^ 64.

(** ** Wall construction (lines 85-101) *)

(** [for (float x = 0.f; x < 800.f; x += tileW) walls.push_back({x, top, tileW, tileH})];
    the loop counter is a float, so the model takes fuel. *)
Fixpoint tile_row (fuel : nat) (top : float) (cx : float) (acc : list SDL_FRect)
  : option (list SDL_FRect) :=
  match fuel with
  | O => None
  | S fuel' =>
      if F32.ltb cx F32.f800
      then tile_row fuel' top (F32.add cx tileW) (acc ++ [mkRect cx top tileW tileH])
      else Some acc
  end.

Definition build_walls (fuel : nat) : option (list SDL_FRect) :=
  match tile_row fuel (F32.sub F32.f600 tileH) F32.zero [] with
  | None => None
  | Some floor =>
      match tile_row fuel F32.zero F32.zero floor with
      | None => None
      | Some ceiling =>
          Some (ceiling
                  ++ [mkRect F32.f200 (F32.sub F32.f600 F32.f160) F32.f128 F32.f32]
                  ++ [mkRect F32.f500 (F32.sub F32.f600 F32.f260) F32.f128 F32.f32])
      end
  end.

(** The state on entry to the loop, for the walls that were built, the
    first value of [SDL_GetTicks] and the outcome of the texture loads. *)
Definition initial_world (ws : list SDL_FRect) (ticks0 : Z) (tp tw tb : bool) : World :=
  mkWorld (mkRect F32.f380 F32.f520 F32.f40 F32.f60)
          F32.zero F32.zero F32.one F32.zero F32.zero
          ws ticks0 true tp tw tb [].

(** ** Input (lines 110-141) *)

Definition handle_event (e : SDL_Event) (s : World) : World :=
  match type e with
  | SDL_EVENT_QUIT => set_running false s
  | SDL_EVENT_KEY_DOWN =>
      let s1 :=
        match key e with
        | SDLK_ESCAPE => if down e then set_running false s else s
        | _ => s
        end in
      match key e with
      | SDLK_SPACE =>
          if down e then
            let s2 := set_gravityDir (F32.mul (gravityDir s1) F32.neg_one) s1 in
            let s3 := set_vy F32.zero s2 in
            let s4 := set_targetAngle
                        (if F32.gtb (gravityDir s3) F32.zero then F32.zero else F32.f180) s3 in
            cout_line (GravityFlipped (F32.gtb (gravityDir s4) F32.zero) (targetAngle s4)) s4
          else s1
      | _ => s1
      end
  | _ => s
  end.

(** [while (SDL_PollEvent(&e)) ...] over the events of this frame. *)
Definition poll_events (evs : list SDL_Event) (s : World) : World :=
  fold_left (fun st e => handle_event e st) evs s.

Definition keyboard_vx (k : Keyboard) : float :=
  let v0 := F32.zero in
  let v1 := if SDL_SCANCODE_A k || SDL_SCANCODE_LEFT k then SFopp moveSpeed else v0 in
  if SDL_SCANCODE_D k || SDL_SCANCODE_RIGHT k then moveSpeed else v1.

(** ** Clock (lines 144-149) *)

(** [(nowTicks - lastTicks) / 1000.0f]: the [Uint64] difference wraps, is
    converted to [float] and divided. *)
Definition raw_dt (now last : Z) : float :=
  F32.div (F32.of_Z ((now - last) mod uint64_modulus)) F32.f1000.

Definition clamp_dt (dt : float) : float :=
  if F32.gtb dt F32.f0_05 then F32.f0_05 else dt.

(** ** Rotation animation (lines 152-158) *)

Definition animate (angle target dt : float) : float :=
  if F32.ltb angle target then
    let a := F32.add angle (F32.mul angleSpeed dt) in
    if F32.gtb a target then target else a
  else if F32.gtb angle target then
    let a := F32.sub angle (F32.mul angleSpeed dt) in
    if F32.ltb a target then target else a
  else angle.

(** ** Collision handling (lines 172-210) *)

Definition minHoriz (p wl : SDL_FRect) : float :=
  let wallLeft := x wl in
  let wallRight := F32.add (x wl) (w wl) in
  let overlapLeft := F32.sub (F32.add (x p) (w p)) wallLeft in
  let overlapRight := F32.sub wallRight (x p) in
  F32.min overlapLeft overlapRight.

Definition minVert (p wl : SDL_FRect) : float :=
  let wallTop := y wl in
  let wallBottom := F32.add (y wl) (h wl) in
  let overlapTop := F32.sub (F32.add (y p) (h p)) wallTop in
  let overlapBottom := F32.sub wallBottom (y p) in
  F32.min overlapTop overlapBottom.

Section Simulation.

(** [SDL_HasRectIntersectionFloat] belongs to the SDL library, not to this
    program: the simulation is stated for any intersection test. *)
Variable SDL_HasRectIntersectionFloat : SDL_FRect -> SDL_FRect -> bool.

(** The body of the [for (const auto& w : walls)] loop.  [zero_vx] is
    [true] for the program; [false] gives the variant that omits the
    assignment [vx = 0.f] of line 207. *)
Definition collide_wall_gen (zero_vx : bool) (oldX oldY : float) (s : World) (wl : SDL_FRect)
  : World :=
  if SDL_HasRectIntersectionFloat (player s) wl then
    let wallTop := y wl in
    let wallBottom := F32.add (y wl) (h wl) in
    let wallLeft := x wl in
    let wallRight := F32.add (x wl) (w wl) in
    if F32.ltb (minVert (player s) wl) (minHoriz (player s) wl) then
      if F32.gtb (y (player s)) oldY then
        set_vy F32.zero (set_player (set_y (F32.sub wallTop (h (player s))) (player s)) s)
      else if F32.ltb (y (player s)) oldY then
        set_vy F32.zero (set_player (set_y wallBottom (player s)) s)
      else s
    else
      let s1 :=
        if F32.gtb (x (player s)) oldX then
          set_player (set_x (F32.sub wallLeft (w (player s))) (player s)) s
        else if F32.ltb (x (player s)) oldX then
          set_player (set_x wallRight (player s)) s
        else s in
      if zero_vx then set_vx F32.zero s1 else s1
  else s.

Definition collide_wall := collide_wall_gen true.

Definition collision_handling_gen (zero_vx : bool) (oldX oldY : float) (s : World) : World :=
  fold_left (collide_wall_gen zero_vx oldX oldY) (walls s) s.

Definition collision_handling := collision_handling_gen true.

(** Lines 213-214. *)
Definition clamp_screen (p : SDL_FRect) : SDL_FRect :=
  let p1 := if F32.ltb (x p) F32.zero then set_x F32.zero p else p in
  if F32.gtb (F32.add (x p1) (w p1)) F32.f800
  then set_x (F32.sub F32.f800 (w p1)) p1
  else p1.

(** ** Update (lines 151-214), for the clamped delta time *)

Definition animate_rotation (dt : float) (s : World) : World :=
  set_playerAngle (animate (playerAngle s) (targetAngle s) dt) s.

Definition apply_gravity (dt : float) (s : World) : World :=
  set_vy (F32.add (vy s) (F32.mul (F32.mul gravity (gravityDir s)) dt)) s.

Definition move (dt : float) (s : World) : World :=
  let s := set_player (set_x (F32.add (x (player s)) (F32.mul (vx s) dt)) (player s)) s in
  set_player (set_y (F32.add (y (player s)) (F32.mul (vy s) dt)) (player s)) s.

Definition update_gen (zero_vx : bool) (dt : float) (s : World) : World :=
  let s := animate_rotation dt s in
  let s := apply_gravity dt s in
  let oldX := x (player s) in
  let oldY := y (player s) in
  let s := move dt s in
  let s := collision_handling_gen zero_vx oldX oldY s in
  set_player (clamp_screen (player s)) s.

Definition update := update_gen true.

(** ** One iteration of the loop, up to the render (lines 109-214) *)

Definition frame_gen (zero_vx : bool) (i : FrameInput) (s : World) : World :=
  let s := poll_events (events i) s in
  let s := set_vx (keyboard_vx (kb i)) s in
  let dt := raw_dt (nowTicks i) (lastTicks s) in
  let s := set_lastTicks (nowTicks i) s in
  let dt := clamp_dt dt in
  update_gen zero_vx dt s.

Definition frame := frame_gen true.

(** [while (running) ...]: the states at the end of each iteration, for
    the inputs the collaborator delivers; the loop stops after the first
    iteration that leaves [running] false. *)
Fixpoint run_gen (zero_vx : bool) (inputs : list FrameInput) (s : World) : list World :=
  match inputs with
  | [] => []
  | i :: rest =>
      if running s then
        let s' := frame_gen zero_vx i s in s' :: run_gen zero_vx rest s'
      else []
  end.

Definition run := run_gen true.

End Simulation.

(** ** Exact values of binary32 numbers

    Every finite binary32 number is an integer multiple of [2^-149]; the
    theory of rounding below is stated over these integers. *)

Definition finite_or_zero (f : spec_float) : bool :=
  match f with S754_zero _ | S754_finite _ _ _ => true | _ => false end.

(** The value of a finite number, in units of [2^-149]. *)
Definition scaled (f : spec_float) : Z :=
  match f with
  | S754_finite s m e => cond_Zopp s (Z.pos m * 2 ^ (e + 149))
  | _ => 0
  end.

(** [rounded num den r]: [r] is a valid number, not NaN, that no valid
    finite number separates from the exact value [num / den] (in units of
    [2^-149]): it is the value itself when that is representable, one of
    its two neighbours otherwise, an infinity on overflow. *)
Definition rounded (num den : Z) (r : spec_float) : Prop :=
  F32.valid r = true /\ F32.is_nan r = false /\
  forall g, F32.valid g = true -> finite_or_zero g = true ->
    (scaled g * den <= num -> SFleb g r = true) /\
    (num <= scaled g * den -> SFleb r g = true).

(** The round and sticky bits of a shifted mantissa say whether anything
    was shifted out. *)
Definition inexact (mrs : shr_record) : bool := shr_r mrs || shr_s mrs.

(** [b] is [a] shifted right by [k] bits. *)
Definition shifted (k : Z) (a b : shr_record) : Prop :=
  0 <= shr_m b /\ shr_m b = shr_m a / 2 ^ k /\
  (inexact b = false <-> inexact a = false /\ shr_m a mod 2 ^ k = 0).

(** The last step of [binary_round_aux]. *)
Definition finish_round (sx : bool) (p : shr_record * Z) : spec_float :=
  match shr_m (fst p) with
  | Z0 => S754_zero sx
  | Zpos m =>
      if snd p <=? F32.emax - F32.prec then S754_finite sx m (snd p) else S754_infinity sx
  | Zneg _ => S754_nan
  end.

(** ** Invariants of the loop *)

(** Valid and finite. *)
Definition fin (a : float) : Prop := F32.valid a = true /\ finite_or_zero a = true.

(** Valid and not NaN (an infinity is allowed). *)
Definition real (a : float) : Prop := F32.valid a = true /\ F32.is_nan a = false.

Definition f2m10 : float := S754_finite false 8388608 (-33).  (* 2^-10 *)
Definition f2p64 : float := S754_finite false 8388608 41.     (* 2^64 *)
Definition f0_5 : float := S754_finite false 8388608 (-24).   (* 0.5 *)

(** The delta times the clock produces: zero when no millisecond elapsed,
    and otherwise at least [2^-10] and at most [0.05f]. *)
Definition clock_dt (dt : float) : Prop :=
  dt = F32.zero \/ (fin dt /\ 2 ^ 139 <= scaled dt <= scaled F32.f0_05).

Definition angle_ok (a : float) : Prop := fin a /\ 0 <= scaled a <= scaled F32.f180.

Definition wall_ok (wl : SDL_FRect) : Prop := fin (x wl) /\ fin (w wl).

Definition x_inv (s : World) : Prop :=
  w (player s) = F32.f40 /\ fin (x (player s)) /\ Forall wall_ok (walls s).

Definition angle_inv (s : World) : Prop :=
  angle_ok (playerAngle s) /\ (targetAngle s = F32.zero \/ targetAngle s = F32.f180).

(** [player.x] is within [[0, 800 - player.w]]. *)
Definition in_screen (s : World) : Prop :=
  F32.leb F32.zero (x (player s)) = true /\
  F32.leb (x (player s)) (F32.sub F32.f800 (w (player s))) = true.

(** [playerAngle] is within [[0, 180]]. *)
Definition angle_in_range (s : World) : Prop :=
  F32.leb F32.zero (playerAngle s) = true /\ F32.leb (playerAngle s) F32.f180 = true.

(** The same invariants as boolean tests. *)
Definition same_float (a b : float) : bool :=
  match a, b with
  | S754_zero s, S754_zero t => Bool.eqb s t
  | S754_infinity s, S754_infinity t => Bool.eqb s t
  | S754_nan, S754_nan => true
  | S754_finite s m e, S754_finite t n f => Bool.eqb s t && Pos.eqb m n && Z.eqb e f
  | _, _ => false
  end.

Definition finite_valid (a : float) : bool := F32.valid a && finite_or_zero a.

Definition wall_finite (wl : SDL_FRect) : bool := finite_valid (x wl) && finite_valid (w wl).

(** The player is 40 wide, as [main] creates it, its [x] is finite, and the
    walls have finite left edges and widths. *)
Definition x_invariant (s : World) : bool :=
  same_float (w (player s)) F32.f40 && finite_valid (x (player s)) &&
  forallb wall_finite (walls s).

(** [playerAngle] is a finite number of [[0, 180]] and [targetAngle] is 0
    or 180. *)
Definition angle_invariant (s : World) : bool :=
  finite_valid (playerAngle s) && (0 <=? scaled (playerAngle s)) &&
  (scaled (playerAngle s) <=? scaled F32.f180) &&
  (same_float (targetAngle s) F32.zero || same_float (targetAngle s) F32.f180).

(** The walls [main] builds. *)
Definition level_walls : list SDL_FRect :=
  Eval cbv in match build_walls 14 with Some l => l | None => [] end.

(** ** Specification-side definitions *)

(** Modelled from the spec: [SDL_HasRectIntersectionFloat] is a function of
    the SDL library and is not in the source tree.  Section 4.5 describes it
    as the axis-aligned overlap test that is true iff both axis projections
    overlap with positive extent. *)
Definition has_intersection_positive_extent (a b : SDL_FRect) : bool :=
  F32.ltb (x a) (F32.add (x b) (w b)) && F32.ltb (x b) (F32.add (x a) (w a)) &&
  F32.ltb (y a) (F32.add (y b) (h b)) && F32.ltb (y b) (F32.add (y a) (h a)).

(** Section 4.5, step 4: vertical resolution. *)
Definition resolve_vertical (oldY : float) (s : World) (wl : SDL_FRect) : World :=
  if F32.gtb (y (player s)) oldY then
    set_vy F32.zero (set_player (set_y (F32.sub (y wl) (h (player s))) (player s)) s)
  else if F32.ltb (y (player s)) oldY then
    set_vy F32.zero (set_player (set_y (F32.add (y wl) (h wl)) (player s)) s)
  else s.

(** Section 4.5, step 5: horizontal resolution. *)
Definition resolve_horizontal (oldX : float) (s : World) (wl : SDL_FRect) : World :=
  set_vx F32.zero
    (if F32.gtb (x (player s)) oldX then
       set_player (set_x (F32.sub (x wl) (w (player s))) (player s)) s
     else if F32.ltb (x (player s)) oldX then
       set_player (set_x (F32.add (x wl) (w wl)) (player s)) s
     else s).

(** The flip key going down, as the event queue delivers it: the first
    event of a press has [repeat] false, the auto-repeat events of a key
    that is held have [repeat] true. *)
Definition space_down (rep : bool) : SDL_Event := mkEvent SDL_EVENT_KEY_DOWN SDLK_SPACE true rep.
Definition space_up : SDL_Event := mkEvent SDL_EVENT_KEY_UP SDLK_SPACE false false.

(** The events of one physical press of the flip key that is held for [n]
    auto-repeat periods, up to (not including) its release. *)
Definition press_held (n : nat) : list SDL_Event := space_down false :: repeat (space_down true) n.

Definition is_flip_event (e : SDL_Event) : bool :=
  match type e, key e with
  | SDL_EVENT_KEY_DOWN, SDLK_SPACE => down e
  | _, _ => false
  end.

(** The number of gravity flips a run of the event loop performed is the
    number of lines it wrote. *)
Definition flips_between (s s' : World) : Z := Z.of_nat (length (cout s')) - Z.of_nat (length (cout s)).

Definition dir_ok (s : World) : Prop := gravityDir s = F32.one \/ gravityDir s = F32.neg_one.

Definition target_of_dir (d : float) : float :=
  if F32.eqb d F32.one then F32.zero else F32.f180.

(** Example states: the player as [main] creates it, with the right key
    held, against the floor tile under its left edge; and the player
    falling onto, or rising into, the first platform. *)
Definition floor_tile : SDL_FRect := mkRect (F32.of_Z 320) (F32.of_Z 560) tileW tileH.
Definition platform : SDL_FRect := mkRect F32.f200 (F32.of_Z 440) F32.f128 F32.f32.

Definition start_world_right_held : World :=
  set_vx moveSpeed (initial_world [floor_tile] 0 true true true).

Definition falling_world : World :=
  set_vy F32.f240
    (set_player (mkRect (F32.of_Z 220) (F32.of_Z 385) F32.f40 F32.f60)
       (initial_world [platform] 0 true true true)).

(** The delta time one iteration integrates with. *)
Definition frame_dt (i : FrameInput) (s : World) : float :=
  clamp_dt (raw_dt (nowTicks i) (lastTicks s)).

(** The simulation state: everything but the textures and the output. *)
Definition physics (s : World) :=
  (player s, vx s, vy s, gravityDir s, playerAngle s, targetAngle s, walls s, lastTicks s, running s).

Definition position (s : World) : float * float := (x (player s), y (player s)).

(** The simulation state alone: textures absent, nothing written. *)
Definition strip_env (s : World) : World :=
  mkWorld (player s) (vx s) (vy s) (gravityDir s) (playerAngle s) (targetAngle s)
          (walls s) (lastTicks s) (running s) false false false [].

(** Everything but [vx]. *)
Definition forget_vx (s : World) : World := set_vx F32.zero s.


(** * The rest of the program *)

(** ** Render (lines 216-255) *)

Inductive Texture := TexPlayer | TexWall | TexBg.

(** The calls the render half of the loop body makes on the renderer.  The
    source rectangle of a textured draw is always [nullptr] (the whole
    texture) and the flip always [SDL_FLIP_NONE]; the angle is the [float]
    [playerAngle] passed as a [double], which keeps its value. *)
Inductive RenderCall :=
| SDL_SetRenderDrawColor (r g b a : Z)
| SDL_RenderClear
| SDL_RenderTexture (t : Texture) (dst : SDL_FRect)
| SDL_RenderFillRect (r : SDL_FRect)
| SDL_RenderTextureRotated (t : Texture) (dst : SDL_FRect) (angle : float) (center : float * float)
| SDL_RenderPresent.

Definition SDL_ALPHA_OPAQUE : Z := 255.
Definition f2_0 : float := Eval cbv in F32.of_Z 2.

Definition render (s : World) : list RenderCall :=
  (if negb (texBg s)
   then [SDL_SetRenderDrawColor 18 18 28 SDL_ALPHA_OPAQUE; SDL_RenderClear]
   else [SDL_RenderTexture TexBg (mkRect F32.zero F32.zero F32.f800 F32.f600)])
  ++ (if texWall s
      then map (SDL_RenderTexture TexWall) (walls s)
      else SDL_SetRenderDrawColor 120 120 120 SDL_ALPHA_OPAQUE
             :: map SDL_RenderFillRect (walls s))
  ++ (if texPlayer s
      then [SDL_RenderTextureRotated TexPlayer (player s) (playerAngle s)
              (F32.div (w (player s)) f2_0, F32.div (h (player s)) f2_0)]
      else [SDL_SetRenderDrawColor 0 200 0 SDL_ALPHA_OPAQUE; SDL_RenderFillRect (player s)])
  ++ [SDL_RenderPresent].

(** ** The program around the loop (lines 7-106 and 258-268) *)

Inductive Message :=
| MsgStart | MsgMissing (t : Texture) | MsgEnterLoop | MsgFlipped (o : Output) | MsgExit.

(** Lines written to [std::cerr]; the text of [SDL_GetError] is left out. *)
Inductive ErrMessage :=
| ErrInit | ErrCreateWindow | ErrCreateRenderer
| ErrLoadBMP (path : string) | ErrCreateTexture (path : string).

(** What the program does to the outside, in order: SDL calls that acquire
    or release something (with their outcome), render calls and output.
    The calls that only read input ([SDL_PollEvent], [SDL_GetKeyboardState],
    [SDL_GetTicks]) are the [FrameInput]s. *)
Inductive SdlCall :=
| Call_SDL_Init (ok : bool)
| Call_SDL_CreateWindow (ok : bool)
| Call_SDL_CreateRenderer (ok : bool)
| Call_SDL_LoadBMP (path : string) (ok : bool)
| Call_SDL_CreateTextureFromSurface (path : string) (ok : bool)
| Call_SDL_DestroySurface (path : string)
| Call_SDL_DestroyTexture (t : Texture)
| Call_SDL_DestroyRenderer
| Call_SDL_DestroyWindow
| Call_SDL_Quit
| Call_Render (c : RenderCall)
| Cout (m : Message)
| Cerr (m : ErrMessage).

(** [LoadBMPTexture] (lines 7-24), for the outcomes of [SDL_LoadBMP] and of
    [SDL_CreateTextureFromSurface]: whether the texture returned is
    non-null, and the calls made. *)
Definition LoadBMPTexture (surf_ok tex_ok : bool) (path : string) : bool * list SdlCall :=
  if negb surf_ok then
    (false, [Call_SDL_LoadBMP path false; Cerr (ErrLoadBMP path)])
  else
    (tex_ok,
     [Call_SDL_LoadBMP path true; Call_SDL_CreateTextureFromSurface path tex_ok]
       ++ (if negb tex_ok then [Cerr (ErrCreateTexture path)] else [])
       ++ [Call_SDL_DestroySurface path]).

(** The outcomes of the calls [main] makes before the loop. *)
Record Env := mkEnv {
  init_ok : bool;
  window_ok : bool;
  renderer_ok : bool;
  player_bmp : bool * bool;   (* surface loaded, texture created *)
  wall_bmp : bool * bool;
  bg_bmp : bool * bool;
  first_ticks : Z
}.

Definition player_path : string := "../assets/player.bmp"%string.
Definition wall_path : string := "../assets/wall.bmp"%string.
Definition bg_path : string := "../assets/background.bmp"%string.

(** The lines one iteration wrote to [std::cout], oldest first. *)
Definition new_lines (s s' : World) : list Output :=
  rev (firstn (length (cout s') - length (cout s)) (cout s')).

Definition frame_trace (s s' : World) : list SdlCall :=
  map (fun o => Cout (MsgFlipped o)) (new_lines s s') ++ map Call_Render (render s').

Definition cleanup (s : World) : list SdlCall :=
  (if texPlayer s then [Call_SDL_DestroyTexture TexPlayer] else [])
  ++ (if texWall s then [Call_SDL_DestroyTexture TexWall] else [])
  ++ (if texBg s then [Call_SDL_DestroyTexture TexBg] else [])
  ++ [Call_SDL_DestroyRenderer; Call_SDL_DestroyWindow; Call_SDL_Quit; Cout MsgExit].

Section Program.

Variable SDL_HasRectIntersectionFloat : SDL_FRect -> SDL_FRect -> bool.

(** [while (running) { ... }] with its render half: the final state and what
    was drawn and written, or [None] when the inputs end while [running] is
    still true (the program has not left the loop). *)
Fixpoint main_loop (inputs : list FrameInput) (s : World) : option (World * list SdlCall) :=
  match inputs with
  | [] => if running s then None else Some (s, [])
  | i :: rest =>
      if running s then
        let s' := frame SDL_HasRectIntersectionFloat i s in
        match main_loop rest s' with
        | None => None
        | Some (sf, tr) => Some (sf, frame_trace s s' ++ tr)
        end
      else Some (s, [])
  end.

(** [main]: the exit code and the trace, or [None] when a loop has not
    ended (the float loops that build the walls run out of fuel, or the
    inputs end while the main loop is running). *)
Definition main (fuel : nat) (env : Env) (inputs : list FrameInput) : option (Z * list SdlCall) :=
  if negb (init_ok env) then
    Some (1, [Cout MsgStart; Call_SDL_Init false; Cerr ErrInit])
  else if negb (window_ok env) then
    Some (1, [Cout MsgStart; Call_SDL_Init true; Call_SDL_CreateWindow false;
              Cerr ErrCreateWindow; Call_SDL_Quit])
  else if negb (renderer_ok env) then
    Some (1, [Cout MsgStart; Call_SDL_Init true; Call_SDL_CreateWindow true;
              Call_SDL_CreateRenderer false; Cerr ErrCreateRenderer;
              Call_SDL_DestroyWindow; Call_SDL_Quit])
  else
    let '(tp, trp) := LoadBMPTexture (fst (player_bmp env)) (snd (player_bmp env)) player_path in
    let '(tw, trw) := LoadBMPTexture (fst (wall_bmp env)) (snd (wall_bmp env)) wall_path in
    let '(tb, trb) := LoadBMPTexture (fst (bg_bmp env)) (snd (bg_bmp env)) bg_path in
    let missing :=
      (if negb tp then [Cout (MsgMissing TexPlayer)] else [])
      ++ (if negb tw then [Cout (MsgMissing TexWall)] else [])
      ++ (if negb tb then [Cout (MsgMissing TexBg)] else []) in
    match build_walls fuel with
    | None => None
    | Some ws =>
        let s0 := initial_world ws (first_ticks env) tp tw tb in
        match main_loop inputs s0 with
        | None => None
        | Some (sf, tr) =>
            Some (0, [Cout MsgStart; Call_SDL_Init true; Call_SDL_CreateWindow true;
                      Call_SDL_CreateRenderer true]
                     ++ trp ++ trw ++ trb ++ missing ++ [Cout MsgEnterLoop]
                     ++ tr ++ cleanup sf)
        end
    end.

End Program.

(** ** Notions for the properties of the loop *)

Definition is_quit_event (e : SDL_Event) : bool :=
  match type e, key e with
  | SDL_EVENT_QUIT, _ => true
  | SDL_EVENT_KEY_DOWN, SDLK_ESCAPE => down e
  | _, _ => false
  end.

Definition quits (i : FrameInput) : bool := existsb is_quit_event (events i).

(** The number of iterations the loop makes on these inputs: up to and
    including the first one that receives a quit. *)
Fixpoint frames_until_quit (inputs : list FrameInput) : nat :=
  match inputs with
  | [] => O
  | i :: rest => if quits i then 1%nat else S (frames_until_quit rest)
  end.

Definition count (p : SdlCall -> bool) (tr : list SdlCall) : nat := length (filter p tr).

Definition is_quit_call (c : SdlCall) : bool :=
  match c with Call_SDL_Quit => true | _ => false end.
Definition is_init_ok (c : SdlCall) : bool :=
  match c with Call_SDL_Init true => true | _ => false end.
Definition is_window_created (c : SdlCall) : bool :=
  match c with Call_SDL_CreateWindow true => true | _ => false end.
Definition is_window_destroyed (c : SdlCall) : bool :=
  match c with Call_SDL_DestroyWindow => true | _ => false end.
Definition is_renderer_created (c : SdlCall) : bool :=
  match c with Call_SDL_CreateRenderer true => true | _ => false end.
Definition is_renderer_destroyed (c : SdlCall) : bool :=
  match c with Call_SDL_DestroyRenderer => true | _ => false end.
Definition is_surface_loaded (c : SdlCall) : bool :=
  match c with Call_SDL_LoadBMP _ true => true | _ => false end.
Definition is_surface_destroyed (c : SdlCall) : bool :=
  match c with Call_SDL_DestroySurface _ => true | _ => false end.
Definition is_texture_created (c : SdlCall) : bool :=
  match c with Call_SDL_CreateTextureFromSurface _ true => true | _ => false end.
Definition is_texture_destroyed (c : SdlCall) : bool :=
  match c with Call_SDL_DestroyTexture _ => true | _ => false end.
Definition is_frame_call (c : SdlCall) : bool :=
  match c with Call_Render _ | Cout (MsgFlipped _) => true | _ => false end.

(** ** Notions and example states for the properties of the whole program *)

Definition static_part (s : World) :=
  (w (player s), h (player s), walls s, texPlayer s, texWall s, texBg s).

Definition walking_world : World :=
  set_vx moveSpeed
    (set_player (mkRect (F32.of_Z 165) (F32.of_Z 420) F32.f40 F32.f60)
       (initial_world [platform] 0 true true true)).

Definition f0_05_next : float := S754_finite false 13421774 (-28).  (* the float after 0.05f *)

(** Inputs of frames in which the tick counter moves, no flip is requested
    and no quit arrives; [last] is the tick value of the frame before. *)
Fixpoint ticking (last : Z) (inputs : list FrameInput) : bool :=
  match inputs with
  | [] => true
  | i :: rest =>
      negb ((nowTicks i - last) mod 2 ^ 64 =? 0) &&
      forallb (fun e => negb (is_flip_event e)) (events i) &&
      negb (quits i) && ticking (nowTicks i) rest
  end.

(** [n] frames, 16 ms apart, with no event and no key held. *)
Definition steady_frames (n : nat) : list FrameInput :=
  map (fun k => mkInput [] (mkKeyboard false false false false) (16 * Z.of_nat k)) (seq 1 n).

Definition flipped_world : World :=
  handle_event (space_down false) (initial_world level_walls 0 true true true).

(** The [k]-th tile of a row at height [top]. *)
Definition tile_at (top : float) (k : nat) : SDL_FRect :=
  mkRect (F32.of_Z (64 * Z.of_nat k)) top tileW tileH.

(** Thirteen floor tiles, thirteen ceiling tiles, two platforms. *)
Definition level_layout : list SDL_FRect :=
  map (tile_at (F32.of_Z 560)) (seq 0 13) ++ map (tile_at F32.zero) (seq 0 13)
  ++ [mkRect F32.f200 (F32.of_Z 440) F32.f128 F32.f32;
      mkRect F32.f500 (F32.of_Z 340) F32.f128 F32.f32].

(** The rectangles a list of render calls draws on top of the background. *)
Definition drawn_rects (cs : list RenderCall) : list SDL_FRect :=
  flat_map (fun c => match c with
                     | SDL_RenderTexture TexBg _ => []
                     | SDL_RenderTexture _ r => [r]
                     | SDL_RenderFillRect r => [r]
                     | SDL_RenderTextureRotated _ r _ _ => [r]
                     | _ => []
                     end) cs.

Definition is_present (c : RenderCall) : bool :=
  match c with SDL_RenderPresent => true | _ => false end.

Definition is_present_call (c : SdlCall) : bool :=
  match c with Call_Render SDL_RenderPresent => true | _ => false end.

(** The classifiers of calls that acquire or release something. *)
Definition resource_tests : list (SdlCall -> bool) :=
  [is_quit_call; is_init_ok; is_window_created; is_window_destroyed; is_renderer_created;
   is_renderer_destroyed; is_surface_loaded; is_surface_destroyed; is_texture_created;
   is_texture_destroyed].

(** Every call succeeds and the three bitmaps load. *)
Definition all_ok (ticks0 : Z) : Env :=
  mkEnv true true true (true, true) (true, true) (true, true) ticks0.

Definition esc_frame (now : Z) : FrameInput :=
  mkInput [mkEvent SDL_EVENT_KEY_DOWN SDLK_ESCAPE true false]
          (mkKeyboard false false false false) now.
Definition steady_frame (now : Z) : FrameInput :=
  mkInput [] (mkKeyboard false false false false) now.

(** The trace of a run in which everything loads and the first frame
    receives Escape. *)
Definition quick_exit_trace : list SdlCall :=
  match main has_intersection_positive_extent 14 (all_ok 0) [esc_frame 16] with
  | Some (_, tr) => tr
  | None => []
  end.

(** A rectangle of the size of the player that lies within the screen
    horizontally. *)
Definition on_screen_player (r : SDL_FRect) : Prop :=
  w r = F32.f40 /\ h r = F32.f60 /\
  F32.leb F32.zero (x r) = true /\ F32.leb (x r) (F32.sub F32.f800 F32.f40) = true.

(** What holds of the state at the top of every iteration of [main]. *)
Definition loop_inv (s : World) : Prop :=
  x_inv s /\ angle_inv s /\ h (player s) = F32.f60 /\ walls s = level_walls.
Definition forall_rotated_on_screen (tr : list SdlCall) : Prop :=
  forall t dst a c, In (Call_Render (SDL_RenderTextureRotated t dst a c)) tr ->
    on_screen_player dst /\ F32.leb F32.zero a = true /\ F32.leb a F32.f180 = true /\
    c = (F32.of_Z 20, F32.of_Z 30).

(** * Properties *)

(** ** Comparisons *)

Lemma SFcompare_antisym (a b : spec_float) :
  SFcompare b a = option_map CompOpp (SFcompare a b).
Proof.
  destruct a as [sa|sa| |sa ma ea], b as [sb|sb| |sb mb eb]; simpl;
    try destruct sa; try destruct sb; simpl; try reflexivity;
    change (Pos.compare_cont Eq mb ma) with (Pos.compare mb ma);
    change (Pos.compare_cont Eq ma mb) with (Pos.compare ma mb);
    rewrite (Z.compare_antisym ea eb), (Pos.compare_antisym ma mb);
    destruct (ea ?= eb); simpl; try reflexivity;
    destruct (ma ?= mb)%positive; reflexivity.
Qed.

Lemma ltb_not_gtb (a b : float) : F32.ltb a b = true -> F32.gtb a b = false.
Proof.
  unfold F32.ltb, F32.gtb, SFltb. rewrite (SFcompare_antisym a b).
  destruct (SFcompare a b) as [[]|]; simpl; congruence.
Qed.

Lemma eqb_not_ltb (a b : float) : F32.eqb a b = true -> F32.ltb a b = false.
Proof.
  unfold F32.eqb, F32.ltb, SFeqb, SFltb.
  destruct (SFcompare a b) as [[]|]; congruence.
Qed.

Lemma eqb_not_gtb (a b : float) : F32.eqb a b = true -> F32.gtb a b = false.
Proof.
  unfold F32.eqb, F32.gtb, SFeqb, SFltb. rewrite (SFcompare_antisym a b).
  destruct (SFcompare a b) as [[]|]; simpl; congruence.
Qed.

(** ** Rounding: [binary_round_aux] rounds faithfully *)

Lemma digits2_size (m : positive) : digits2_pos m = Pos.size m.
Proof. induction m; simpl; congruence. Qed.

Lemma digits_bounds (m : positive) :
  2 ^ (Z.pos (digits2_pos m) - 1) <= Z.pos m < 2 ^ Z.pos (digits2_pos m).
Proof.
  rewrite digits2_size. split.
  - pose proof (Pos.size_le m) as H.
    apply Pos2Z.pos_le_pos in H. rewrite Pos2Z.inj_pow in H.
    replace (Z.pos (Pos.size m)) with (Z.succ (Z.pos (Pos.size m) - 1)) in H by lia.
    rewrite Z.pow_succ_r in H by lia. lia.
  - pose proof (Pos.size_gt m) as H.
    apply Pos2Z.pos_lt_pos in H. now rewrite Pos2Z.inj_pow in H.
Qed.

Lemma xI_div_mod (p : positive) : Z.pos p~1 / 2 = Z.pos p /\ Z.pos p~1 mod 2 = 1.
Proof.
  rewrite Pos2Z.inj_xI. split; symmetry.
  - apply Z.div_unique with 1; lia.
  - apply Z.mod_unique with (Z.pos p); lia.
Qed.

Lemma xO_div_mod (p : positive) : Z.pos p~0 / 2 = Z.pos p /\ Z.pos p~0 mod 2 = 0.
Proof.
  rewrite Pos2Z.inj_xO. split; symmetry.
  - apply Z.div_unique with 0; lia.
  - apply Z.mod_unique with (Z.pos p); lia.
Qed.

Lemma shr_1_spec (mrs : shr_record) :
  0 <= shr_m mrs ->
  shr_m (shr_1 mrs) = shr_m mrs / 2 /\
  (inexact (shr_1 mrs) = false <-> inexact mrs = false /\ shr_m mrs mod 2 = 0).
Proof.
  destruct mrs as [m r s]. unfold inexact. simpl. intros Hm.
  destruct m as [|[p|p|]|p]; try lia; simpl shr_m; simpl shr_r; simpl shr_s.
  - split; [reflexivity|]. change (0 mod 2) with 0. simpl. tauto.
  - destruct (xI_div_mod p) as (-> & ->). split; [reflexivity|].
    simpl. split; [discriminate | intros [_ H]; discriminate H].
  - destruct (xO_div_mod p) as (-> & ->). split; [reflexivity|]. simpl. tauto.
  - change (1 / 2) with 0. change (1 mod 2) with 1. split; [reflexivity|].
    simpl. split; [discriminate | intros [_ H]; discriminate H].
Qed.

Lemma shifted_trans (j k : Z) (a b c : shr_record) :
  0 < j -> 0 < k -> 0 <= shr_m a ->
  shifted j a b -> shifted k b c -> shifted (j + k) a c.
Proof.
  intros Hj Hk Ha (Hb0 & Hb & Hbi) (Hc0 & Hc & Hci).
  assert (Hpj : 0 < 2 ^ j) by (apply Z.pow_pos_nonneg; lia).
  assert (Hpk : 0 < 2 ^ k) by (apply Z.pow_pos_nonneg; lia).
  split; [exact Hc0|]. split.
  - rewrite Hc, Hb, Z.pow_add_r by lia. apply Z.div_div; lia.
  - rewrite Hci, Hbi, Z.pow_add_r by lia.
    rewrite Z.rem_mul_r by lia. rewrite <- Hb.
    pose proof (Z.mod_pos_bound (shr_m a) (2 ^ j) Hpj).
    pose proof (Z.mod_pos_bound (shr_m b) (2 ^ k) Hpk).
    split.
    + intros ((Hi & H1) & H2). split; [exact Hi|]. rewrite H1, H2. lia.
    + intros (Hi & H3). repeat split; [exact Hi| |]; nia.
Qed.

Lemma shr_iter_spec (p : positive) (a : shr_record) :
  0 <= shr_m a -> shifted (Z.pos p) a (iter_pos shr_1 p a).
Proof.
  assert (H1 : forall a, 0 <= shr_m a -> shifted 1 a (shr_1 a)).
  { intros b Hb. destruct (shr_1_spec b Hb) as (Hm & Hi).
    unfold shifted. rewrite Z.pow_1_r. repeat split; try tauto.
    rewrite Hm. apply Z.div_pos; lia. }
  revert a. induction p as [p IH|p IH|]; intros a Ha; simpl.
  - pose proof (H1 a Ha) as S1.
    pose proof (IH _ (proj1 S1)) as S2.
    pose proof (IH _ (proj1 S2)) as S3.
    replace (Z.pos p~1) with (1 + (Z.pos p + Z.pos p)) by lia.
    apply shifted_trans with (shr_1 a); try lia; try assumption.
    apply shifted_trans with (iter_pos shr_1 p (shr_1 a)); try lia; try assumption.
    apply S1.
  - pose proof (IH _ Ha) as S2.
    pose proof (IH _ (proj1 S2)) as S3.
    replace (Z.pos p~0) with (Z.pos p + Z.pos p) by lia.
    apply shifted_trans with (iter_pos shr_1 p a); try lia; assumption.
  - now apply H1.
Qed.

Lemma fexp_eq (k : Z) : fexp F32.prec F32.emax k = Z.max (k - 24) (-149).
Proof. reflexivity. Qed.

Lemma pow2_pos (k : Z) : 0 <= k -> 0 < 2 ^ k.
Proof. intros; apply Z.pow_pos_nonneg; lia. Qed.

Lemma pow2_split (a b : Z) : 0 <= a -> 0 <= b -> 2 ^ (a + b) = 2 ^ a * 2 ^ b.
Proof. intros; apply Z.pow_add_r; lia. Qed.

Lemma pow2_le (a b : Z) : 0 <= a <= b -> 2 ^ a <= 2 ^ b.
Proof. intros; apply Z.pow_le_mono_r; lia. Qed.

Lemma bounded_inv (m : positive) (e : Z) :
  bounded F32.prec F32.emax m e = true ->
  -149 <= e <= 104 /\ Z.pos m < 2 ^ 24 /\ (2 ^ 23 <= Z.pos m \/ e = -149).
Proof.
  unfold bounded, canonical_mantissa. rewrite fexp_eq.
  intros H. apply andb_true_iff in H. destruct H as (Hc & He).
  apply Z.eqb_eq in Hc. apply Z.leb_le in He. change (F32.emax - F32.prec) with 104 in He.
  pose proof (digits_bounds m) as (Hlo & Hhi).
  set (d := Z.pos (digits2_pos m)) in *.
  assert (Hd : d = 24 \/ (d < 24 /\ e = -149)) by lia.
  split; [lia|]. destruct Hd as [Hd | (Hd & He')].
  - rewrite Hd in *. change (24 - 1) with 23 in Hlo. split; [exact Hhi | left; exact Hlo].
  - split; [|right; exact He'].
    apply Z.lt_le_trans with (2 ^ d); [exact Hhi|]. apply pow2_le. lia.
Qed.

Lemma bounded_intro (m : positive) (e : Z) :
  -149 <= e <= 104 -> Z.pos m < 2 ^ 24 -> (2 ^ 23 <= Z.pos m \/ e = -149) ->
  bounded F32.prec F32.emax m e = true.
Proof.
  intros He Hm Hn. unfold bounded, canonical_mantissa. rewrite fexp_eq.
  apply andb_true_iff. split; [|apply Z.leb_le; change (F32.emax - F32.prec) with 104; lia].
  apply Z.eqb_eq.
  pose proof (digits_bounds m) as (Hlo & Hhi).
  set (d := Z.pos (digits2_pos m)) in *.
  assert (Hd1 : d <= 24).
  { destruct (Z.le_gt_cases d 24) as [|Hgt]; [assumption|exfalso].
    assert (2 ^ 24 <= 2 ^ (d - 1)) by (apply pow2_le; lia). lia. }
  destruct Hn as [Hn | Hn]; [|lia].
  assert (Hd2 : 24 <= d).
  { destruct (Z.le_gt_cases 24 d) as [|Hlt]; [assumption|exfalso].
    assert (2 ^ d <= 2 ^ 23) by (apply pow2_le; subst d; lia). lia. }
  lia.
Qed.

Lemma scaled_pos (m : positive) (e : Z) :
  -149 <= e -> 0 < Z.pos m * 2 ^ (e + 149).
Proof. intros He. pose proof (pow2_pos (e + 149)). nia. Qed.

(** Valid positive floats are ordered first by exponent. *)
Lemma scaled_lt_exp (m1 m2 : positive) (e1 e2 : Z) :
  bounded F32.prec F32.emax m1 e1 = true -> bounded F32.prec F32.emax m2 e2 = true -> e1 < e2 ->
  Z.pos m1 * 2 ^ (e1 + 149) < Z.pos m2 * 2 ^ (e2 + 149).
Proof.
  intros H1 H2 Hlt.
  destruct (bounded_inv _ _ H1) as (He1 & Hm1 & _).
  destruct (bounded_inv _ _ H2) as (He2 & _ & Hn2).
  assert (Hm2 : 2 ^ 23 <= Z.pos m2) by lia.
  replace (e2 + 149) with ((e1 + 149) + (e2 - e1)) by lia.
  rewrite (pow2_split (e1 + 149) (e2 - e1)) by lia.
  pose proof (pow2_pos (e1 + 149)).
  assert (2 ^ 1 <= 2 ^ (e2 - e1)) by (apply pow2_le; lia).
  change (2 ^ 1) with 2 in *. change (2 ^ 24) with (2 * 2 ^ 23) in Hm1.
  set (P := 2 ^ (e1 + 149)) in *. set (Q := 2 ^ (e2 - e1)) in *.
  set (c := 2 ^ 23) in *.
  assert (Z.pos m1 * P < 2 * c * P) by nia.
  assert (2 * c * P <= Z.pos m2 * (2 * P)) by nia.
  assert (Z.pos m2 * (2 * P) <= Z.pos m2 * (P * Q)) by nia.
  lia.
Qed.

Lemma mul_compare_r (a b P : Z) : 0 < P -> (a * P ?= b * P) = (a ?= b).
Proof.
  intros HP. destruct (Z.compare_spec a b);
    [apply Z.compare_eq_iff | apply Z.compare_lt_iff | apply Z.compare_gt_iff]; nia.
Qed.

Lemma SFcompare_scaled (a b : spec_float) :
  F32.valid a = true -> F32.valid b = true -> finite_or_zero a = true -> finite_or_zero b = true ->
  SFcompare a b = Some (scaled a ?= scaled b).
Proof.
  unfold F32.valid.
  destruct a as [sa| | |sa ma ea], b as [sb| | |sb mb eb]; try discriminate;
    unfold valid_binary; intros Va Vb _ _; unfold SFcompare, scaled, cond_Zopp.
  - reflexivity.
  - destruct (bounded_inv _ _ Vb) as (He & _). pose proof (scaled_pos mb eb).
    destruct sb; f_equal; symmetry;
      [apply Z.compare_gt_iff | apply Z.compare_lt_iff]; lia.
  - destruct (bounded_inv _ _ Va) as (He & _). pose proof (scaled_pos ma ea).
    destruct sa; f_equal; symmetry;
      [apply Z.compare_lt_iff | apply Z.compare_gt_iff]; lia.
  - destruct (bounded_inv _ _ Va) as (Hea & _). pose proof (scaled_pos ma ea).
    destruct (bounded_inv _ _ Vb) as (Heb & _). pose proof (scaled_pos mb eb).
    assert (Hord : forall c, (ea ?= eb) = c ->
              match c with
              | Lt => Z.pos ma * 2 ^ (ea + 149) < Z.pos mb * 2 ^ (eb + 149)
              | Gt => Z.pos mb * 2 ^ (eb + 149) < Z.pos ma * 2 ^ (ea + 149)
              | Eq => ea = eb
              end).
    { intros [] Hc.
      - now apply Z.compare_eq_iff.
      - apply scaled_lt_exp; assumption.
      - apply scaled_lt_exp; try assumption. apply Z.compare_gt_iff in Hc. lia. }
    specialize (Hord _ eq_refl).
    change (Pos.compare_cont Eq ma mb) with (Z.pos ma ?= Z.pos mb).
    destruct sa, sb; f_equal; symmetry.
    + destruct (ea ?= eb).
      * subst eb. rewrite Z.compare_opp, mul_compare_r by (apply pow2_pos; lia).
        apply Z.compare_antisym.
      * apply Z.compare_gt_iff. lia.
      * apply Z.compare_lt_iff. lia.
    + apply Z.compare_lt_iff. lia.
    + apply Z.compare_gt_iff. lia.
    + destruct (ea ?= eb).
      * subst eb. apply mul_compare_r. apply pow2_pos. lia.
      * apply Z.compare_lt_iff. lia.
      * apply Z.compare_gt_iff. lia.
Qed.

Lemma SFleb_scaled (a b : spec_float) :
  F32.valid a = true -> F32.valid b = true -> finite_or_zero a = true -> finite_or_zero b = true ->
  SFleb a b = true <-> scaled a <= scaled b.
Proof.
  intros Va Vb Fa Fb. unfold SFleb. rewrite (SFcompare_scaled a b Va Vb Fa Fb).
  destruct (Z.compare_spec (scaled a) (scaled b)); split; intros; try lia; try reflexivity;
    discriminate.
Qed.

Lemma SFltb_scaled (a b : spec_float) :
  F32.valid a = true -> F32.valid b = true -> finite_or_zero a = true -> finite_or_zero b = true ->
  SFltb a b = true <-> scaled a < scaled b.
Proof.
  intros Va Vb Fa Fb. unfold SFltb. rewrite (SFcompare_scaled a b Va Vb Fa Fb).
  destruct (Z.compare_spec (scaled a) (scaled b)); split; intros; try lia; try reflexivity;
    discriminate.
Qed.

Lemma scaled_bound (g : spec_float) :
  F32.valid g = true -> scaled g < 2 ^ 277.
Proof.
  destruct g as [s| | |s m e]; unfold scaled, F32.valid, valid_binary; intros V;
    try (apply pow2_pos; lia).
  destruct (bounded_inv _ _ V) as (He & Hm & _).
  pose proof (scaled_pos m e).
  assert (2 ^ (e + 149) <= 2 ^ 253) by (apply pow2_le; lia).
  replace 277 with (24 + 253) by reflexivity. rewrite (pow2_split 24 253) by lia.
  set (P := 2 ^ (e + 149)) in *. set (c := 2 ^ 24) in *. set (d := 2 ^ 253) in *.
  assert (0 < d) by (apply pow2_pos; lia).
  assert (0 < c) by (apply pow2_pos; lia).
  destruct s; unfold cond_Zopp; nia.
Qed.

(** No F32.valid float lies strictly between two neighbours of the grid of
    exponent [e], when the grid is that of a binade ([2^23 <= M]) or of the
    subnormals. *)
Lemma no_float_between (g : spec_float) (M e : Z) :
  F32.valid g = true -> -149 <= e -> 0 <= M -> (2 ^ 23 <= M \/ e = -149) ->
  M * 2 ^ (e + 149) < scaled g -> scaled g < (M + 1) * 2 ^ (e + 149) -> False.
Proof.
  intros V He HM Hn Hlo Hhi.
  pose proof (pow2_pos (e + 149)) as HP.
  destruct g as [s| | |s m eg]; unfold scaled in Hlo, Hhi; try nia.
  unfold F32.valid, valid_binary in V.
  destruct (bounded_inv _ _ V) as (Heg & Hm & _).
  pose proof (scaled_pos m eg) as Hg.
  destruct s; unfold cond_Zopp in *; [nia|].
  destruct (Z.le_gt_cases e eg) as [Hle | Hgt].
  - replace (eg + 149) with ((e + 149) + (eg - e)) in * by lia.
    rewrite (pow2_split (e + 149) (eg - e)) in * by lia.
    pose proof (pow2_pos (eg - e)).
    set (P := 2 ^ (e + 149)) in *. set (Q := 2 ^ (eg - e)) in *.
    assert (M < Z.pos m * Q) by nia.
    assert (Z.pos m * Q < M + 1) by nia.
    lia.
  - assert (HM' : 2 ^ 23 <= M) by lia.
    replace (e + 149) with ((eg + 149) + (e - eg)) in * by lia.
    rewrite (pow2_split (eg + 149) (e - eg)) in * by lia.
    assert (2 ^ 1 <= 2 ^ (e - eg)) by (apply pow2_le; lia).
    change (2 ^ 1) with 2 in *. change (2 ^ 24) with (2 * 2 ^ 23) in Hm.
    set (P := 2 ^ (eg + 149)) in *. set (Q := 2 ^ (e - eg)) in *.
    set (c := 2 ^ 23) in *.
    assert (Z.pos m * P < 2 * c * P) by nia.
    assert (2 * c * P <= M * (2 * P)) by nia.
    assert (M * (2 * P) <= M * (P * Q)) by nia.
    lia.
Qed.

Lemma shr_spec (a : shr_record) (e n : Z) :
  0 <= n -> 0 <= shr_m a ->
  snd (shr a e n) = e + n /\ shifted n a (fst (shr a e n)).
Proof.
  intros Hn Ha. destruct n as [|p|p]; [| |lia]; simpl.
  - split; [lia|]. unfold shifted. rewrite Z.div_1_r, Z.mod_1_r. tauto.
  - split; [reflexivity|]. now apply shr_iter_spec.
Qed.

Lemma inexact_of_loc (m : Z) (l : location) :
  shr_m (shr_record_of_loc m l) = m /\
  (inexact (shr_record_of_loc m l) = false <-> l = loc_Exact).
Proof.
  destruct l as [|[]]; simpl; (split; [reflexivity|]); unfold inexact; simpl;
    split; try discriminate; reflexivity.
Qed.

Lemma round_nearest_even_spec (a : shr_record) :
  let M := round_nearest_even (shr_m a) (loc_of_shr_record a) in
  shr_m a <= M <= shr_m a + 1 /\ (inexact a = false -> M = shr_m a).
Proof.
  destruct a as [m r s]. unfold inexact. simpl.
  destruct r, s; simpl; try destruct (Z.even m); split; try lia; try discriminate;
    reflexivity.
Qed.

Lemma binary_round_aux_unfold (sx : bool) (m e : Z) (l : location) :
  binary_round_aux F32.prec F32.emax sx m e l =
  let s1 := shr_fexp F32.prec F32.emax m e l in
  finish_round sx
    (shr_fexp F32.prec F32.emax (round_nearest_even (shr_m (fst s1)) (loc_of_shr_record (fst s1)))
       (snd s1) loc_Exact).
Proof.
  unfold binary_round_aux, finish_round.
  destruct (shr_fexp F32.prec F32.emax m e l) as [a e1]. simpl.
  destruct (shr_fexp _ _ _ _ _) as [b e2]. reflexivity.
Qed.

Lemma digits_le_24 (p : positive) : Z.pos p < 2 ^ 24 -> Z.pos (digits2_pos p) <= 24.
Proof.
  intros H. pose proof (digits_bounds p) as (Hlo & _).
  destruct (Z.le_gt_cases (Z.pos (digits2_pos p)) 24) as [|Hgt]; [assumption|exfalso].
  assert (2 ^ 24 <= 2 ^ (Z.pos (digits2_pos p) - 1)) by (apply pow2_le; lia). lia.
Qed.

Lemma shr_nonpos (a : shr_record) (e n : Z) : n <= 0 -> shr a e n = (a, e).
Proof. destruct n; try reflexivity. lia. Qed.

Lemma finish_round_spec (M e : Z) :
  0 <= M <= 2 ^ 24 -> -149 <= e -> (2 ^ 23 <= M \/ e = -149) ->
  let r := finish_round false (shr_fexp F32.prec F32.emax M e loc_Exact) in
  F32.valid r = true /\
  ((r = S754_infinity false /\ 2 ^ 277 <= M * 2 ^ (e + 149)) \/
   (finite_or_zero r = true /\ scaled r = M * 2 ^ (e + 149))).
Proof.
  intros HM He Hn. cbv zeta. unfold shr_fexp. rewrite fexp_eq.
  assert (Hc : M = 0 \/ (0 < M < 2 ^ 24) \/ M = 2 ^ 24) by lia.
  destruct Hc as [-> | [Hc | ->]].
  - rewrite shr_nonpos by (simpl Zdigits2; lia).
    unfold finish_round. simpl. split; [reflexivity|]. right. split; reflexivity.
  - destruct M as [|p|p]; try lia.
    pose proof (digits_le_24 p (proj2 Hc)) as Hd.
    rewrite shr_nonpos by (simpl Zdigits2; lia).
    unfold finish_round. cbn [fst snd shr_m shr_record_of_loc].
    change (F32.emax - F32.prec) with 104.
    destruct (Z.leb_spec e 104) as [Hle | Hgt].
    + split; [apply bounded_intro; lia|]. right. split; reflexivity.
    + split; [reflexivity|]. left. split; [reflexivity|].
      assert (H23 : 2 ^ 23 <= Z.pos p) by lia.
      assert (2 ^ 254 <= 2 ^ (e + 149)) by (apply pow2_le; lia).
      replace 277 with (23 + 254) by reflexivity. rewrite (pow2_split 23 254) by lia.
      assert (0 < 2 ^ 23) by (apply pow2_pos; lia).
      set (c := 2 ^ 23) in *. set (P := 2 ^ (e + 149)) in *. set (d := 2 ^ 254) in *. nia.
  - change (Zdigits2 (2 ^ 24)) with 25.
    replace (Z.max (25 + e - 24) (-149) - e) with 1 by lia.
    unfold finish_round. cbn [shr fst snd].
    change (shr_m (iter_pos shr_1 1 (shr_record_of_loc (2 ^ 24) loc_Exact))) with (2 ^ 23).
    change (2 ^ 23) with (Z.pos 8388608) at 1 2 3.
    change (F32.emax - F32.prec) with 104.
    assert (Hs : 2 ^ 24 * 2 ^ (e + 149) = Z.pos 8388608 * 2 ^ (e + 1 + 149)).
    { replace (e + 1 + 149) with (1 + (e + 149)) by lia.
      rewrite (pow2_split 1 (e + 149)) by lia. change (2 ^ 1) with 2.
      change (2 ^ 24) with (Z.pos 8388608 * 2). lia. }
    destruct (Z.leb_spec (e + 1) 104) as [Hle | Hgt].
    + split; [apply bounded_intro; [lia|reflexivity|left; reflexivity]|].
      right. split; [reflexivity|]. simpl scaled. unfold cond_Zopp. now rewrite Hs.
    + split; [reflexivity|]. left. split; [reflexivity|].
      assert (2 ^ 253 <= 2 ^ (e + 149)) by (apply pow2_le; lia).
      replace 277 with (24 + 253) by reflexivity. rewrite (pow2_split 24 253) by lia.
      assert (0 < 2 ^ 24) by (apply pow2_pos; lia).
      set (c := 2 ^ 24) in *. set (P := 2 ^ (e + 149)) in *. set (d := 2 ^ 253) in *. nia.
Qed.

Lemma SFleb_infinity (g : spec_float) :
  finite_or_zero g = true -> SFleb g (S754_infinity false) = true.
Proof. destruct g; try discriminate; reflexivity. Qed.

Lemma div_shift_bounds (m d e n : Z) :
  0 <= n -> 0 < d -> 2 ^ (d - 1) <= m < 2 ^ d ->
  e + n = Z.max (d + e - 24) (-149) ->
  m / 2 ^ n < 2 ^ 24 /\ (2 ^ 23 <= m / 2 ^ n \/ e + n = -149).
Proof.
  intros Hn Hd (Hlo & Hhi) He.
  pose proof (pow2_pos n Hn) as HP.
  split.
  - apply Z.div_lt_upper_bound; [exact HP|].
    apply Z.lt_le_trans with (2 ^ d); [exact Hhi|].
    rewrite <- (pow2_split n 24) by lia. apply pow2_le. lia.
  - destruct (Z.eq_dec (e + n) (-149)) as [|Hne]; [right; assumption|left].
    assert (Hn' : n = d - 24) by lia.
    apply Z.div_le_lower_bound; [exact HP|].
    rewrite <- (pow2_split n 23) by lia.
    apply Z.le_trans with (2 ^ (d - 1)); [|exact Hlo].
    apply pow2_le. lia.
Qed.

Theorem binary_round_aux_rounded (m : positive) (e : Z) (l : location) (N D : Z) :
  0 < D -> Z.pos m = N / D -> (l = loc_Exact <-> N mod D = 0) ->
  let n := fexp F32.prec F32.emax (Z.pos (digits2_pos m) + e) - e in
  0 <= n ->
  rounded (N * 2 ^ (e + n + 149)) (D * 2 ^ n)
          (binary_round_aux F32.prec F32.emax false (Z.pos m) e l).
Proof.
  intros HD HN Hl n Hn.
  rewrite binary_round_aux_unfold. cbv zeta.
  assert (Hs : shr_fexp F32.prec F32.emax (Z.pos m) e l = shr (shr_record_of_loc (Z.pos m) l) e n)
    by reflexivity.
  rewrite Hs. clear Hs.
  destruct (inexact_of_loc (Z.pos m) l) as (Hm0 & Hi0).
  destruct (shr_spec (shr_record_of_loc (Z.pos m) l) e n Hn ltac:(rewrite Hm0; lia))
    as (He1 & (Hb0 & Hb & Hbi)).
  set (a := fst (shr (shr_record_of_loc (Z.pos m) l) e n)) in *.
  rewrite He1. rewrite Hm0 in Hb, Hbi. rewrite Hi0, Hl in Hbi.
  pose proof (pow2_pos n Hn) as HPn.
  assert (He : e + n = Z.max (Z.pos (digits2_pos m) + e - 24) (-149))
    by (subst n; rewrite fexp_eq; lia).
  destruct (div_shift_bounds (Z.pos m) (Z.pos (digits2_pos m)) e n Hn ltac:(lia)
              (digits_bounds m) He) as (Hlt & Hnorm).
  rewrite <- Hb in Hlt, Hnorm.
  set (M1 := shr_m a) in *. set (e1 := e + n) in *.
  assert (HM1 : M1 = N / (D * 2 ^ n)) by (rewrite Hb, HN; apply Z.div_div; lia).
  assert (Hex : inexact a = false <-> N mod (D * 2 ^ n) = 0).
  { rewrite Hbi, Z.rem_mul_r, <- HN by lia.
    pose proof (Z.mod_pos_bound N D HD). pose proof (Z.mod_pos_bound (Z.pos m) (2 ^ n) HPn).
    split; [intros (H1 & H2); rewrite H1, H2; lia | intros H3; split; nia]. }
  set (D1 := D * 2 ^ n) in *.
  assert (HD1 : 0 < D1) by (subst D1; nia).
  pose proof (Z.div_mod N D1 ltac:(lia)) as Hdm. rewrite <- HM1 in Hdm.
  pose proof (Z.mod_pos_bound N D1 HD1) as HR.
  set (R := N mod D1) in *.
  destruct (round_nearest_even_spec a) as (HM2 & HM2e). fold M1 in HM2, HM2e.
  set (M2 := round_nearest_even M1 (loc_of_shr_record a)) in *.
  assert (He1' : -149 <= e1) by lia.
  destruct (finish_round_spec M2 e1 ltac:(lia) He1' ltac:(lia)) as (Hv & Hr).
  set (r := finish_round false (shr_fexp F32.prec F32.emax M2 e1 loc_Exact)) in *.
  pose proof (pow2_pos (e1 + 149) ltac:(lia)) as HP1.
  set (P1 := 2 ^ (e1 + 149)) in *.
  split; [exact Hv|]. split; [destruct Hr as [(-> & _) | (Hf & _)]; [reflexivity|]|].
  { destruct r; try discriminate; reflexivity. }
  intros g Vg Fg. split; intros Hc.
  - destruct Hr as [(-> & _) | (Hf & Hsc)]; [now apply SFleb_infinity|].
    apply SFleb_scaled; try assumption. rewrite Hsc.
    assert (H1 : scaled g < (M1 + 1) * P1) by nia.
    assert (H2 : scaled g <= M1 * P1).
    { destruct (Z.le_gt_cases (scaled g) (M1 * P1)) as [|Hgt]; [assumption|exfalso].
      apply (no_float_between g M1 e1); try assumption; lia. }
    nia.
  - assert (H3 : M2 * P1 <= scaled g).
    { destruct (Z.eq_dec R 0) as [HR0 | HR0].
      - rewrite (HM2e (proj2 Hex HR0)). nia.
      - assert (H1 : M1 * P1 < scaled g) by nia.
        assert (H2 : (M1 + 1) * P1 <= scaled g).
        { destruct (Z.le_gt_cases ((M1 + 1) * P1) (scaled g)) as [|Hgt]; [assumption|exfalso].
          apply (no_float_between g M1 e1); try assumption; lia. }
        nia. }
    destruct Hr as [(_ & Hov) | (Hf & Hsc)].
    + pose proof (scaled_bound g Vg). fold P1 in Hov. lia.
    + apply SFleb_scaled; try assumption. now rewrite Hsc.
Qed.



(** ** Transfer lemmas for [rounded] *)

Lemma rounded_equiv (a b a' b' : Z) (r : spec_float) :
  0 < b -> 0 < b' -> a * b' = a' * b -> rounded a b r -> rounded a' b' r.
Proof.
  intros Hb Hb' Heq (Hv & Hn & Hc). split; [exact Hv|]. split; [exact Hn|].
  intros g Vg Fg. destruct (Hc g Vg Fg) as (H1 & H2).
  split; intros H; [apply H1 | apply H2]; nia.
Qed.

Lemma rounded_self (r : spec_float) :
  F32.valid r = true -> finite_or_zero r = true -> rounded (scaled r) 1 r.
Proof.
  intros Hv Hf. split; [exact Hv|]. split; [destruct r; try discriminate; reflexivity|].
  intros g Vg Fg. rewrite !SFleb_scaled by assumption. lia.
Qed.

Lemma rounded_zero (s : bool) (den : Z) : 0 < den -> rounded 0 den (S754_zero s).
Proof.
  intros Hd. apply (rounded_equiv 0 1); try lia.
  apply (rounded_self (S754_zero s)); reflexivity.
Qed.

Lemma SFopp_involutive (a : spec_float) : SFopp (SFopp a) = a.
Proof. destruct a; simpl; try rewrite negb_involutive; reflexivity. Qed.

Lemma SFcompare_opp (a b : spec_float) : SFcompare (SFopp a) (SFopp b) = SFcompare b a.
Proof.
  rewrite (SFcompare_antisym a b).
  destruct a as [sa|sa| |sa ma ea], b as [sb|sb| |sb mb eb]; simpl;
    try destruct sa; try destruct sb; simpl; try reflexivity;
    destruct (ea ?= eb); simpl; try reflexivity.
  now rewrite CompOpp_involutive.
Qed.

Lemma SFleb_opp (a b : spec_float) : SFleb (SFopp a) (SFopp b) = SFleb b a.
Proof. unfold SFleb. now rewrite SFcompare_opp. Qed.

Lemma scaled_opp (a : spec_float) : scaled (SFopp a) = - scaled a.
Proof. destruct a as [| | |[] m e]; simpl; lia. Qed.

Lemma valid_opp (a : spec_float) : F32.valid (SFopp a) = F32.valid a.
Proof. destruct a; reflexivity. Qed.

Lemma finite_or_zero_opp (a : spec_float) : finite_or_zero (SFopp a) = finite_or_zero a.
Proof. destruct a; reflexivity. Qed.

Lemma rounded_opp (a b : Z) (r : spec_float) :
  rounded a b r -> rounded (- a) b (SFopp r).
Proof.
  intros (Hv & Hn & Hc). split; [now rewrite valid_opp|].
  split; [destruct r; try discriminate; reflexivity|].
  intros g Vg Fg.
  destruct (Hc (SFopp g)) as (H1 & H2);
    [now rewrite valid_opp | now rewrite finite_or_zero_opp |].
  rewrite scaled_opp in H1, H2.
  rewrite <- (SFopp_involutive g) at 2 4. rewrite !SFleb_opp.
  split; intros H; [apply H2 | apply H1]; lia.
Qed.

Lemma binary_round_aux_sign (m e : Z) (l : location) :
  binary_round_aux F32.prec F32.emax true m e l = SFopp (binary_round_aux F32.prec F32.emax false m e l).
Proof.
  rewrite !binary_round_aux_unfold. cbv zeta. unfold finish_round.
  destruct (shr_m _); try reflexivity.
  destruct (_ <=? _); reflexivity.
Qed.

(** ** Alignment and normalisation *)

Lemma iter_xO_spec (m d : positive) :
  Z.pos (Pos.iter xO m d) = Z.pos m * 2 ^ Z.pos d /\
  Z.pos (digits2_pos (Pos.iter xO m d)) = Z.pos (digits2_pos m) + Z.pos d.
Proof.
  induction d as [|d IH] using Pos.peano_ind.
  - simpl. split; lia.
  - rewrite Pos.iter_succ. destruct IH as (IH1 & IH2).
    rewrite !Pos2Z.inj_succ. split.
    + rewrite Pos2Z.inj_xO, IH1, Z.pow_succ_r by lia. ring.
    + simpl digits2_pos. rewrite Pos2Z.inj_succ, IH2. ring.
Qed.

Lemma shl_align_spec (m : positive) (e e' : Z) :
  let r := shl_align m e e' in
  snd r = Z.min e e' /\
  Z.pos (fst r) = Z.pos m * 2 ^ (e - snd r) /\
  Z.pos (digits2_pos (fst r)) = Z.pos (digits2_pos m) + (e - snd r).
Proof.
  unfold shl_align. destruct (e' - e) as [|d|d] eqn:Hd; cbn [fst snd].
  - replace (e - e) with 0 by lia. rewrite Z.pow_0_r. split; [lia|]. split; lia.
  - replace (e - e) with 0 by lia. rewrite Z.pow_0_r. split; [lia|]. split; lia.
  - destruct (iter_xO_spec m d) as (H1 & H2).
    replace (e - e') with (Z.pos d) by lia. split; [lia|]. split; assumption.
Qed.

Lemma binary_round_rounded (m : positive) (e : Z) :
  -149 <= e -> rounded (Z.pos m * 2 ^ (e + 149)) 1 (binary_round F32.prec F32.emax false m e).
Proof.
  intros He. unfold binary_round.
  pose proof (shl_align_spec m e (fexp F32.prec F32.emax (Z.pos (digits2_pos m) + e))) as H.
  destruct (shl_align m e _) as [mz ez]. cbv zeta in H. cbn [fst snd] in H.
  destruct H as (Hez & Hmz & Hdz).
  rewrite fexp_eq in Hez.
  pose proof (binary_round_aux_rounded mz ez loc_Exact (Z.pos mz) 1 ltac:(lia)
                ltac:(now rewrite Z.div_1_r)
                ltac:(rewrite Z.mod_1_r; tauto)) as Hr.
  cbv zeta in Hr. rewrite fexp_eq, Hdz in Hr.
  specialize (Hr ltac:(lia)).
  set (n := Z.max (Z.pos (digits2_pos m) + (e - ez) + ez - 24) (-149) - ez) in *.
  assert (Hn : 0 <= n) by lia.
  eapply rounded_equiv; [| |  |exact Hr].
  - pose proof (pow2_pos n Hn). lia.
  - lia.
  - rewrite Hmz.
    replace (ez + n + 149) with ((ez + 149) + n) by lia.
    rewrite (pow2_split (ez + 149) n) by lia.
    replace (e + 149) with ((e - ez) + (ez + 149)) by lia.
    rewrite (pow2_split (e - ez) (ez + 149)) by lia. ring.
Qed.

Lemma binary_normalize_rounded (m e : Z) :
  -149 <= e -> rounded (m * 2 ^ (e + 149)) 1 (binary_normalize F32.prec F32.emax m e false).
Proof.
  intros He. destruct m as [|p|p]; unfold binary_normalize.
  - apply rounded_zero. lia.
  - now apply binary_round_rounded.
  - unfold binary_round. destruct (shl_align p e _) as [mz ez] eqn:Hs.
    rewrite binary_round_aux_sign.
    replace (Z.neg p * 2 ^ (e + 149)) with (- (Z.pos p * 2 ^ (e + 149))) by lia.
    apply rounded_opp.
    pose proof (binary_round_rounded p e He) as H. unfold binary_round in H.
    now rewrite Hs in H.
Qed.

Lemma of_Z_rounded (n : Z) :
  rounded (n * 2 ^ 149) 1 (binary_normalize F32.prec F32.emax n 0 false).
Proof. apply (binary_normalize_rounded n 0). lia. Qed.

(** ** Addition and subtraction *)

Lemma aligned_scaled (s : bool) (m : positive) (e ez : Z) :
  -149 <= ez <= e ->
  cond_Zopp s (Z.pos (fst (shl_align m e ez))) * 2 ^ (ez + 149) =
  scaled (S754_finite s m e).
Proof.
  intros He. destruct (shl_align_spec m e ez) as (H1 & H2 & _).
  rewrite H2, H1. replace (Z.min e ez) with ez by lia.
  unfold scaled. replace (e + 149) with ((e - ez) + (ez + 149)) by lia.
  rewrite (pow2_split (e - ez) (ez + 149)) by lia.
  destruct s; unfold cond_Zopp; ring.
Qed.

Lemma add_rounded (a b : spec_float) :
  F32.valid a = true -> F32.valid b = true -> finite_or_zero a = true -> finite_or_zero b = true ->
  rounded (scaled a + scaled b) 1 (SFadd F32.prec F32.emax a b).
Proof.
  intros Va Vb Fa Fb.
  destruct a as [sa| | |sa ma ea], b as [sb| | |sb mb eb]; try discriminate.
  - simpl scaled. destruct sa, sb; apply rounded_zero; lia.
  - apply (rounded_self (S754_finite sb mb eb)); assumption.
  - replace (scaled (S754_finite sa ma ea) + scaled (S754_zero sb))
      with (scaled (S754_finite sa ma ea)) by (simpl; lia).
    apply (rounded_self (S754_finite sa ma ea)); assumption.
  - destruct (bounded_inv _ _ Va) as (Hea & _). destruct (bounded_inv _ _ Vb) as (Heb & _).
    unfold SFadd.
    rewrite <- (aligned_scaled sa ma ea (Z.min ea eb)) by lia.
    rewrite <- (aligned_scaled sb mb eb (Z.min ea eb)) by lia.
    rewrite <- Z.mul_add_distr_r.
    apply binary_normalize_rounded. lia.
Qed.

Lemma sub_rounded (a b : spec_float) :
  F32.valid a = true -> F32.valid b = true -> finite_or_zero a = true -> finite_or_zero b = true ->
  rounded (scaled a - scaled b) 1 (SFsub F32.prec F32.emax a b).
Proof.
  intros Va Vb Fa Fb.
  destruct a as [sa| | |sa ma ea], b as [sb| | |sb mb eb]; try discriminate.
  - simpl scaled. destruct sa, sb; apply rounded_zero; lia.
  - replace (scaled (S754_zero sa) - scaled (S754_finite sb mb eb))
      with (scaled (S754_finite (negb sb) mb eb)) by (destruct sb; simpl; lia).
    apply (rounded_self (S754_finite (negb sb) mb eb)); assumption.
  - replace (scaled (S754_finite sa ma ea) - scaled (S754_zero sb))
      with (scaled (S754_finite sa ma ea)) by (simpl; lia).
    apply (rounded_self (S754_finite sa ma ea)); assumption.
  - destruct (bounded_inv _ _ Va) as (Hea & _). destruct (bounded_inv _ _ Vb) as (Heb & _).
    unfold SFsub.
    rewrite <- (aligned_scaled sa ma ea (Z.min ea eb)) by lia.
    rewrite <- (aligned_scaled sb mb eb (Z.min ea eb)) by lia.
    rewrite <- Z.mul_sub_distr_r.
    apply binary_normalize_rounded. lia.
Qed.

(** ** Multiplication *)

Lemma canonical_inv (m : positive) (e : Z) :
  bounded F32.prec F32.emax m e = true ->
  Z.max (Z.pos (digits2_pos m) + e - 24) (-149) = e.
Proof.
  unfold bounded, canonical_mantissa. rewrite fexp_eq.
  intros H. apply andb_true_iff in H. destruct H as (Hc & _). now apply Z.eqb_eq in Hc.
Qed.

Lemma digits_mul (a b : positive) :
  Z.pos (digits2_pos a) + Z.pos (digits2_pos b) - 1 <= Z.pos (digits2_pos (a * b)).
Proof.
  pose proof (digits_bounds a) as (Ha & _). pose proof (digits_bounds b) as (Hb & _).
  pose proof (digits_bounds (a * b)) as (_ & Hab).
  set (da := Z.pos (digits2_pos a)) in *. set (db := Z.pos (digits2_pos b)) in *.
  set (d := Z.pos (digits2_pos (a * b))) in *.
  destruct (Z.le_gt_cases (da + db - 1) d) as [|Hgt]; [assumption|exfalso].
  assert (H1 : 2 ^ d <= 2 ^ ((da - 1) + (db - 1))) by (apply pow2_le; subst d; lia).
  rewrite (pow2_split (da - 1) (db - 1)) in H1 by (subst da db; lia).
  rewrite Pos2Z.inj_mul in Hab.
  pose proof (pow2_pos (da - 1) ltac:(subst da; lia)).
  pose proof (pow2_pos (db - 1) ltac:(subst db; lia)).
  nia.
Qed.

Lemma mul_rounded (a b : spec_float) :
  F32.valid a = true -> F32.valid b = true -> finite_or_zero a = true -> finite_or_zero b = true ->
  rounded (scaled a * scaled b) (2 ^ 149) (SFmul F32.prec F32.emax a b).
Proof.
  intros Va Vb Fa Fb.
  assert (HP : 0 < 2 ^ 149) by (apply pow2_pos; lia).
  destruct a as [sa| | |sa ma ea], b as [sb| | |sb mb eb]; try discriminate;
    try (rewrite ?Z.mul_0_l, ?Z.mul_0_r; simpl SFmul; apply rounded_zero; exact HP);
    try (replace (scaled (S754_zero sa) * scaled (S754_finite sb mb eb)) with 0
           by (simpl; lia); apply rounded_zero; exact HP);
    try (replace (scaled (S754_finite sa ma ea) * scaled (S754_zero sb)) with 0
           by (simpl; lia); apply rounded_zero; exact HP).
  destruct (bounded_inv _ _ Va) as (Hea & _). destruct (bounded_inv _ _ Vb) as (Heb & _).
  pose proof (canonical_inv _ _ Va) as Ca. pose proof (canonical_inv _ _ Vb) as Cb.
  pose proof (digits_mul ma mb) as Hd.
  pose proof (binary_round_aux_rounded (ma * mb) (ea + eb) loc_Exact (Z.pos (ma * mb)) 1
                ltac:(lia) ltac:(now rewrite Z.div_1_r) ltac:(rewrite Z.mod_1_r; tauto)) as Hr.
  cbv zeta in Hr. rewrite fexp_eq in Hr.
  assert (0 < Z.pos (digits2_pos ma)) by lia. assert (0 < Z.pos (digits2_pos mb)) by lia.
  set (n := Z.max (Z.pos (digits2_pos (ma * mb)) + (ea + eb) - 24) (-149) - (ea + eb)) in *.
  assert (Hn : 0 <= n) by lia.
  specialize (Hr Hn).
  assert (Hpos : rounded (Z.pos ma * 2 ^ (ea + 149) * (Z.pos mb * 2 ^ (eb + 149))) (2 ^ 149)
                   (binary_round_aux F32.prec F32.emax false (Z.pos (ma * mb)) (ea + eb) loc_Exact)).
  { eapply rounded_equiv; [| | |exact Hr].
    - pose proof (pow2_pos n Hn). lia.
    - exact HP.
    - rewrite Pos2Z.inj_mul.
      assert (Hk : 0 <= ea + eb + n + 149) by lia.
      transitivity (Z.pos ma * Z.pos mb * 2 ^ ((ea + eb + n + 149) + 149)).
      + rewrite (pow2_split (ea + eb + n + 149) 149) by lia. ring.
      + replace ((ea + eb + n + 149) + 149) with ((ea + 149) + ((eb + 149) + n)) by lia.
        rewrite (pow2_split (ea + 149) ((eb + 149) + n)) by lia.
        rewrite (pow2_split (eb + 149) n) by lia. ring. }
  unfold SFmul, scaled.
  destruct sa, sb; unfold xorb, cond_Zopp.
  - replace (- (Z.pos ma * 2 ^ (ea + 149)) * - (Z.pos mb * 2 ^ (eb + 149)))
      with (Z.pos ma * 2 ^ (ea + 149) * (Z.pos mb * 2 ^ (eb + 149))) by ring.
    exact Hpos.
  - replace (- (Z.pos ma * 2 ^ (ea + 149)) * (Z.pos mb * 2 ^ (eb + 149)))
      with (- (Z.pos ma * 2 ^ (ea + 149) * (Z.pos mb * 2 ^ (eb + 149)))) by ring.
    rewrite binary_round_aux_sign. now apply rounded_opp.
  - replace (Z.pos ma * 2 ^ (ea + 149) * - (Z.pos mb * 2 ^ (eb + 149)))
      with (- (Z.pos ma * 2 ^ (ea + 149) * (Z.pos mb * 2 ^ (eb + 149)))) by ring.
    rewrite binary_round_aux_sign. now apply rounded_opp.
  - exact Hpos.
Qed.

(** ** Division of a normal number by a normal number *)

Lemma new_location_exact (nb k : Z) : new_location nb k = loc_Exact <-> k = 0.
Proof.
  unfold new_location, new_location_even, new_location_odd.
  destruct (Z.even nb); destruct (Z.eqb_spec k 0); split; intros; try discriminate;
    try reflexivity; try contradiction; assumption.
Qed.

Lemma digits_24 (m : positive) :
  2 ^ 23 <= Z.pos m < 2 ^ 24 -> Z.pos (digits2_pos m) = 24.
Proof.
  intros (Hlo & Hhi). pose proof (digits_le_24 m Hhi).
  pose proof (digits_bounds m) as (_ & Hd).
  destruct (Z.le_gt_cases 24 (Z.pos (digits2_pos m))) as [|Hlt]; [lia|exfalso].
  assert (2 ^ Z.pos (digits2_pos m) <= 2 ^ 23) by (apply pow2_le; lia). lia.
Qed.

Lemma div_rounded (ma mb : positive) (ea eb : Z) :
  bounded F32.prec F32.emax ma ea = true -> bounded F32.prec F32.emax mb eb = true ->
  2 ^ 23 <= Z.pos ma -> 2 ^ 23 <= Z.pos mb -> -125 <= ea - eb ->
  rounded (scaled (S754_finite false ma ea) * 2 ^ 149) (scaled (S754_finite false mb eb))
          (SFdiv F32.prec F32.emax (S754_finite false ma ea) (S754_finite false mb eb)).
Proof.
  intros Va Vb Na Nb Hu.
  destruct (bounded_inv _ _ Va) as (Hea & Hma & _).
  destruct (bounded_inv _ _ Vb) as (Heb & Hmb & _).
  unfold SFdiv, SFdiv_core_binary. cbn [Zdigits2].
  rewrite (digits_24 ma), (digits_24 mb) by lia. rewrite fexp_eq.
  replace (Z.min (Z.max (24 + ea - (24 + eb) - 24) (-149)) (ea - eb))
    with (ea - eb - 24) by lia.
  replace (ea - eb - (ea - eb - 24)) with 24 by lia.
  cbv iota beta. rewrite Z.shiftl_mul_pow2 by lia.
  set (N := Z.pos ma * 2 ^ 24). set (D := Z.pos mb).
  pose proof (Z.div_mod N D ltac:(subst D; lia)) as Hdm.
  unfold Z.div, Z.modulo in Hdm.
  pose proof (Z.mod_pos_bound N D ltac:(subst D; lia)) as Hmod. unfold Z.modulo in Hmod.
  assert (Hq : 2 ^ 23 <= N / D).
  { apply Z.div_le_lower_bound; [subst D; lia|]. subst N D.
    change (2 ^ 24) with (2 * 2 ^ 23) in *. set (c := 2 ^ 23) in *. nia. }
  unfold Z.div in Hq.
  destruct (Z.div_eucl N D) as [q r].
  destruct q as [|q|q]; try (exfalso; assert (0 < 2 ^ 23) by (apply pow2_pos; lia); lia).
  change (xorb false false) with false.
  assert (HqN : Z.pos q = N / D).
  { apply Z.div_unique with r; [left; exact Hmod | rewrite Hdm; ring]. }
  assert (Hr0 : r = N mod D).
  { apply Z.mod_unique with (Z.pos q); [left; exact Hmod | rewrite Hdm; ring]. }
  pose proof (binary_round_aux_rounded q (ea - eb - 24) (new_location D r) N D
                ltac:(subst D; lia) HqN
                ltac:(rewrite new_location_exact, Hr0; tauto)) as Hr.
  cbv zeta in Hr. rewrite fexp_eq in Hr.
  pose proof (digits_bounds q) as (_ & Hdq).
  assert (Hd24 : 24 <= Z.pos (digits2_pos q)).
  { destruct (Z.le_gt_cases 24 (Z.pos (digits2_pos q))) as [|Hlt]; [assumption|exfalso].
    assert (2 ^ Z.pos (digits2_pos q) <= 2 ^ 23) by (apply pow2_le; lia). lia. }
  set (n := Z.max (Z.pos (digits2_pos q) + (ea - eb - 24) - 24) (-149) - (ea - eb - 24)) in *.
  assert (Hn : 0 <= n) by lia.
  specialize (Hr Hn).
  pose proof (scaled_pos mb eb ltac:(lia)) as Hsb.
  eapply rounded_equiv; [| | |exact Hr].
  - pose proof (pow2_pos n Hn). subst D. lia.
  - exact Hsb.
  - unfold scaled, cond_Zopp. subst N D.
    assert (Hk : 0 <= ea - eb - 24 + n + 149) by lia.
    transitivity (Z.pos ma * Z.pos mb * 2 ^ (24 + ((ea - eb - 24 + n + 149) + (eb + 149)))).
    + rewrite (pow2_split 24 _) by lia.
      rewrite (pow2_split (ea - eb - 24 + n + 149) (eb + 149)) by lia. ring.
    + replace (24 + ((ea - eb - 24 + n + 149) + (eb + 149)))
        with ((ea + 149) + (149 + n)) by lia.
      rewrite (pow2_split (ea + 149) (149 + n)) by lia.
      rewrite (pow2_split 149 n) by lia. ring.
Qed.


(** ** Collision resolution against one wall *)

Section Collision.

Variable hasInt : SDL_FRect -> SDL_FRect -> bool.

Lemma collide_wall_vertical oldX oldY s wl :
  hasInt (player s) wl = true ->
  F32.ltb (minVert (player s) wl) (minHoriz (player s) wl) = true ->
  collide_wall hasInt oldX oldY s wl = resolve_vertical oldY s wl.
Proof.
  intros Hi Hlt. unfold collide_wall, collide_wall_gen, resolve_vertical.
  now rewrite Hi, Hlt.
Qed.

Lemma collide_wall_horizontal oldX oldY s wl :
  hasInt (player s) wl = true ->
  F32.ltb (minVert (player s) wl) (minHoriz (player s) wl) = false ->
  collide_wall hasInt oldX oldY s wl = resolve_horizontal oldX s wl.
Proof.
  intros Hi Hlt. unfold collide_wall, collide_wall_gen, resolve_horizontal.
  rewrite Hi, Hlt.
  destruct (F32.gtb (x (player s)) oldX); [reflexivity|].
  destruct (F32.ltb (x (player s)) oldX); reflexivity.
Qed.

Lemma resolve_vertical_frame oldY s wl :
  x (player (resolve_vertical oldY s wl)) = x (player s) /\
  vx (resolve_vertical oldY s wl) = vx s.
Proof.
  unfold resolve_vertical.
  destruct (F32.gtb (y (player s)) oldY); [split; reflexivity|].
  destruct (F32.ltb (y (player s)) oldY); split; reflexivity.
Qed.

Lemma resolve_horizontal_frame oldX s wl :
  y (player (resolve_horizontal oldX s wl)) = y (player s) /\
  vy (resolve_horizontal oldX s wl) = vy s /\
  vx (resolve_horizontal oldX s wl) = F32.zero.
Proof.
  unfold resolve_horizontal.
  destruct (F32.gtb (x (player s)) oldX); [repeat split; reflexivity|].
  destruct (F32.ltb (x (player s)) oldX); repeat split; reflexivity.
Qed.

End Collision.

(** C1: when the player intersects a wall, the wall is resolved along the
    vertical axis exactly when [minVert < minHoriz] (only [y] and [vy] can
    change then); in every other case, exact ties included, it is resolved
    along the horizontal axis (only [x] and [vx] can change). *)
Theorem collide_wall_axis_choice
  (hasInt : SDL_FRect -> SDL_FRect -> bool) (oldX oldY : float) (s : World) (wl : SDL_FRect) :
  hasInt (player s) wl = true ->
  let s' := collide_wall hasInt oldX oldY s wl in
  let mv := minVert (player s) wl in
  let mh := minHoriz (player s) wl in
  (F32.ltb mv mh = true ->
     s' = resolve_vertical oldY s wl /\ x (player s') = x (player s) /\ vx s' = vx s) /\
  (F32.ltb mv mh = false ->
     s' = resolve_horizontal oldX s wl /\ y (player s') = y (player s) /\ vy s' = vy s) /\
  (F32.eqb mv mh = true -> s' = resolve_horizontal oldX s wl).
Proof.
  intros Hi s' mv mh. subst s' mv mh.
  split; [|split]; intros Hc.
  - rewrite collide_wall_vertical by assumption.
    split; [reflexivity | apply resolve_vertical_frame].
  - rewrite collide_wall_horizontal by assumption.
    destruct (resolve_horizontal_frame oldX s wl) as (Hy & Hvy & _).
    now repeat split.
  - apply collide_wall_horizontal; [assumption|]. now apply eqb_not_ltb.
Qed.

Lemma collide_wall_axis_choice_witness :
  has_intersection_positive_extent (player start_world_right_held) floor_tile = true /\
  let s' := collide_wall has_intersection_positive_extent F32.f380 F32.f520
              start_world_right_held floor_tile in
  let mv := minVert (player start_world_right_held) floor_tile in
  let mh := minHoriz (player start_world_right_held) floor_tile in
  (F32.ltb mv mh = true ->
     s' = resolve_vertical F32.f520 start_world_right_held floor_tile /\
     x (player s') = x (player start_world_right_held) /\ vx s' = vx start_world_right_held) /\
  (F32.ltb mv mh = false ->
     s' = resolve_horizontal F32.f380 start_world_right_held floor_tile /\
     y (player s') = y (player start_world_right_held) /\ vy s' = vy start_world_right_held) /\
  (F32.eqb mv mh = true -> s' = resolve_horizontal F32.f380 start_world_right_held floor_tile).
Proof.
  split; [reflexivity|].
  apply (collide_wall_axis_choice has_intersection_positive_extent F32.f380 F32.f520
           start_world_right_held floor_tile).
  reflexivity.
Defined.

(** C2: against an intersected wall whose vertical penetration is strictly
    the smaller one, a player that moved down this frame is put on top of the
    wall ([y = wallTop - h]) with [vy = 0], and a player that moved up is put
    under it ([y = wallBottom]) with [vy = 0]. *)
Theorem vertical_resolution_snaps
  (hasInt : SDL_FRect -> SDL_FRect -> bool) (oldX oldY : float) (s : World) (wl : SDL_FRect) :
  hasInt (player s) wl = true ->
  F32.ltb (minVert (player s) wl) (minHoriz (player s) wl) = true ->
  let s' := collide_wall hasInt oldX oldY s wl in
  (F32.gtb (y (player s)) oldY = true ->
     y (player s') = F32.sub (y wl) (h (player s)) /\ vy s' = F32.zero) /\
  (F32.ltb (y (player s)) oldY = true ->
     y (player s') = F32.add (y wl) (h wl) /\ vy s' = F32.zero).
Proof.
  intros Hi Hlt s'. subst s'.
  rewrite collide_wall_vertical by assumption. unfold resolve_vertical.
  split; intros Hm.
  - rewrite Hm. split; reflexivity.
  - rewrite (ltb_not_gtb _ _ Hm), Hm. split; reflexivity.
Qed.

Lemma vertical_resolution_snaps_witness :
  let s' := collide_wall has_intersection_positive_extent (F32.of_Z 220) F32.f380
              falling_world platform in
  y (player s') = F32.f380 /\ vy s' = F32.zero.
Proof.
  apply (vertical_resolution_snaps has_intersection_positive_extent (F32.of_Z 220) F32.f380
           falling_world platform); reflexivity.
Defined.

(** C3 as stated: when the position did not change along the resolved axis,
    resolving the wall changes nothing.  It fails on the horizontal axis,
    where line 207 assigns [vx = 0.f] whether or not the player moved. *)
Lemma still_player_not_noop :
  ~ (forall (hasInt : SDL_FRect -> SDL_FRect -> bool) (oldX oldY : float) (s : World)
            (wl : SDL_FRect),
        hasInt (player s) wl = true ->
        (F32.ltb (minVert (player s) wl) (minHoriz (player s) wl) = true /\
           F32.eqb (y (player s)) oldY = true) \/
        (F32.ltb (minVert (player s) wl) (minHoriz (player s) wl) = false /\
           F32.eqb (x (player s)) oldX = true) ->
        collide_wall hasInt oldX oldY s wl = s).
Proof.
  intros H.
  specialize (H has_intersection_positive_extent F32.f380 F32.f520
                start_world_right_held floor_tile eq_refl (or_intror (conj eq_refl eq_refl))).
  apply (f_equal vx) in H. vm_compute in H. discriminate H.
Qed.

(** C3, amended: when the position did not change along the resolved axis,
    resolving the wall leaves the position and [vy] unchanged; on the
    vertical axis it changes nothing at all, on the horizontal axis it sets
    [vx] to 0 and changes nothing else. *)
Theorem still_player_resolution
  (hasInt : SDL_FRect -> SDL_FRect -> bool) (oldX oldY : float) (s : World) (wl : SDL_FRect) :
  hasInt (player s) wl = true ->
  let s' := collide_wall hasInt oldX oldY s wl in
  (F32.ltb (minVert (player s) wl) (minHoriz (player s) wl) = true ->
     F32.eqb (y (player s)) oldY = true -> s' = s) /\
  (F32.ltb (minVert (player s) wl) (minHoriz (player s) wl) = false ->
     F32.eqb (x (player s)) oldX = true ->
     s' = set_vx F32.zero s /\ player s' = player s /\ vy s' = vy s /\ vx s' = F32.zero).
Proof.
  intros Hi s'. subst s'. split; intros Hax Heq.
  - rewrite collide_wall_vertical by assumption. unfold resolve_vertical.
    now rewrite (eqb_not_gtb _ _ Heq), (eqb_not_ltb _ _ Heq).
  - rewrite collide_wall_horizontal by assumption. unfold resolve_horizontal.
    rewrite (eqb_not_gtb _ _ Heq), (eqb_not_ltb _ _ Heq). now repeat split.
Qed.

Lemma still_player_resolution_witness :
  let s' := collide_wall has_intersection_positive_extent F32.f380 F32.f520
              start_world_right_held floor_tile in
  s' = set_vx F32.zero start_world_right_held /\
  player s' = player start_world_right_held /\
  vy s' = vy start_world_right_held /\ vx s' = F32.zero.
Proof.
  apply (still_player_resolution has_intersection_positive_extent F32.f380 F32.f520
           start_world_right_held floor_tile); reflexivity.
Defined.

(** ** Events and the gravity flip *)

Lemma is_flip_event_inv (e : SDL_Event) :
  is_flip_event e = true ->
  type e = SDL_EVENT_KEY_DOWN /\ key e = SDLK_SPACE /\ down e = true.
Proof.
  unfold is_flip_event. destruct (type e), (key e); try discriminate. auto.
Qed.

Lemma handle_flip_event (e : SDL_Event) (s : World) :
  is_flip_event e = true ->
  handle_event e s =
    let d := F32.mul (gravityDir s) F32.neg_one in
    let t := if F32.gtb d F32.zero then F32.zero else F32.f180 in
    cout_line (GravityFlipped (F32.gtb d F32.zero) t)
      (set_targetAngle t (set_vy F32.zero (set_gravityDir d s))).
Proof.
  intros He. destruct (is_flip_event_inv e He) as (Ht & Hk & Hd).
  unfold handle_event. rewrite Ht, Hk, Hd. reflexivity.
Qed.

Lemma handle_other_event_cout (e : SDL_Event) (s : World) :
  is_flip_event e = false -> cout (handle_event e s) = cout s.
Proof.
  unfold is_flip_event, handle_event.
  destruct (type e), (key e), (down e); intros H; try discriminate H; reflexivity.
Qed.

Lemma flips_of_poll_events (evs : list SDL_Event) (s : World) :
  flips_between s (poll_events evs s) = Z.of_nat (length (filter is_flip_event evs)).
Proof.
  unfold flips_between, poll_events. revert s.
  induction evs as [|e evs IH]; intros s; simpl.
  - lia.
  - specialize (IH (handle_event e s)).
    destruct (is_flip_event e) eqn:He.
    + rewrite handle_flip_event in IH by assumption. simpl in IH.
      rewrite handle_flip_event by assumption. simpl length. lia.
    + rewrite handle_other_event_cout in IH by assumption. lia.
Qed.

Lemma filter_flip_repeat (n : nat) :
  filter is_flip_event (repeat (space_down true) n) = repeat (space_down true) n.
Proof. induction n as [|n IH]; simpl; [reflexivity | now rewrite IH]. Qed.

Lemma press_held_flips (n : nat) (s : World) :
  flips_between s (poll_events (press_held n) s) = 1 + Z.of_nat n.
Proof.
  rewrite flips_of_poll_events. unfold press_held. simpl filter.
  rewrite filter_flip_repeat. simpl length. rewrite repeat_length. lia.
Qed.

(** C4 at the failing input: one press of the flip key that is held for one
    auto-repeat period delivers two key-down events before its release, and
    the loop flips gravity twice, which leaves gravity pointing down as it
    did before the press. *)
Theorem held_flip_key_flips_twice :
  let s0 := initial_world [] 0 true true true in
  let s1 := poll_events (press_held 1) s0 in
  press_held 1 = [space_down false; space_down true] /\
  flips_between s0 s1 = 2 /\
  gravityDir s1 = gravityDir s0 /\
  cout s1 = [GravityFlipped true F32.zero; GravityFlipped false F32.f180].
Proof. repeat split. Qed.

Lemma flip_dir_one : F32.mul F32.one F32.neg_one = F32.neg_one.
Proof. reflexivity. Qed.

Lemma flip_dir_neg_one : F32.mul F32.neg_one F32.neg_one = F32.one.
Proof. reflexivity. Qed.

Lemma handle_event_dir_ok (e : SDL_Event) (s : World) : dir_ok s -> dir_ok (handle_event e s).
Proof.
  intros Hd. destruct (is_flip_event e) eqn:He.
  - rewrite handle_flip_event by assumption. unfold dir_ok in *. simpl.
    destruct Hd as [-> | ->]; [right | left]; reflexivity.
  - unfold is_flip_event in He. unfold handle_event, dir_ok in *.
    destruct (type e), (key e), (down e); try discriminate He; exact Hd.
Qed.

Lemma poll_events_dir_ok (evs : list SDL_Event) (s : World) :
  dir_ok s -> dir_ok (poll_events evs s).
Proof.
  unfold poll_events. revert s.
  induction evs as [|e evs IH]; intros s Hd; simpl; [exact Hd|].
  apply IH. now apply handle_event_dir_ok.
Qed.

(** C5: a flip event negates [dir] (which stays one of +1 and -1, so over
    any number of flips it alternates), sets [targetAngle] to 0 when the new
    [dir] is +1 and to 180 when it is -1, and sets [vy] to 0. *)
Theorem flip_transition (s : World) (e : SDL_Event) :
  dir_ok s ->
  is_flip_event e = true ->
  let s' := handle_event e s in
  gravityDir s' = SFopp (gravityDir s) /\
  dir_ok s' /\
  (gravityDir s' = F32.one -> targetAngle s' = F32.zero) /\
  (gravityDir s' = F32.neg_one -> targetAngle s' = F32.f180) /\
  vy s' = F32.zero /\
  (forall n : nat,
      gravityDir (poll_events (repeat e n) s) =
        if Nat.even n then gravityDir s else SFopp (gravityDir s)).
Proof.
  intros Hd He s'. subst s'.
  assert (Hstep : forall t, dir_ok t ->
            gravityDir (handle_event e t) = SFopp (gravityDir t) /\
            targetAngle (handle_event e t) =
              (if F32.gtb (gravityDir (handle_event e t)) F32.zero then F32.zero else F32.f180) /\
            vy (handle_event e t) = F32.zero).
  { intros t Ht. rewrite handle_flip_event by assumption. simpl.
    destruct Ht as [-> | ->]; repeat split. }
  destruct (Hstep s Hd) as (Hneg & Htgt & Hvy).
  split; [exact Hneg|].
  split; [now apply handle_event_dir_ok|].
  split; [intros H1; rewrite Htgt, H1; reflexivity|].
  split; [intros H1; rewrite Htgt, H1; reflexivity|].
  split; [exact Hvy|].
  assert (Hinv : forall t, dir_ok t -> SFopp (SFopp (gravityDir t)) = gravityDir t).
  { intros t [-> | ->]; reflexivity. }
  intros n. revert s Hd Hneg Htgt Hvy.
  induction n as [n IH] using (well_founded_induction Wf_nat.lt_wf).
  intros s Hd _ _ _.
  destruct n as [|[|n]]; [reflexivity| |].
  - simpl. unfold poll_events. simpl. apply (Hstep s Hd).
  - change (repeat e (S (S n))) with (e :: e :: repeat e n).
    unfold poll_events. simpl fold_left.
    fold (poll_events (repeat e n) (handle_event e (handle_event e s))).
    assert (Hd2 : dir_ok (handle_event e (handle_event e s)))
      by (do 2 apply handle_event_dir_ok; exact Hd).
    rewrite (IH n) by (try lia; try exact Hd2; apply (Hstep _ Hd2)).
    assert (E : gravityDir (handle_event e (handle_event e s)) = gravityDir s).
    { destruct (Hstep _ (handle_event_dir_ok e s Hd)) as (-> & _).
      destruct (Hstep s Hd) as (-> & _). now apply Hinv. }
    rewrite E. reflexivity.
Qed.

Lemma flip_transition_witness :
  let s' := handle_event (space_down false) falling_world in
  gravityDir s' = F32.neg_one /\
  dir_ok s' /\
  (gravityDir s' = F32.one -> targetAngle s' = F32.zero) /\
  (gravityDir s' = F32.neg_one -> targetAngle s' = F32.f180) /\
  vy s' = F32.zero /\
  (forall n : nat,
      gravityDir (poll_events (repeat (space_down false) n) falling_world) =
        if Nat.even n then gravityDir falling_world else SFopp (gravityDir falling_world)).
Proof.
  apply (flip_transition falling_world (space_down false)); [left|]; reflexivity.
Defined.

(** ** Clock *)

Lemma handle_event_lastTicks (e : SDL_Event) (s : World) :
  lastTicks (handle_event e s) = lastTicks s.
Proof.
  unfold handle_event. destruct (type e), (key e), (down e); reflexivity.
Qed.

Lemma poll_events_lastTicks (evs : list SDL_Event) (s : World) :
  lastTicks (poll_events evs s) = lastTicks s.
Proof.
  unfold poll_events. revert s.
  induction evs as [|e evs IH]; intros s; simpl; [reflexivity|].
  now rewrite IH, handle_event_lastTicks.
Qed.

Lemma collide_wall_gen_untouched hasInt b oldX oldY s wl :
  let s' := collide_wall_gen hasInt b oldX oldY s wl in
  lastTicks s' = lastTicks s /\ walls s' = walls s /\ running s' = running s /\
  gravityDir s' = gravityDir s /\ playerAngle s' = playerAngle s /\
  targetAngle s' = targetAngle s /\ cout s' = cout s /\
  w (player s') = w (player s) /\ h (player s') = h (player s).
Proof.
  unfold collide_wall_gen.
  destruct (hasInt (player s) wl); [|now repeat split].
  destruct (F32.ltb (minVert (player s) wl) (minHoriz (player s) wl)).
  - destruct (F32.gtb (y (player s)) oldY); [now repeat split|].
    destruct (F32.ltb (y (player s)) oldY); now repeat split.
  - destruct (F32.gtb (x (player s)) oldX); [destruct b; now repeat split|].
    destruct (F32.ltb (x (player s)) oldX); destruct b; now repeat split.
Qed.

Lemma fold_collide_untouched hasInt b oldX oldY ws s :
  let s' := fold_left (collide_wall_gen hasInt b oldX oldY) ws s in
  lastTicks s' = lastTicks s /\ walls s' = walls s /\ running s' = running s /\
  gravityDir s' = gravityDir s /\ playerAngle s' = playerAngle s /\
  targetAngle s' = targetAngle s /\ cout s' = cout s /\
  w (player s') = w (player s) /\ h (player s') = h (player s).
Proof.
  revert s. induction ws as [|wl ws IH]; intros s; simpl; [now repeat split|].
  specialize (IH (collide_wall_gen hasInt b oldX oldY s wl)). simpl in IH.
  pose proof (collide_wall_gen_untouched hasInt b oldX oldY s wl) as H. simpl in H.
  destruct IH as (-> & -> & -> & -> & -> & -> & -> & -> & ->). exact H.
Qed.

Lemma update_gen_untouched hasInt b dt s :
  let s' := update_gen hasInt b dt s in
  lastTicks s' = lastTicks s /\ walls s' = walls s /\ running s' = running s /\
  gravityDir s' = gravityDir s /\ targetAngle s' = targetAngle s /\
  playerAngle s' = animate (playerAngle s) (targetAngle s) dt /\
  cout s' = cout s /\ w (player s') = w (player s) /\ h (player s') = h (player s).
Proof.
  unfold update_gen, collision_handling_gen, move, apply_gravity, animate_rotation. simpl.
  match goal with
  | |- context [fold_left ?f ?l ?a] =>
      pose proof (fold_collide_untouched hasInt b
                    (x (player s)) (y (player s)) l a) as H
  end.
  simpl in H. destruct H as (H1 & H2 & H3 & H4 & H5 & H6 & H7 & H8 & H9).
  unfold clamp_screen.
  repeat match goal with
         | |- context [if ?c then _ else _] => destruct c
         end; simpl; now repeat split.
Qed.

(** ** The assignment [vx = 0.f] of the horizontal branch *)

Ltac same_fields H :=
  repeat match goal with s : World |- _ => destruct s end;
  simpl in H; injection H as; subst; simpl.

Ltac split_ifs :=
  repeat match goal with
         | |- context [if ?c then _ else _] => destruct c
         end.

Lemma handle_event_set_vx (e : SDL_Event) (v : float) (s : World) :
  handle_event e (set_vx v s) = set_vx v (handle_event e s).
Proof.
  unfold handle_event. destruct (type e), (key e), (down e); reflexivity.
Qed.

Lemma poll_events_set_vx (evs : list SDL_Event) (v : float) (s : World) :
  poll_events evs (set_vx v s) = set_vx v (poll_events evs s).
Proof.
  unfold poll_events. revert s.
  induction evs as [|e evs IH]; intros s; simpl; [reflexivity|].
  now rewrite handle_event_set_vx, IH.
Qed.

Lemma set_vx_forget (v : float) (s : World) : set_vx v (forget_vx s) = set_vx v s.
Proof. reflexivity. Qed.

Lemma collide_wall_forget_vx hasInt oldX oldY s1 s2 wl :
  forget_vx s1 = forget_vx s2 ->
  forget_vx (collide_wall_gen hasInt true oldX oldY s1 wl) =
  forget_vx (collide_wall_gen hasInt false oldX oldY s2 wl).
Proof.
  intros H. unfold forget_vx, set_vx in H. same_fields H.
  unfold collide_wall_gen, forget_vx. simpl. split_ifs; reflexivity.
Qed.

Lemma fold_collide_forget_vx hasInt oldX oldY ws s1 s2 :
  forget_vx s1 = forget_vx s2 ->
  forget_vx (fold_left (collide_wall_gen hasInt true oldX oldY) ws s1) =
  forget_vx (fold_left (collide_wall_gen hasInt false oldX oldY) ws s2).
Proof.
  revert s1 s2. induction ws as [|wl ws IH]; intros s1 s2 H; simpl; [exact H|].
  apply IH. now apply collide_wall_forget_vx.
Qed.

Lemma forget_vx_fields (s1 s2 : World) :
  forget_vx s1 = forget_vx s2 ->
  player s1 = player s2 /\ walls s1 = walls s2 /\ running s1 = running s2.
Proof.
  intros H. unfold forget_vx, set_vx in H. same_fields H. now repeat split.
Qed.

Lemma clamp_forget_vx (a1 a2 : World) :
  forget_vx a1 = forget_vx a2 ->
  forget_vx (set_player (clamp_screen (player a1)) a1) =
  forget_vx (set_player (clamp_screen (player a2)) a2).
Proof.
  intros H. unfold forget_vx, set_vx in H. same_fields H. reflexivity.
Qed.

Lemma update_forget_vx hasInt dt s :
  forget_vx (update_gen hasInt true dt s) = forget_vx (update_gen hasInt false dt s).
Proof.
  unfold update_gen, collision_handling_gen.
  apply clamp_forget_vx. cbn [walls set_player].
  now apply fold_collide_forget_vx.
Qed.

Lemma frame_forget_vx hasInt i s1 s2 :
  forget_vx s1 = forget_vx s2 ->
  forget_vx (frame_gen hasInt true i s1) = forget_vx (frame_gen hasInt false i s2).
Proof.
  intros H. unfold frame_gen.
  assert (E : set_vx (keyboard_vx (kb i)) (poll_events (events i) s1) =
              set_vx (keyboard_vx (kb i)) (poll_events (events i) s2)).
  { rewrite <- (set_vx_forget _ (poll_events (events i) s1)),
            <- (set_vx_forget _ (poll_events (events i) s2)).
    unfold forget_vx. rewrite <- !poll_events_set_vx.
    fold (forget_vx s1). fold (forget_vx s2). now rewrite H. }
  rewrite E. apply update_forget_vx.
Qed.

Lemma run_forget_vx hasInt inputs s1 s2 :
  forget_vx s1 = forget_vx s2 ->
  map forget_vx (run_gen hasInt true inputs s1) = map forget_vx (run_gen hasInt false inputs s2).
Proof.
  revert s1 s2. induction inputs as [|i rest IH]; intros s1 s2 H; simpl; [reflexivity|].
  destruct (forget_vx_fields _ _ H) as (_ & _ & ->).
  destruct (running s2); [|reflexivity]. simpl.
  pose proof (frame_forget_vx hasInt i s1 s2 H) as Hf.
  rewrite Hf. f_equal. now apply IH.
Qed.

(** C9: the program and the variant that omits [vx = 0.f] in the horizontal
    branch produce, frame by frame, the same positions (indeed the same
    state but for [vx]), whatever the inputs: [vx] is assigned from the
    keyboard before it is next read. *)
Theorem vx_reset_unobservable
  (hasInt : SDL_FRect -> SDL_FRect -> bool) (inputs : list FrameInput) (s : World) :
  map position (run hasInt inputs s) = map position (run_gen hasInt false inputs s) /\
  map forget_vx (run hasInt inputs s) = map forget_vx (run_gen hasInt false inputs s).
Proof.
  assert (H : map forget_vx (run hasInt inputs s) = map forget_vx (run_gen hasInt false inputs s))
    by (apply run_forget_vx; reflexivity).
  split; [|exact H].
  apply (f_equal (map position)) in H. rewrite !map_map in H.
  exact H.
Qed.

(** ** Determinism of the simulation *)

Lemma physics_strip_env (s1 s2 : World) :
  physics s1 = physics s2 <-> strip_env s1 = strip_env s2.
Proof.
  unfold physics, strip_env. destruct s1, s2; simpl.
  split; intros H; injection H as; subst; reflexivity.
Qed.

Ltac strip_tac := intros; unfold strip_env;
  repeat match goal with s : World |- _ => destruct s end; simpl.

Lemma handle_event_strip (e : SDL_Event) (s : World) :
  strip_env (handle_event e s) = strip_env (handle_event e (strip_env s)).
Proof.
  strip_tac. unfold handle_event. destruct (type e), (key e), (down e); reflexivity.
Qed.

Lemma collide_wall_strip hasInt oldX oldY wl (s : World) :
  strip_env (collide_wall hasInt oldX oldY s wl) =
  strip_env (collide_wall hasInt oldX oldY (strip_env s) wl).
Proof.
  strip_tac. unfold collide_wall, collide_wall_gen. simpl. split_ifs; reflexivity.
Qed.

(** A fold of steps that each depend on the simulation state alone. *)
Lemma fold_strip {A : Type} (f : World -> A -> World) :
  (forall s a, strip_env (f s a) = strip_env (f (strip_env s) a)) ->
  forall l s, strip_env (fold_left f l s) = strip_env (fold_left f l (strip_env s)).
Proof.
  intros Hf l. induction l as [|a l IH]; intros s; simpl.
  - now destruct s.
  - rewrite IH, Hf, <- IH. reflexivity.
Qed.

Lemma poll_events_strip (evs : list SDL_Event) (s : World) :
  strip_env (poll_events evs s) = strip_env (poll_events evs (strip_env s)).
Proof.
  apply (fold_strip (fun st e => handle_event e st)).
  intros; apply handle_event_strip.
Qed.

Lemma finish_frame_strip hasInt (k : float) (now : Z) (s : World) :
  let rest a :=
    update hasInt (clamp_dt (raw_dt now (lastTicks a))) (set_lastTicks now (set_vx k a)) in
  strip_env (rest s) = strip_env (rest (strip_env s)).
Proof.
  cbv zeta. unfold update, update_gen, collision_handling_gen.
  set (dt := clamp_dt (raw_dt now (lastTicks s))).
  assert (E : clamp_dt (raw_dt now (lastTicks (strip_env s))) = dt) by reflexivity.
  rewrite E. clearbody dt. clear E.
  set (pre a := move dt (apply_gravity dt (animate_rotation dt (set_lastTicks now (set_vx k a))))).
  assert (Hpre : pre (strip_env s) = strip_env (pre s)) by (subst pre; now strip_tac).
  assert (Hold : forall a, x (player (apply_gravity dt (animate_rotation dt a))) = x (player a) /\
                           y (player (apply_gravity dt (animate_rotation dt a))) = y (player a))
    by (intros a; split; reflexivity).
  destruct (Hold (set_lastTicks now (set_vx k s))) as (-> & ->).
  destruct (Hold (set_lastTicks now (set_vx k (strip_env s)))) as (-> & ->).
  fold (pre s). fold (pre (strip_env s)). rewrite Hpre.
  cbn [player set_lastTicks set_vx strip_env].
  generalize (x (player s)) (y (player s)). intros oldX oldY.
  assert (Hw : walls (strip_env (pre s)) = walls (pre s)) by reflexivity.
  rewrite Hw.
  pose proof (fold_strip (collide_wall_gen hasInt true oldX oldY)
                (fun a wl => collide_wall_strip hasInt oldX oldY wl a) (walls (pre s)) (pre s))
    as Hf.
  generalize dependent (fold_left (collide_wall_gen hasInt true oldX oldY) (walls (pre s))
                          (strip_env (pre s))).
  generalize (fold_left (collide_wall_gen hasInt true oldX oldY) (walls (pre s)) (pre s)).
  intros a b Hab. unfold strip_env in *.
  destruct a, b; simpl in *. injection Hab as; subst. reflexivity.
Qed.

Lemma frame_strip hasInt (i : FrameInput) (s : World) :
  strip_env (frame hasInt i s) = strip_env (frame hasInt i (strip_env s)).
Proof.
  unfold frame, frame_gen.
  pose proof (finish_frame_strip hasInt (keyboard_vx (kb i)) (nowTicks i)) as H.
  cbv zeta in H. unfold update in H.
  cbn [lastTicks set_vx].
  rewrite (H (poll_events (events i) s)).
  rewrite (H (poll_events (events i) (strip_env s))).
  now rewrite poll_events_strip.
Qed.

Lemma frame_physics hasInt (i : FrameInput) (s1 s2 : World) :
  physics s1 = physics s2 -> physics (frame hasInt i s1) = physics (frame hasInt i s2).
Proof.
  rewrite !physics_strip_env. intros H.
  now rewrite frame_strip, H, <- frame_strip.
Qed.

Lemma poll_events_walls (evs : list SDL_Event) (s : World) :
  walls (poll_events evs s) = walls s.
Proof.
  unfold poll_events. revert s. induction evs as [|e evs IH]; intros s; simpl.
  - reflexivity.
  - rewrite IH. unfold handle_event. destruct (type e), (key e), (down e); reflexivity.
Qed.

Lemma frame_walls hasInt (i : FrameInput) (s : World) : walls (frame hasInt i s) = walls s.
Proof.
  unfold frame, frame_gen.
  match goal with
  | |- walls (update_gen ?f ?b ?d ?t) = _ =>
      destruct (update_gen_untouched f b d t) as (_ & -> & _)
  end.
  cbn [walls set_lastTicks set_vx]. apply poll_events_walls.
Qed.

(** C10: the simulation is a function of the simulation state and of the
    frame inputs alone: two runs that start from the same simulation state
    and receive the same events, keyboard states and tick values agree on
    position, velocities, gravity direction and angles at every frame
    (whatever textures were loaded and whatever was written before), and
    the wall list of every frame is the one the loop started with. *)
Theorem run_deterministic
  (hasInt : SDL_FRect -> SDL_FRect -> bool) (inputs : list FrameInput) (s1 s2 : World) :
  physics s1 = physics s2 ->
  map physics (run hasInt inputs s1) = map physics (run hasInt inputs s2) /\
  Forall (fun s' => walls s' = walls s1) (run hasInt inputs s1).
Proof.
  revert s1 s2. induction inputs as [|i rest IH]; intros s1 s2 H.
  - split; [reflexivity | constructor].
  - assert (Hr : running s1 = running s2).
    { unfold physics in H. now injection H as. }
    unfold run in *. simpl. rewrite <- Hr.
    destruct (running s1); [|split; [reflexivity | constructor]].
    pose proof (frame_physics hasInt i s1 s2 H) as Hf. unfold frame in Hf.
    destruct (IH _ _ Hf) as (Hm & Hw).
    split.
    + simpl. now rewrite Hf, Hm.
    + constructor; [apply frame_walls|].
      rewrite Forall_forall in *. intros s' Hin.
      rewrite (Hw s' Hin). apply frame_walls.
Qed.

Lemma run_deterministic_witness :
  let inputs :=
    [mkInput [space_down false] (mkKeyboard false false true false) 16;
     mkInput [] (mkKeyboard true false false false) 33] in
  let s1 := initial_world [floor_tile; platform] 0 true true true in
  let s2 := cout_line (GravityFlipped true F32.zero)
              (initial_world [floor_tile; platform] 0 false false false) in
  map physics (run has_intersection_positive_extent inputs s1) =
  map physics (run has_intersection_positive_extent inputs s2) /\
  Forall (fun s' => walls s' = walls s1) (run has_intersection_positive_extent inputs s1).
Proof.
  apply (run_deterministic has_intersection_positive_extent). reflexivity.
Defined.

(** ** Invariants: finite values, the clock, the rotation and the screen clamp *)

Lemma fin_real (a : float) : fin a -> real a.
Proof. intros (Hv & Hf). split; [exact Hv|]. destruct a; try discriminate; reflexivity. Qed.

Lemma rounded_real (num den : Z) (r : float) : rounded num den r -> real r.
Proof. intros (Hv & Hn & _). now split. Qed.

Lemma real_cases (a : float) :
  real a -> fin a \/ a = S754_infinity false \/ a = S754_infinity true.
Proof.
  intros (Hv & Hn). destruct a as [s|[]| |s m e]; try discriminate; auto;
    left; split; auto.
Qed.

Lemma SFcompare_some (a b : float) :
  F32.is_nan a = false -> F32.is_nan b = false -> SFcompare a b <> None.
Proof.
  destruct a as [sa|sa| |sa ma ea], b as [sb|sb| |sb mb eb]; simpl; intros; try discriminate.
Qed.

Lemma not_ltb_leb (a b : float) :
  F32.is_nan a = false -> F32.is_nan b = false -> F32.ltb b a = false -> SFleb a b = true.
Proof.
  intros Ha Hb. unfold F32.ltb, SFltb, SFleb.
  pose proof (SFcompare_some b a Hb Ha) as Hs.
  rewrite (SFcompare_antisym b a).
  destruct (SFcompare b a) as [[]|]; simpl; congruence.
Qed.

Ltac closed_Z := apply Z.leb_le; vm_compute; reflexivity.

Lemma leb_finite_inv (a g : float) :
  real a -> fin g -> SFleb a g = true -> fin a \/ a = S754_infinity true.
Proof.
  intros Ha (_ & Hg) Hle. destruct (real_cases a Ha) as [H | [-> | ->]]; auto.
  destruct g; try discriminate Hg; discriminate Hle.
Qed.

Lemma geb_finite_inv (a g : float) :
  real a -> fin g -> SFleb g a = true -> fin a \/ a = S754_infinity false.
Proof.
  intros Ha (_ & Hg) Hle. destruct (real_cases a Ha) as [H | [-> | ->]]; auto.
  destruct g; try discriminate Hg; discriminate Hle.
Qed.

Lemma between_fin (a lo hi : float) :
  real a -> fin lo -> fin hi -> SFleb lo a = true -> SFleb a hi = true ->
  fin a /\ scaled lo <= scaled a <= scaled hi.
Proof.
  intros Ha Hlo Hhi H1 H2.
  destruct (leb_finite_inv a hi Ha Hhi H2) as [Hf | ->];
    [|destruct lo, Hlo as (_ & Hl); try discriminate Hl; discriminate H1].
  split; [exact Hf|].
  destruct Hf as (Va & Fa), Hlo as (Vl & Fl), Hhi as (Vh & Fh).
  apply SFleb_scaled in H1; try assumption. apply SFleb_scaled in H2; try assumption. lia.
Qed.

Lemma of_Z_range (n : Z) :
  1 <= n < 2 ^ 64 ->
  exists m e, F32.of_Z n = S754_finite false m e /\
              bounded F32.prec F32.emax m e = true /\ 2 ^ 23 <= Z.pos m /\ -23 <= e.
Proof.
  intros Hn. pose proof (of_Z_rounded n) as Hr. fold (F32.of_Z n) in Hr.
  pose proof (rounded_real _ _ _ Hr) as Hreal.
  destruct Hr as (_ & _ & Hc).
  assert (F1 : fin F32.one) by (split; reflexivity).
  assert (F2 : fin f2p64) by (split; reflexivity).
  destruct (Hc F32.one (proj1 F1) (proj2 F1)) as (Hlo & _).
  destruct (Hc f2p64 (proj1 F2) (proj2 F2)) as (_ & Hhi).
  assert (S1 : scaled F32.one = 2 ^ 149) by reflexivity.
  assert (S2 : scaled f2p64 = 2 ^ 64 * 2 ^ 149) by reflexivity.
  assert (HP : 0 < 2 ^ 149) by (apply pow2_pos; lia).
  rewrite S1 in Hlo. rewrite S2 in Hhi.
  set (P := 2 ^ 149) in *. set (c := 2 ^ 64) in *.
  specialize (Hlo ltac:(nia)). specialize (Hhi ltac:(nia)).
  destruct (between_fin _ _ _ Hreal F1 F2 Hlo Hhi) as ((Hv & Hf) & Hs & _).
  rewrite S1 in Hs. fold P in Hs.
  destruct (F32.of_Z n) as [s| | |s m e]; try discriminate Hf.
  - simpl in Hs. lia.
  - unfold F32.valid, valid_binary in Hv.
    destruct (bounded_inv _ _ Hv) as (He & Hm & Hnorm).
    pose proof (scaled_pos m e ltac:(lia)) as Hpos.
    destruct s; unfold scaled, cond_Zopp in Hs; [lia|].
    exists m, e. split; [reflexivity|]. split; [exact Hv|].
    assert (He' : -23 <= e).
    { destruct (Z.le_gt_cases (-23) e) as [|Hlt]; [assumption|exfalso].
      assert (2 ^ (e + 149) <= 2 ^ 125) by (apply pow2_le; lia).
      assert (2 ^ 24 * 2 ^ 125 = P) by reflexivity.
      set (Q := 2 ^ (e + 149)) in *. set (d := 2 ^ 24) in *. set (k := 2 ^ 125) in *.
      assert (0 < k) by (apply pow2_pos; lia). nia. }
    split; [lia | exact He'].
Qed.

Lemma clock_dt_clamp (now last : Z) : clock_dt (clamp_dt (raw_dt now last)).
Proof.
  unfold raw_dt.
  pose proof (Z.mod_pos_bound (now - last) uint64_modulus ltac:(reflexivity)) as Hn.
  set (n := (now - last) mod uint64_modulus) in *.
  destruct (Z.eq_dec n 0) as [-> | Hn0]; [left; reflexivity|].
  destruct (of_Z_range n ltac:(unfold uint64_modulus in Hn; lia)) as (m & e & -> & Hv & Hm & He).
  assert (V1000 : bounded F32.prec F32.emax 16384000 (-14) = true) by reflexivity.
  pose proof (div_rounded m 16384000 e (-14) Hv V1000 Hm ltac:(closed_Z) ltac:(lia)) as Hr.
  change (S754_finite false 16384000 (-14)) with F32.f1000 in Hr.
  fold (F32.div (S754_finite false m e) F32.f1000) in Hr.
  set (raw := F32.div (S754_finite false m e) F32.f1000) in *.
  pose proof (rounded_real _ _ _ Hr) as Hreal.
  assert (F1 : fin f2m10) by (split; reflexivity).
  assert (F2 : fin F32.f0_05) by (split; reflexivity).
  destruct Hr as (_ & _ & Hc).
  destruct (Hc f2m10 (proj1 F1) (proj2 F1)) as (Hlo & _).
  assert (Hlo' : SFleb f2m10 raw = true).
  { apply Hlo.
    destruct (bounded_inv _ _ Hv) as (He2 & _).
    assert (S1 : scaled f2m10 * scaled F32.f1000 = 1000 * 2 ^ 139 * 2 ^ 149) by reflexivity.
    rewrite S1. unfold scaled, cond_Zopp.
    assert (2 ^ 126 <= 2 ^ (e + 149)) by (apply pow2_le; lia).
    assert (1000 * 2 ^ 139 <= 2 ^ 23 * 2 ^ 126) by closed_Z.
    assert (0 < 2 ^ 149) by (apply pow2_pos; lia).
    set (P := 2 ^ 149) in *. set (Q := 2 ^ (e + 149)) in *.
    set (c := 2 ^ 23) in *. set (k := 2 ^ 126) in *. set (u := 1000 * 2 ^ 139) in *.
    assert (0 < c) by (apply pow2_pos; lia).
    assert (u <= Z.pos m * Q) by nia. nia. }
  unfold clamp_dt. destruct (F32.gtb raw F32.f0_05) eqn:Hg.
  - right. split; [exact F2|]. split; [closed_Z | lia].
  - right.
    assert (Hhi : SFleb raw F32.f0_05 = true).
    { apply not_ltb_leb; [apply Hreal | reflexivity | exact Hg]. }
    destruct (between_fin _ _ _ Hreal F1 F2 Hlo' Hhi) as (Hf & Hs).
    split; [exact Hf|]. change (scaled f2m10) with (2 ^ 139) in Hs. exact Hs.
Qed.

(** The rotation step [angleSpeed * dt] of a frame with a positive delta time. *)
Lemma rotation_step (dt : float) :
  fin dt -> 2 ^ 139 <= scaled dt <= scaled F32.f0_05 ->
  fin (F32.mul angleSpeed dt) /\ 2 ^ 148 <= scaled (F32.mul angleSpeed dt).
Proof.
  intros Hf Hs.
  assert (F720 : fin angleSpeed) by (split; reflexivity).
  pose proof (mul_rounded angleSpeed dt (proj1 F720) (proj1 Hf) (proj2 F720) (proj2 Hf)) as Hr.
  fold (F32.mul angleSpeed dt) in Hr. set (step := F32.mul angleSpeed dt) in *.
  pose proof (rounded_real _ _ _ Hr) as Hreal.
  assert (F1 : fin f0_5) by (split; reflexivity).
  assert (F2 : fin F32.f64) by (split; reflexivity).
  destruct Hr as (_ & _ & Hc).
  destruct (Hc f0_5 (proj1 F1) (proj2 F1)) as (Hlo & _).
  destruct (Hc F32.f64 (proj1 F2) (proj2 F2)) as (_ & Hhi).
  assert (S720 : scaled angleSpeed = 720 * 2 ^ 149) by reflexivity.
  assert (S05 : scaled f0_5 = 2 ^ 148) by reflexivity.
  assert (S64 : scaled F32.f64 = 64 * 2 ^ 149) by reflexivity.
  assert (Sdt : scaled F32.f0_05 = 13421773 * 2 ^ 121) by reflexivity.
  assert (E1 : 2 ^ 148 = 512 * 2 ^ 139) by reflexivity.
  assert (E2 : 2 ^ 149 = 268435456 * 2 ^ 121) by reflexivity.
  assert (HP : 0 < 2 ^ 149) by (apply pow2_pos; lia).
  assert (HQ : 0 < 2 ^ 139) by (apply pow2_pos; lia).
  assert (HR : 0 < 2 ^ 121) by (apply pow2_pos; lia).
  rewrite S720, S05 in Hlo. rewrite S720, S64 in Hhi. rewrite Sdt in Hs.
  assert (Hlo' : SFleb f0_5 step = true).
  { apply Hlo. rewrite E1.
    set (P := 2 ^ 149) in *. set (Q := 2 ^ 139) in *. nia. }
  assert (Hhi' : SFleb step F32.f64 = true).
  { apply Hhi. rewrite E2 at 2.
    set (P := 2 ^ 149) in *. set (R := 2 ^ 121) in *. nia. }
  destruct (between_fin _ _ _ Hreal F1 F2 Hlo' Hhi') as (Hfs & Hss & _).
  split; [exact Hfs|]. now rewrite S05 in Hss.
Qed.

Lemma next_float (m : positive) (e : Z) :
  bounded F32.prec F32.emax m e = true -> e < 104 ->
  exists g, fin g /\ scaled g = Z.pos m * 2 ^ (e + 149) + 2 ^ (e + 149).
Proof.
  intros Hv He. destruct (bounded_inv _ _ Hv) as (He' & Hm & Hn).
  destruct (Z.eq_dec (Z.pos m + 1) (2 ^ 24)) as [Heq | Hne].
  - exists (S754_finite false 8388608 (e + 1)). split.
    + split; [|reflexivity]. apply bounded_intro; [lia | reflexivity | left; reflexivity].
    + unfold scaled, cond_Zopp.
      replace (e + 1 + 149) with (1 + (e + 149)) by lia.
      rewrite (pow2_split 1 (e + 149)) by lia.
      change (2 ^ 24) with (8388608 * 2 ^ 1) in Heq. change (2 ^ 1) with 2 in *.
      nia.
  - exists (S754_finite false (m + 1) e). split.
    + split; [|reflexivity]. apply bounded_intro; [lia | rewrite Pos2Z.inj_add; lia |].
      rewrite Pos2Z.inj_add. lia.
    + unfold scaled, cond_Zopp. rewrite Pos2Z.inj_add. ring.
Qed.

Lemma prev_float (m : positive) (e : Z) :
  bounded F32.prec F32.emax m e = true ->
  exists g, fin g /\
            Z.pos m * 2 ^ (e + 149) - 2 ^ (e + 149) <= scaled g < Z.pos m * 2 ^ (e + 149).
Proof.
  intros Hv. destruct (bounded_inv _ _ Hv) as (He & Hm & Hn).
  pose proof (pow2_pos (e + 149) ltac:(lia)) as HP.
  destruct (Z.eq_dec (Z.pos m) 1) as [H1 | H1].
  - exists (S754_zero false). split; [split; reflexivity|].
    rewrite H1. simpl scaled. lia.
  - destruct (Z.eq_dec (Z.pos m) (2 ^ 23)) as [H23 | H23].
    + destruct (Z.eq_dec e (-149)) as [He0 | He0].
      * exists (S754_finite false (Pos.pred m) e). 
        assert (Hp : Z.pos (Pos.pred m) = Z.pos m - 1) by (rewrite Pos2Z.inj_pred; lia).
        split.
        -- split; [|reflexivity]. apply bounded_intro; [lia | lia | right; exact He0].
        -- unfold scaled, cond_Zopp. rewrite Hp. nia.
      * exists (S754_finite false 16777215 (e - 1)). split.
        -- split; [|reflexivity].
           apply bounded_intro; [lia | reflexivity | left; closed_Z].
        -- unfold scaled, cond_Zopp. rewrite H23.
           replace (e + 149) with (1 + (e - 1 + 149)) by lia.
           rewrite (pow2_split 1 (e - 1 + 149)) by lia. change (2 ^ 1) with 2.
           pose proof (pow2_pos (e - 1 + 149) ltac:(lia)).
           change (2 ^ 23) with 8388608. nia.
    + exists (S754_finite false (Pos.pred m) e).
      assert (Hp : Z.pos (Pos.pred m) = Z.pos m - 1) by (rewrite Pos2Z.inj_pred; lia).
      split.
      * split; [|reflexivity]. apply bounded_intro; [lia | lia | lia].
      * unfold scaled, cond_Zopp. rewrite Hp. nia.
Qed.

Lemma fin_zero : fin F32.zero.
Proof. split; reflexivity. Qed.

Lemma fin_f180 : fin F32.f180.
Proof. split; reflexivity. Qed.

Lemma angle_exponent (s : bool) (m : positive) (e : Z) :
  angle_ok (S754_finite s m e) -> s = false /\ e <= -16.
Proof.
  intros ((Hv & _) & Hlo & Hhi).
  unfold F32.valid, valid_binary in Hv. destruct (bounded_inv _ _ Hv) as (He & Hm & Hn).
  pose proof (scaled_pos m e ltac:(lia)) as Hp.
  change (scaled (S754_finite s m e)) with (cond_Zopp s (Z.pos m * 2 ^ (e + 149))) in *.
  destruct s; unfold cond_Zopp in *; [lia|].
  split; [reflexivity|].
  destruct (Z.le_gt_cases e (-16)) as [|Hgt]; [assumption|exfalso].
  assert (H1 : 2 ^ 134 <= 2 ^ (e + 149)) by (apply pow2_le; lia).
  assert (H2 : scaled F32.f180 < 2 ^ 23 * 2 ^ 134) by (apply Z.ltb_lt; vm_compute; reflexivity).
  assert (H3 : 2 ^ 23 <= Z.pos m) by lia.
  assert (0 < 2 ^ 23) by (apply pow2_pos; lia).
  set (P := 2 ^ (e + 149)) in *. set (c := 2 ^ 23) in *. set (k := 2 ^ 134) in *.
  set (u := scaled F32.f180) in *. nia.
Qed.

Lemma pow2_133_148 (e : Z) : -149 <= e <= -16 -> 2 ^ (e + 149) <= 2 ^ 148.
Proof. intros. apply pow2_le. lia. Qed.

Lemma ltb_scaled (a b : float) : fin a -> fin b -> (F32.ltb a b = true <-> scaled a < scaled b).
Proof. intros (Va & Fa) (Vb & Fb). now apply SFltb_scaled. Qed.

Lemma leb_scaled (a b : float) : fin a -> fin b -> (SFleb a b = true <-> scaled a <= scaled b).
Proof. intros (Va & Fa) (Vb & Fb). now apply SFleb_scaled. Qed.

Lemma ltb_false_scaled (a b : float) :
  fin a -> fin b -> (F32.ltb a b = false <-> scaled b <= scaled a).
Proof.
  intros Ha Hb. destruct (F32.ltb a b) eqn:E.
  - apply ltb_scaled in E; try assumption. split; [discriminate | lia].
  - split; [intros _ | reflexivity].
    destruct (Z.le_gt_cases (scaled b) (scaled a)) as [|Hlt]; [assumption|].
    apply ltb_scaled in Hlt; try assumption. congruence.
Qed.

(** Rising towards the target. *)
Lemma animate_up (cur step : float) :
  angle_ok cur -> scaled cur < scaled F32.f180 ->
  step = F32.zero \/ (fin step /\ 2 ^ 148 <= scaled step) ->
  let a := F32.add cur step in
  let a' := if F32.gtb a F32.f180 then F32.f180 else a in
  angle_ok a' /\ scaled cur <= scaled a' /\ (step <> F32.zero -> scaled cur < scaled a').
Proof.
  intros Hok Hlt Hstep a a'.
  assert (Fs : fin step) by (destruct Hstep as [-> | (H & _)]; [apply fin_zero | exact H]).
  assert (Hr : rounded (scaled cur + scaled step) 1 a)
    by (apply add_rounded; solve [apply Hok | apply Fs]).
  pose proof (rounded_real _ _ _ Hr) as Hreal. destruct Hr as (_ & _ & Hc).
  assert (Hg : exists g, fin g /\ scaled cur <= scaled g <= scaled cur + scaled step /\
                         (step <> F32.zero -> scaled cur < scaled g)).
  { destruct Hstep as [-> | (_ & Hs)].
    - exists cur. split; [apply Hok|]. simpl scaled. split; [lia | congruence].
    - destruct cur as [s| | |s m e]; try (destruct Hok as ((_ & Hf) & _); discriminate Hf).
      + exists step. split; [exact Fs|]. simpl scaled. split; lia.
      + destruct (angle_exponent _ _ _ Hok) as (-> & He).
        destruct Hok as ((Hv & _) & _). unfold F32.valid, valid_binary in Hv.
        destruct (bounded_inv _ _ Hv) as (He' & _).
        destruct (next_float m e Hv ltac:(lia)) as (g & Fg & Sg).
        pose proof (pow2_133_148 e ltac:(lia)).
        pose proof (pow2_pos (e + 149) ltac:(lia)).
        exists g. split; [exact Fg|].
        change (scaled (S754_finite false m e)) with (Z.pos m * 2 ^ (e + 149)).
        split; lia. }
  destruct Hg as (g & Fg & (Hg1 & Hg2) & Hg3).
  destruct (Hc g (proj1 Fg) (proj2 Fg)) as (Hlo & _). specialize (Hlo ltac:(lia)).
  subst a'. destruct (F32.gtb a F32.f180) eqn:Hgt.
  - split; [split; [apply fin_f180 | destruct Hok as (_ & ?); lia]|]. split; lia.
  - assert (Hhi : SFleb a F32.f180 = true)
      by (apply not_ltb_leb; [apply Hreal | reflexivity | exact Hgt]).
    destruct (between_fin _ _ _ Hreal Fg fin_f180 Hlo Hhi) as (Fa & Ha1 & Ha2).
    destruct Hok as (_ & Hok0 & _).
    split; [split; [exact Fa | lia]|]. split; [lia|]. intros Hnz. specialize (Hg3 Hnz). lia.
Qed.

(** Falling towards the target. *)
Lemma animate_down (cur step : float) :
  angle_ok cur -> 0 < scaled cur ->
  step = F32.zero \/ (fin step /\ 2 ^ 148 <= scaled step) ->
  let a := F32.sub cur step in
  let a' := if F32.ltb a F32.zero then F32.zero else a in
  angle_ok a' /\ scaled a' <= scaled cur /\ (step <> F32.zero -> scaled a' < scaled cur).
Proof.
  intros Hok Hlt Hstep a a'.
  assert (Fs : fin step) by (destruct Hstep as [-> | (H & _)]; [apply fin_zero | exact H]).
  assert (Hr : rounded (scaled cur - scaled step) 1 a)
    by (apply sub_rounded; solve [apply Hok | apply Fs]).
  pose proof (rounded_real _ _ _ Hr) as Hreal. destruct Hr as (_ & _ & Hc).
  assert (Hg : exists g, fin g /\ scaled cur - scaled step <= scaled g <= scaled cur /\
                         (step <> F32.zero -> scaled g < scaled cur)).
  { destruct Hstep as [-> | (_ & Hs)].
    - exists cur. split; [apply Hok|]. simpl scaled. split; [lia | congruence].
    - destruct cur as [s| | |s m e]; try (destruct Hok as ((_ & Hf) & _); discriminate Hf).
      + simpl in Hlt. lia.
      + destruct (angle_exponent _ _ _ Hok) as (-> & He).
        destruct Hok as ((Hv & _) & _). unfold F32.valid, valid_binary in Hv.
        destruct (bounded_inv _ _ Hv) as (He' & _).
        destruct (prev_float m e Hv) as (g & Fg & Sg).
        pose proof (pow2_133_148 e ltac:(lia)).
        exists g. split; [exact Fg|].
        change (scaled (S754_finite false m e)) with (Z.pos m * 2 ^ (e + 149)).
        split; lia. }
  destruct Hg as (g & Fg & (Hg1 & Hg2) & Hg3).
  destruct (Hc g (proj1 Fg) (proj2 Fg)) as (_ & Hhi). specialize (Hhi ltac:(lia)).
  destruct Hok as (Fc & Hok0 & Hok1).
  subst a'. destruct (F32.ltb a F32.zero) eqn:Hneg.
  - split; [split; [apply fin_zero | simpl scaled; lia]|]. simpl scaled. split; lia.
  - assert (Hlo : SFleb F32.zero a = true)
      by (apply not_ltb_leb; [reflexivity | apply Hreal | exact Hneg]).
    destruct (between_fin _ _ _ Hreal fin_zero Fg Hlo Hhi) as (Fa & Ha1 & Ha2).
    simpl scaled in Ha1.
    split; [split; [exact Fa | lia]|]. split; [lia|]. intros Hnz. specialize (Hg3 Hnz). lia.
Qed.

Lemma animate_spec (cur tgt dt : float) :
  angle_ok cur -> tgt = F32.zero \/ tgt = F32.f180 -> clock_dt dt ->
  let a' := animate cur tgt dt in
  angle_ok a' /\
  (F32.ltb cur tgt = true ->
     scaled cur <= scaled a' <= scaled tgt /\ (dt <> F32.zero -> scaled cur < scaled a')) /\
  (F32.gtb cur tgt = true ->
     scaled tgt <= scaled a' <= scaled cur /\ (dt <> F32.zero -> scaled a' < scaled cur)) /\
  (F32.ltb cur tgt = false -> F32.gtb cur tgt = false -> a' = cur).
Proof.
  intros Hok Htgt Hdt a'.
  assert (Hstep : F32.mul angleSpeed dt = F32.zero \/
                  (fin (F32.mul angleSpeed dt) /\ 2 ^ 148 <= scaled (F32.mul angleSpeed dt))).
  { destruct Hdt as [-> | (Hf & Hs)]; [left; reflexivity | right; now apply rotation_step]. }
  assert (Hnz : dt <> F32.zero -> F32.mul angleSpeed dt <> F32.zero).
  { intros Hd. destruct Hdt as [-> | (Hf & Hs)]; [congruence|].
    destruct (rotation_step dt Hf Hs) as (_ & H148). intros E. rewrite E in H148.
    simpl scaled in H148. pose proof (pow2_pos 148 ltac:(lia)). lia. }
  pose proof Hok as (Fc & Hc0 & Hc1).
  subst a'. unfold animate.
  destruct (F32.ltb cur tgt) eqn:Hlt.
  - assert (Ht : tgt = F32.f180).
    { destruct Htgt as [-> | ->]; [|reflexivity].
      apply (ltb_scaled cur F32.zero Fc fin_zero) in Hlt. simpl scaled in Hlt. lia. }
    subst tgt. apply (ltb_scaled cur F32.f180 Fc fin_f180) in Hlt.
    pose proof (animate_up cur (F32.mul angleSpeed dt) Hok Hlt Hstep) as Hup.
    cbv zeta in Hup. destruct Hup as (Ha & Hle & Hst).
    split; [exact Ha|]. split; [|split; [|discriminate]].
    + intros _. split; [split; [exact Hle | apply Ha] | auto].
    + intros Hgt. apply (ltb_scaled F32.f180 cur fin_f180 Fc) in Hgt. lia.
  - destruct (F32.gtb cur tgt) eqn:Hgt.
    + assert (Ht : tgt = F32.zero).
      { destruct Htgt as [-> | ->]; [reflexivity|].
        apply (ltb_scaled F32.f180 cur fin_f180 Fc) in Hgt. lia. }
      subst tgt. apply (ltb_scaled F32.zero cur fin_zero Fc) in Hgt. simpl scaled in Hgt.
      pose proof (animate_down cur (F32.mul angleSpeed dt) Hok Hgt Hstep) as Hdn.
      cbv zeta in Hdn. destruct Hdn as (Ha & Hle & Hst).
      split; [exact Ha|]. split; [discriminate|]. split; [|discriminate].
      intros _. split; [split; [apply Ha | exact Hle] | auto].
    + split; [exact Hok|]. split; [discriminate|]. split; [discriminate | reflexivity].
Qed.

(** ** The screen clamp *)

Lemma clamp_screen_range (p : SDL_FRect) :
  w p = F32.f40 -> real (x p) ->
  let p' := clamp_screen p in
  w p' = F32.f40 /\ y p' = y p /\ h p' = h p /\
  fin (x p') /\ 0 <= scaled (x p') <= scaled (F32.sub F32.f800 F32.f40).
Proof.
  intros Hw Hx. cbv zeta. unfold clamp_screen.
  set (p1 := if F32.ltb (x p) F32.zero then set_x F32.zero p else p).
  assert (H1 : w p1 = F32.f40 /\ y p1 = y p /\ h p1 = h p /\ real (x p1) /\
               SFleb F32.zero (x p1) = true).
  { subst p1. destruct (F32.ltb (x p) F32.zero) eqn:E; simpl.
    - repeat split; try assumption; reflexivity.
    - repeat split; try assumption; try apply Hx.
      apply not_ltb_leb; [reflexivity | apply Hx | exact E]. }
  clearbody p1. destruct H1 as (Hw1 & Hy1 & Hh1 & Hr1 & H0).
  rewrite Hw1.
  assert (F760 : fin (F32.sub F32.f800 F32.f40)) by (split; reflexivity).
  assert (S760 : scaled (F32.sub F32.f800 F32.f40) = 12451840 * 2 ^ 135) by reflexivity.
  pose proof (pow2_pos 135 ltac:(lia)) as HP.
  destruct (F32.gtb (F32.add (x p1) F32.f40) F32.f800) eqn:Hgt.
  - cbn [x y w h set_x]. repeat split; try assumption; try reflexivity; rewrite S760; lia.
  - split; [exact Hw1|]. split; [exact Hy1|]. split; [exact Hh1|].
    destruct (geb_finite_inv (x p1) F32.zero Hr1 fin_zero H0) as [Hf | Hinf];
      [|rewrite Hinf in Hgt; discriminate Hgt].
    assert (H0' : 0 <= scaled (x p1)).
    { apply (leb_scaled F32.zero (x p1) fin_zero Hf) in H0. exact H0. }
    split; [exact Hf|]. split; [exact H0'|]. rewrite S760.
    destruct (Z.le_gt_cases (scaled (x p1)) (12451840 * 2 ^ 135)) as [|Hbig];
      [assumption|exfalso].
    assert (Hnext : (12451840 + 1) * 2 ^ 135 <= scaled (x p1)).
    { destruct (Z.le_gt_cases ((12451840 + 1) * 2 ^ 135) (scaled (x p1))) as [|Hlt];
        [assumption|exfalso].
      assert (H23 : 2 ^ 23 <= 12451840) by closed_Z.
      exact (no_float_between (x p1) 12451840 (-14) (proj1 Hf) ltac:(lia) ltac:(lia)
               (or_introl H23) Hbig Hlt). }
    assert (F40 : fin F32.f40) by (split; reflexivity).
    assert (Hr : rounded (scaled (x p1) + scaled F32.f40) 1 (F32.add (x p1) F32.f40))
      by (apply add_rounded; solve [apply Hf | apply F40]).
    pose proof (rounded_real _ _ _ Hr) as Hreal. destruct Hr as (_ & _ & Hc).
    set (g := S754_finite false 13107201 (-14)).
    assert (Fg : fin g) by (split; reflexivity).
    destruct (Hc g (proj1 Fg) (proj2 Fg)) as (Hlo & _).
    assert (Sg : scaled g = 13107201 * 2 ^ 135) by reflexivity.
    assert (S40 : scaled F32.f40 = 655360 * 2 ^ 135) by reflexivity.
    rewrite Sg, S40 in Hlo. specialize (Hlo ltac:(lia)).
    assert (F800 : fin F32.f800) by (split; reflexivity).
    destruct (geb_finite_inv _ g Hreal Fg Hlo) as [Hfa | Hinf];
      [|rewrite Hinf in Hgt; discriminate Hgt].
    apply (leb_scaled g _ Fg Hfa) in Hlo.
    apply (ltb_false_scaled F32.f800 _ F800 Hfa) in Hgt.
    assert (S800 : scaled F32.f800 = 13107200 * 2 ^ 135) by reflexivity.
    rewrite Sg in Hlo. rewrite S800 in Hgt. lia.
Qed.

(** ** Frames *)

Lemma handle_event_fields (e : SDL_Event) (s : World) :
  player (handle_event e s) = player s /\ walls (handle_event e s) = walls s /\
  playerAngle (handle_event e s) = playerAngle s /\
  (targetAngle (handle_event e s) = targetAngle s \/
   targetAngle (handle_event e s) = F32.zero \/ targetAngle (handle_event e s) = F32.f180) /\
  (is_flip_event e = false -> targetAngle (handle_event e s) = targetAngle s).
Proof.
  unfold handle_event, is_flip_event.
  destruct (type e), (key e), (down e); cbn [player walls playerAngle targetAngle set_running
    set_gravityDir set_vy set_targetAngle cout_line gravityDir];
    repeat split; auto; try discriminate.
  destruct (F32.gtb _ _); auto.
Qed.

Lemma poll_events_fields (evs : list SDL_Event) (s : World) :
  player (poll_events evs s) = player s /\ walls (poll_events evs s) = walls s /\
  playerAngle (poll_events evs s) = playerAngle s /\
  (targetAngle (poll_events evs s) = targetAngle s \/
   targetAngle (poll_events evs s) = F32.zero \/ targetAngle (poll_events evs s) = F32.f180) /\
  (filter is_flip_event evs = [] -> targetAngle (poll_events evs s) = targetAngle s).
Proof.
  unfold poll_events. revert s. induction evs as [|e evs IH]; intros s; simpl.
  - repeat split; auto.
  - destruct (IH (handle_event e s)) as (-> & -> & -> & Ht & Hn).
    destruct (handle_event_fields e s) as (-> & -> & -> & Ht' & Hn').
    repeat split; auto.
    + destruct Ht as [-> | [-> | ->]]; auto.
    + destruct (is_flip_event e); [discriminate|]. intros Hf.
      rewrite (Hn Hf). now apply Hn'.
Qed.

Lemma keyboard_vx_fin (k : Keyboard) : fin (keyboard_vx k).
Proof.
  unfold keyboard_vx.
  destruct (SDL_SCANCODE_D k || SDL_SCANCODE_RIGHT k),
           (SDL_SCANCODE_A k || SDL_SCANCODE_LEFT k); split; reflexivity.
Qed.

Lemma clock_dt_fin (dt : float) : clock_dt dt -> fin dt.
Proof. intros [-> | (H & _)]; [apply fin_zero | exact H]. Qed.

Lemma add_fin_real (a b : float) : fin a -> real b -> real (F32.add a b).
Proof.
  intros Fa Rb. destruct (real_cases b Rb) as [Fb | [-> | ->]].
  - eapply rounded_real. apply add_rounded; solve [apply Fa | apply Fb].
  - destruct a as [| | |]; destruct Fa as (_ & Hf); try discriminate Hf; split; reflexivity.
  - destruct a as [| | |]; destruct Fa as (_ & Hf); try discriminate Hf; split; reflexivity.
Qed.

Lemma collide_wall_real_x hasInt b oldX oldY (s : World) (wl : SDL_FRect) :
  wall_ok wl -> w (player s) = F32.f40 -> real (x (player s)) ->
  w (player (collide_wall_gen hasInt b oldX oldY s wl)) = F32.f40 /\
  real (x (player (collide_wall_gen hasInt b oldX oldY s wl))).
Proof.
  intros (Fx & Fw) Hw Hx. unfold collide_wall_gen.
  assert (F40 : fin F32.f40) by (split; reflexivity).
  assert (R1 : real (F32.sub (x wl) (w (player s)))).
  { rewrite Hw. eapply rounded_real. apply sub_rounded; solve [apply Fx | apply F40]. }
  assert (R2 : real (F32.add (x wl) (w wl))).
  { eapply rounded_real. apply add_rounded; solve [apply Fx | apply Fw]. }
  destruct (hasInt (player s) wl); [|now split].
  destruct (F32.ltb (minVert (player s) wl) (minHoriz (player s) wl)).
  - destruct (F32.gtb (y (player s)) oldY); [now split|].
    destruct (F32.ltb (y (player s)) oldY); now split.
  - destruct (F32.gtb (x (player s)) oldX); [destruct b; now split|].
    destruct (F32.ltb (x (player s)) oldX); destruct b; now split.
Qed.

Lemma fold_collide_real_x hasInt b oldX oldY (ws : list SDL_FRect) (s : World) :
  Forall wall_ok ws -> w (player s) = F32.f40 -> real (x (player s)) ->
  w (player (fold_left (collide_wall_gen hasInt b oldX oldY) ws s)) = F32.f40 /\
  real (x (player (fold_left (collide_wall_gen hasInt b oldX oldY) ws s))).
Proof.
  intros Hws. revert s. induction Hws as [|wl ws Hwl Hws IH]; intros s Hw Hx; simpl.
  - now split.
  - destruct (collide_wall_real_x hasInt b oldX oldY s wl Hwl Hw Hx) as (Hw' & Hx').
    now apply IH.
Qed.

Lemma update_x_inv hasInt (dt : float) (s : World) :
  x_inv s -> fin (vx s) -> clock_dt dt ->
  let s' := update hasInt dt s in
  x_inv s' /\ 0 <= scaled (x (player s')) <= scaled (F32.sub F32.f800 F32.f40).
Proof.
  intros (Hw & Hx & Hws) Hvx Hdt. cbv zeta.
  unfold update, update_gen, collision_handling_gen.
  set (s2 := move dt (apply_gravity dt (animate_rotation dt s))).
  assert (Hs2 : w (player s2) = F32.f40 /\ real (x (player s2)) /\ walls s2 = walls s).
  { subst s2. unfold move, apply_gravity, animate_rotation. cbn [player walls vx set_player
      set_vy set_playerAngle set_x set_y x y w h].
    split; [exact Hw|]. split; [|reflexivity].
    apply add_fin_real; [exact Hx|].
    eapply rounded_real. apply mul_rounded; solve [apply Hvx | apply (clock_dt_fin dt Hdt)]. }
  destruct Hs2 as (Hw2 & Hx2 & Hwalls2).
  set (oldX := x (player (apply_gravity dt (animate_rotation dt s)))).
  set (oldY := y (player (apply_gravity dt (animate_rotation dt s)))).
  rewrite Hwalls2.
  destruct (fold_collide_real_x hasInt true oldX oldY (walls s) s2 Hws Hw2 Hx2) as (Hw3 & Hx3).
  pose proof (fold_collide_untouched hasInt true oldX oldY (walls s) s2) as Hu.
  cbv zeta in Hu. destruct Hu as (_ & Hwalls3 & _).
  set (s3 := fold_left (collide_wall_gen hasInt true oldX oldY) (walls s) s2) in *.
  destruct (clamp_screen_range (player s3) Hw3 Hx3) as (Hw4 & _ & _ & Hx4 & Hr4).
  unfold x_inv. cbn [player walls set_player].
  split; [|exact Hr4].
  split; [exact Hw4|]. split; [exact Hx4|]. rewrite Hwalls3, Hwalls2. exact Hws.
Qed.

Lemma frame_x_inv hasInt (i : FrameInput) (s : World) :
  x_inv s -> x_inv (frame hasInt i s) /\ in_screen (frame hasInt i s).
Proof.
  intros (Hw & Hx & Hws).
  destruct (poll_events_fields (events i) s) as (Hp & Hwl & _).
  unfold frame, frame_gen.
  set (s0 := set_lastTicks (nowTicks i) (set_vx (keyboard_vx (kb i)) (poll_events (events i) s))).
  assert (H0 : x_inv s0).
  { subst s0. unfold x_inv. cbn [player walls set_lastTicks set_vx]. rewrite Hp, Hwl.
    split; [exact Hw | split; [exact Hx | exact Hws]]. }
  assert (Hv : fin (vx s0)) by apply keyboard_vx_fin.
  pose proof (update_x_inv hasInt _ s0 H0 Hv
                (clock_dt_clamp (nowTicks i)
                   (lastTicks (set_vx (keyboard_vx (kb i)) (poll_events (events i) s))))) as H.
  cbv zeta in H. unfold update in H. destruct H as (Hinv & Hlo & Hhi).
  split; [exact Hinv|].
  destruct Hinv as (Hw' & Hx' & _).
  unfold in_screen, F32.leb. rewrite Hw'.
  assert (F760 : fin (F32.sub F32.f800 F32.f40)) by (split; reflexivity).
  split; [apply (leb_scaled F32.zero _ fin_zero Hx'); exact Hlo
         | apply (leb_scaled _ _ Hx' F760); exact Hhi].
Qed.

Lemma eqb_scaled (a b : float) : fin a -> fin b -> (F32.eqb a b = true <-> scaled a = scaled b).
Proof.
  intros (Va & Fa) (Vb & Fb). unfold F32.eqb, SFeqb.
  rewrite (SFcompare_scaled a b Va Vb Fa Fb).
  destruct (Z.compare_spec (scaled a) (scaled b)); split; intros; try lia; try reflexivity;
    discriminate.
Qed.

Lemma frame_angle hasInt (i : FrameInput) (s : World) :
  let s1 := poll_events (events i) s in
  let s' := frame hasInt i s in
  playerAngle s' = animate (playerAngle s) (targetAngle s1) (frame_dt i s) /\
  targetAngle s' = targetAngle s1.
Proof.
  cbv zeta. unfold frame, frame_gen.
  match goal with
  | |- playerAngle (update_gen ?f ?b ?d ?t) = _ /\ _ =>
      pose proof (update_gen_untouched f b d t) as H
  end.
  cbv zeta in H. destruct H as (_ & _ & _ & _ & Ht & Ha & _).
  rewrite Ht, Ha. cbn [playerAngle targetAngle lastTicks set_lastTicks set_vx].
  destruct (poll_events_fields (events i) s) as (_ & _ & -> & _).
  rewrite poll_events_lastTicks. split; reflexivity.
Qed.

Lemma gtb_zero_nonzero (dt : float) : F32.gtb dt F32.zero = true -> dt <> F32.zero.
Proof. intros H E. rewrite E in H. discriminate H. Qed.

Lemma frame_angle_inv hasInt (i : FrameInput) (s : World) :
  angle_inv s ->
  let s1 := poll_events (events i) s in
  let s' := frame hasInt i s in
  let cur := playerAngle s in
  let tgt := targetAngle s1 in
  let new := playerAngle s' in
  angle_inv s' /\ targetAngle s' = tgt /\
  (F32.gtb (frame_dt i s) F32.zero = true -> F32.eqb cur tgt = false ->
     Z.abs (scaled new - scaled tgt) < Z.abs (scaled cur - scaled tgt) /\
     (F32.ltb cur tgt = true -> F32.ltb cur new = true /\ F32.leb new tgt = true) /\
     (F32.gtb cur tgt = true -> F32.ltb new cur = true /\ F32.leb tgt new = true)) /\
  (F32.eqb cur tgt = true -> new = cur) /\
  (filter is_flip_event (events i) = [] -> tgt = targetAngle s) /\
  angle_in_range s'.
Proof.
  intros (Hok & Htgt). cbv zeta.
  destruct (frame_angle hasInt i s) as (Hnew & Ht').
  destruct (poll_events_fields (events i) s) as (_ & _ & _ & Ht1 & Hnf).
  assert (Htgt1 : targetAngle (poll_events (events i) s) = F32.zero \/
                  targetAngle (poll_events (events i) s) = F32.f180).
  { destruct Ht1 as [-> | H]; assumption. }
  pose proof (animate_spec (playerAngle s) _ (frame_dt i s) Hok Htgt1
                (clock_dt_clamp (nowTicks i) (lastTicks s))) as Ha.
  cbv zeta in Ha. rewrite <- Hnew in Ha. destruct Ha as (Hok' & Hup & Hdn & Heq).
  set (cur := playerAngle s) in *. set (tgt := targetAngle (poll_events (events i) s)) in *.
  set (new := playerAngle (frame hasInt i s)) in *.
  assert (Ft : fin tgt) by (destruct Htgt1 as [-> | ->]; [apply fin_zero | apply fin_f180]).
  pose proof Hok as (Fc & _). pose proof Hok' as (Fn & Hn0 & Hn1).
  split; [split; [exact Hok' | rewrite Ht'; exact Htgt1]|].
  split; [exact Ht'|].
  split; [|split; [|split]].
  - intros Hdt Hne. apply gtb_zero_nonzero in Hdt.
    split; [|split].
    + destruct (F32.ltb cur tgt) eqn:Hlt.
      * destruct (Hup eq_refl) as ((H1 & H2) & H3). specialize (H3 Hdt). lia.
      * destruct (F32.gtb cur tgt) eqn:Hgt.
        -- destruct (Hdn eq_refl) as ((H1 & H2) & H3). specialize (H3 Hdt). lia.
        -- apply (ltb_false_scaled cur tgt Fc Ft) in Hlt.
           apply (ltb_false_scaled tgt cur Ft Fc) in Hgt.
           assert (E : F32.eqb cur tgt = true) by (apply (eqb_scaled cur tgt Fc Ft); lia).
           congruence.
    + intros Hlt. destruct (Hup Hlt) as ((H1 & H2) & H3). specialize (H3 Hdt).
      split; [apply (ltb_scaled cur new Fc Fn); exact H3
             | apply (leb_scaled new tgt Fn Ft); exact H2].
    + intros Hgt. destruct (Hdn Hgt) as ((H1 & H2) & H3). specialize (H3 Hdt).
      split; [apply (ltb_scaled new cur Fn Fc); exact H3
             | apply (leb_scaled tgt new Ft Fn); exact H1].
  - intros E. apply Heq; [now apply eqb_not_ltb | now apply eqb_not_gtb].
  - exact Hnf.
  - split; [apply (leb_scaled F32.zero new fin_zero Fn); exact Hn0
           | apply (leb_scaled new F32.f180 Fn fin_f180); exact Hn1].
Qed.

Lemma run_Forall hasInt (I P : World -> Prop) :
  (forall i s, I s -> I (frame hasInt i s) /\ P (frame hasInt i s)) ->
  forall inputs s, I s -> Forall P (run hasInt inputs s).
Proof.
  intros Hstep inputs. induction inputs as [|i rest IH]; intros s Hs; unfold run in *; simpl.
  - constructor.
  - destruct (running s); [|constructor].
    destruct (Hstep i s Hs) as (HI & HP). constructor; [exact HP | now apply IH].
Qed.


(** The gravity direction is +1 or -1 on every frame of a run that starts
    with one of them, as [main] does. *)
Lemma run_dir_ok hasInt (inputs : list FrameInput) (s : World) :
  dir_ok s -> Forall dir_ok (run hasInt inputs s).
Proof.
  apply (run_Forall hasInt dir_ok dir_ok). intros i t Ht.
  assert (H : dir_ok (frame hasInt i t)).
  { unfold dir_ok, frame, frame_gen.
    match goal with
    | |- gravityDir (update_gen ?f ?b ?d ?u) = _ \/ _ =>
        destruct (update_gen_untouched f b d u) as (_ & _ & _ & -> & _)
    end.
    cbn [gravityDir set_lastTicks set_vx].
    exact (poll_events_dir_ok (events i) t Ht). }
  now split.
Qed.

(** ** The invariants as boolean tests *)

Lemma same_float_eq (a b : float) : same_float a b = true <-> a = b.
Proof.
  destruct a as [s|s| |s m e], b as [t|t| |t n f]; simpl; split; intros H;
    try discriminate H; try reflexivity;
    try (apply Bool.eqb_prop in H; now subst);
    try (injection H as ->; now destruct t).
  - apply andb_true_iff in H. destruct H as (H & He). apply andb_true_iff in H.
    destruct H as (Hs & Hm). apply Bool.eqb_prop in Hs. apply Pos.eqb_eq in Hm.
    apply Z.eqb_eq in He. now subst.
  - injection H as -> -> ->. rewrite Pos.eqb_refl, Z.eqb_refl. now destruct t.
Qed.

Lemma finite_valid_fin (a : float) : finite_valid a = true <-> fin a.
Proof. unfold finite_valid, fin. apply andb_true_iff. Qed.

Lemma x_invariant_inv (s : World) : x_invariant s = true <-> x_inv s.
Proof.
  unfold x_invariant, x_inv. rewrite !andb_true_iff, same_float_eq, finite_valid_fin.
  rewrite forallb_forall, Forall_forall.
  assert (H : forall wl, wall_finite wl = true <-> wall_ok wl).
  { intros wl. unfold wall_finite, wall_ok. now rewrite andb_true_iff, !finite_valid_fin. }
  split.
  - intros ((Hw & Hx) & Hws). split; [exact Hw|]. split; [exact Hx|].
    intros wl Hin. apply H. now apply Hws.
  - intros (Hw & Hx & Hws). split; [split; [exact Hw | exact Hx]|].
    intros wl Hin. apply H. now apply Hws.
Qed.

Lemma angle_invariant_inv (s : World) : angle_invariant s = true <-> angle_inv s.
Proof.
  unfold angle_invariant, angle_inv, angle_ok.
  rewrite !andb_true_iff, orb_true_iff, !same_float_eq, finite_valid_fin, !Z.leb_le.
  tauto.
Qed.

(** ** The walls of the level *)

Lemma tile_row_more_fuel (fuel k : nat) (top cx : float) (acc r : list SDL_FRect) :
  tile_row fuel top cx acc = Some r -> tile_row (fuel + k) top cx acc = Some r.
Proof.
  revert cx acc. induction fuel as [|fuel IH]; intros cx acc; simpl; [discriminate|].
  destruct (F32.ltb cx F32.f800); [apply IH | trivial].
Qed.

(** With enough fuel the two tile loops end, and [main] has the 13 floor
    tiles, the 13 ceiling tiles and the two platforms. *)
Lemma build_walls_level (fuel : nat) :
  (14 <= fuel)%nat -> build_walls fuel = Some level_walls /\ length level_walls = 28%nat.
Proof.
  intros H. split; [|reflexivity].
  replace fuel with (14 + (fuel - 14))%nat by lia.
  unfold build_walls.
  assert (H1 : exists l, tile_row 14 (F32.sub F32.f600 tileH) F32.zero [] = Some l /\
                         exists l', tile_row 14 F32.zero F32.zero l = Some l' /\
                         Some (l' ++ [mkRect F32.f200 (F32.sub F32.f600 F32.f160) F32.f128 F32.f32]
                                  ++ [mkRect F32.f500 (F32.sub F32.f600 F32.f260) F32.f128 F32.f32])
                         = Some level_walls).
  { eexists. split; [vm_compute; reflexivity|]. eexists. split; vm_compute; reflexivity. }
  destruct H1 as (l & Hl & l' & Hl' & Hw).
  rewrite (tile_row_more_fuel 14 _ _ _ _ _ Hl), (tile_row_more_fuel 14 _ _ _ _ _ Hl').
  exact Hw.
Qed.

Lemma initial_world_invariants (ticks0 : Z) (tp tw tb : bool) :
  x_invariant (initial_world level_walls ticks0 tp tw tb) = true /\
  angle_invariant (initial_world level_walls ticks0 tp tw tb) = true.
Proof. split; reflexivity. Qed.

(** ** The clock of a frame *)

(** C8: one iteration stores [nowTicks] in [lastTicks] and updates with the
    delta time [(nowTicks - lastTicks) / 1000.0f] capped at [0.05f]: the
    delta time is a finite number between 0 and [0.05f], and an elapsed time
    of 500 ms gives exactly [0.05f]. *)
Theorem clock_tick (hasInt : SDL_FRect -> SDL_FRect -> bool) (i : FrameInput) (s : World) :
  lastTicks (frame hasInt i s) = nowTicks i /\
  frame hasInt i s =
    update hasInt (frame_dt i s)
      (set_lastTicks (nowTicks i) (set_vx (keyboard_vx (kb i)) (poll_events (events i) s))) /\
  frame_dt i s =
    (let raw := F32.div (F32.of_Z ((nowTicks i - lastTicks s) mod 2 ^ 64)) F32.f1000 in
     if F32.gtb raw F32.f0_05 then F32.f0_05 else raw) /\
  F32.gtb (frame_dt i s) F32.f0_05 = false /\
  F32.leb (frame_dt i s) F32.f0_05 = true /\
  F32.leb F32.zero (frame_dt i s) = true /\
  (nowTicks i = lastTicks s + 500 -> frame_dt i s = F32.f0_05).
Proof.
  repeat match goal with |- _ /\ _ => split end.
  - unfold frame, frame_gen.
    match goal with
    | |- lastTicks (update_gen ?f ?b ?d ?t) = _ =>
        destruct (update_gen_untouched f b d t) as (-> & _)
    end.
    reflexivity.
  - unfold frame, frame_gen, update, frame_dt. simpl.
    now rewrite poll_events_lastTicks.
  - reflexivity.
  - unfold frame_dt, clamp_dt.
    destruct (F32.gtb (raw_dt (nowTicks i) (lastTicks s)) F32.f0_05) eqn:E;
      [reflexivity | exact E].
  - unfold frame_dt.
    destruct (clock_dt_clamp (nowTicks i) (lastTicks s)) as [-> | (Hf & _ & Hhi)];
      [reflexivity|].
    apply (leb_scaled _ F32.f0_05 Hf); [split; reflexivity | exact Hhi].
  - unfold frame_dt.
    destruct (clock_dt_clamp (nowTicks i) (lastTicks s)) as [-> | (Hf & Hlo & _)];
      [reflexivity|].
    apply (leb_scaled F32.zero _ fin_zero Hf). simpl scaled.
    pose proof (pow2_pos 139 ltac:(lia)). lia.
  - intros H. unfold frame_dt, raw_dt. rewrite H.
    replace (lastTicks s + 500 - lastTicks s) with 500 by lia. reflexivity.
Qed.

Lemma clock_tick_witness :
  let i := mkInput [] (mkKeyboard false false false false) 1500 in
  let s := initial_world [] 1000 true true true in
  frame_dt i s = F32.f0_05.
Proof.
  apply (clock_tick has_intersection_positive_extent
           (mkInput [] (mkKeyboard false false false false) 1500)
           (initial_world [] 1000 true true true)).
  reflexivity.
Defined.

(** C6: in every frame the rotation moves [playerAngle] towards
    [targetAngle]: when they differ and the delta time is positive the
    distance between them strictly decreases and the angle does not cross
    the target; when they are equal the angle stays where it is, and the
    target itself only changes on a flip; with the target 0 or 180 the
    angle stays within [[0, 180]], in this frame and in every later one. *)
Theorem angle_animation
  (hasInt : SDL_FRect -> SDL_FRect -> bool) (s : World) :
  angle_invariant s = true ->
  (forall i : FrameInput,
      let s1 := poll_events (events i) s in
      let s' := frame hasInt i s in
      let cur := playerAngle s in
      let tgt := targetAngle s1 in
      let new := playerAngle s' in
      angle_invariant s' = true /\ targetAngle s' = tgt /\
      (F32.gtb (frame_dt i s) F32.zero = true -> F32.eqb cur tgt = false ->
         Z.abs (scaled new - scaled tgt) < Z.abs (scaled cur - scaled tgt) /\
         (F32.ltb cur tgt = true -> F32.ltb cur new = true /\ F32.leb new tgt = true) /\
         (F32.gtb cur tgt = true -> F32.ltb new cur = true /\ F32.leb tgt new = true)) /\
      (F32.eqb cur tgt = true -> new = cur) /\
      (filter is_flip_event (events i) = [] -> tgt = targetAngle s) /\
      angle_in_range s') /\
  (forall inputs : list FrameInput, Forall angle_in_range (run hasInt inputs s)).
Proof.
  intros Hinv. apply angle_invariant_inv in Hinv. split.
  - intros i. cbv zeta.
    pose proof (frame_angle_inv hasInt i s Hinv) as H. cbv zeta in H.
    destruct H as (H1 & H2). split; [now apply angle_invariant_inv | exact H2].
  - intros inputs. apply (run_Forall hasInt angle_inv); [|exact Hinv].
    intros i t Ht. pose proof (frame_angle_inv hasInt i t Ht) as H. cbv zeta in H.
    split; [apply H | apply H].
Qed.

Lemma angle_animation_witness :
  let s := set_targetAngle F32.f180 (initial_world level_walls 1000 true true true) in
  let i := mkInput [] (mkKeyboard false false false false) 1016 in
  F32.gtb (frame_dt i s) F32.zero = true /\
  F32.ltb (playerAngle s) (playerAngle (frame has_intersection_positive_extent i s)) = true /\
  F32.leb (playerAngle (frame has_intersection_positive_extent i s)) F32.f180 = true /\
  angle_in_range (frame has_intersection_positive_extent i s).
Proof.
  cbv zeta.
  destruct (angle_animation has_intersection_positive_extent
              (set_targetAngle F32.f180 (initial_world level_walls 1000 true true true))
              eq_refl) as (Hframe & _).
  specialize (Hframe (mkInput [] (mkKeyboard false false false false) 1016)).
  cbv zeta in Hframe. destruct Hframe as (_ & _ & Hmove & _ & _ & Hrange).
  destruct (Hmove eq_refl eq_refl) as (_ & Hup & _).
  destruct (Hup eq_refl) as (H1 & H2).
  split; [reflexivity|]. split; [exact H1|]. split; [exact H2 | exact Hrange].
Defined.

(** C7: after every frame [player.x] lies within [[0, 800 - player.w]],
    whatever the intersection test and the walls did: for the player of
    [main] (40 wide, at most the 800 of the screen), with a finite [x] before
    the frame and walls of finite coordinates, which the frame preserves. *)
Theorem screen_clamp
  (hasInt : SDL_FRect -> SDL_FRect -> bool) (s : World) :
  x_invariant s = true ->
  (forall i : FrameInput,
      let s' := frame hasInt i s in
      x_invariant s' = true /\
      F32.leb F32.zero (x (player s')) = true /\
      F32.leb (x (player s')) (F32.sub F32.f800 (w (player s'))) = true) /\
  (forall inputs : list FrameInput, Forall in_screen (run hasInt inputs s)).
Proof.
  intros Hinv. apply x_invariant_inv in Hinv. split.
  - intros i. cbv zeta. destruct (frame_x_inv hasInt i s Hinv) as (H1 & H2).
    split; [now apply x_invariant_inv | exact H2].
  - intros inputs. apply (run_Forall hasInt x_inv); [|exact Hinv].
    intros i t Ht. now apply frame_x_inv.
Qed.

Lemma screen_clamp_witness :
  let s := initial_world level_walls 1000 true true true in
  let i := mkInput [] (mkKeyboard false false true false) 1016 in
  x_invariant s = true /\
  F32.leb F32.zero (x (player (frame has_intersection_positive_extent i s))) = true /\
  F32.leb (x (player (frame has_intersection_positive_extent i s)))
          (F32.sub F32.f800 (w (player (frame has_intersection_positive_extent i s)))) = true.
Proof.
  cbv zeta. split; [reflexivity|].
  destruct (screen_clamp has_intersection_positive_extent
              (initial_world level_walls 1000 true true true) eq_refl) as (Hframe & _).
  specialize (Hframe (mkInput [] (mkKeyboard false false true false) 1016)).
  cbv zeta in Hframe. destruct Hframe as (_ & H1 & H2). split; [exact H1 | exact H2].
Defined.

(** The bound of [screen_clamp] uses the width 40 of the player: the test
    [player.x + player.w > 800.f] is made on the rounded sum, and for a
    rectangle as wide as the screen a small positive [x] is absorbed by the
    sum and left in place. *)
Example clamp_screen_screen_wide_rect :
  let p := mkRect (S754_finite false 8388608 (-53)) F32.zero F32.f800 F32.f60 in
  clamp_screen p = p /\ F32.gtb (x p) (F32.sub F32.f800 (w p)) = true.
Proof. split; reflexivity. Qed.

(** * The rest of the program: properties *)

(** ** Horizontal resolution *)

(** X1: when the player intersects a wall and the vertical overlap is not
    the smaller one (lines 198-208), the wall is resolved horizontally: [vx]
    becomes 0, [y] and [vy] are left alone, a player that moved right is
    put with its right edge on the wall's left edge, and one that moved
    left with its left edge on the wall's right edge. *)
Theorem horizontal_resolution_snaps
  (hasInt : SDL_FRect -> SDL_FRect -> bool) (oldX oldY : float) (s : World) (wl : SDL_FRect) :
  hasInt (player s) wl = true ->
  F32.ltb (minVert (player s) wl) (minHoriz (player s) wl) = false ->
  let s' := collide_wall hasInt oldX oldY s wl in
  vx s' = F32.zero /\ y (player s') = y (player s) /\ vy s' = vy s /\
  (F32.gtb (x (player s)) oldX = true -> x (player s') = F32.sub (x wl) (w (player s))) /\
  (F32.ltb (x (player s)) oldX = true -> x (player s') = F32.add (x wl) (w wl)).
Proof.
  intros Hi Hax s'. subst s'.
  rewrite collide_wall_horizontal by assumption.
  destruct (resolve_horizontal_frame oldX s wl) as (Hy & Hvy & Hvx).
  split; [exact Hvx|]. split; [exact Hy|]. split; [exact Hvy|].
  unfold resolve_horizontal. split; intros Hm.
  - rewrite Hm. reflexivity.
  - rewrite (ltb_not_gtb _ _ Hm), Hm. reflexivity.
Qed.

Lemma horizontal_resolution_snaps_witness :
  let s' := collide_wall has_intersection_positive_extent (F32.of_Z 160) (F32.of_Z 420)
              walking_world platform in
  vx s' = F32.zero /\ x (player s') = F32.f160.
Proof.
  cbv zeta.
  destruct (horizontal_resolution_snaps has_intersection_positive_extent
              (F32.of_Z 160) (F32.of_Z 420) walking_world platform eq_refl eq_refl)
    as (Hvx & _ & _ & Hr & _).
  split; [exact Hvx | exact (Hr eq_refl)].
Defined.

(** ** A frame without contact *)

Lemma fold_collide_no_hit hasInt b oldX oldY (ws : list SDL_FRect) (s : World) :
  forallb (fun wl => negb (hasInt (player s) wl)) ws = true ->
  fold_left (collide_wall_gen hasInt b oldX oldY) ws s = s.
Proof.
  induction ws as [|wl ws IH]; simpl; [reflexivity|].
  intros H. apply andb_true_iff in H. destruct H as (Hwl & Hws).
  apply negb_true_iff in Hwl.
  unfold collide_wall_gen at 2. rewrite Hwl. now apply IH.
Qed.

(** X2: a frame in which the moved player intersects no wall is free
    flight (lines 151-214): the update is the integration step followed by
    the screen clamp, [vy] grows by [gravity * gravityDir * dt], [y] by
    [vy * dt] for the new [vy], and [vx] is what the keyboard set. *)
Theorem free_flight (hasInt : SDL_FRect -> SDL_FRect -> bool) (dt : float) (s : World) :
  let m := move dt (apply_gravity dt (animate_rotation dt s)) in
  forallb (fun wl => negb (hasInt (player m) wl)) (walls s) = true ->
  let s' := update hasInt dt s in
  s' = set_player (clamp_screen (player m)) m /\
  vy s' = F32.add (vy s) (F32.mul (F32.mul gravity (gravityDir s)) dt) /\
  y (player s') = F32.add (y (player s)) (F32.mul (vy s') dt) /\
  vx s' = vx s.
Proof.
  intros m Hfree s'. subst s'.
  assert (E : update hasInt dt s = set_player (clamp_screen (player m)) m).
  { unfold update, update_gen, collision_handling_gen. fold m.
    change (walls m) with (walls s). now rewrite fold_collide_no_hit. }
  rewrite E. split; [reflexivity|]. split; [reflexivity|]. split; [|reflexivity].
  cbn [player set_player vy]. unfold clamp_screen.
  repeat match goal with |- context [if ?c then _ else _] => destruct c end; reflexivity.
Qed.

Lemma free_flight_witness :
  let s := initial_world [platform] 0 true true true in
  let s' := update has_intersection_positive_extent F32.f0_05 s in
  vy s' = F32.add F32.zero (F32.mul (F32.mul gravity F32.one) F32.f0_05) /\
  x (player s') = F32.f380.
Proof.
  cbv zeta.
  destruct (free_flight has_intersection_positive_extent F32.f0_05
              (initial_world [platform] 0 true true true) eq_refl) as (Hs & Hvy & _).
  split; [exact Hvy|]. rewrite Hs. reflexivity.
Defined.

(** ** What no frame changes *)

Lemma handle_event_static (e : SDL_Event) (s : World) :
  static_part (handle_event e s) = static_part s.
Proof. unfold handle_event. destruct (type e), (key e), (down e); reflexivity. Qed.

Lemma poll_events_static (evs : list SDL_Event) (s : World) :
  static_part (poll_events evs s) = static_part s.
Proof.
  unfold poll_events. revert s. induction evs as [|e evs IH]; intros s; simpl; [reflexivity|].
  now rewrite IH, handle_event_static.
Qed.

Lemma collide_wall_static hasInt b oldX oldY (s : World) (wl : SDL_FRect) :
  static_part (collide_wall_gen hasInt b oldX oldY s wl) = static_part s.
Proof.
  unfold collide_wall_gen.
  repeat match goal with |- context [if ?c then _ else _] => destruct c end; reflexivity.
Qed.

Lemma fold_collide_static hasInt b oldX oldY (ws : list SDL_FRect) (s : World) :
  static_part (fold_left (collide_wall_gen hasInt b oldX oldY) ws s) = static_part s.
Proof.
  revert s. induction ws as [|wl ws IH]; intros s; simpl; [reflexivity|].
  now rewrite IH, collide_wall_static.
Qed.

Lemma clamp_static (a : World) :
  static_part (set_player (clamp_screen (player a)) a) = static_part a.
Proof.
  unfold static_part, clamp_screen. cbn [player walls texPlayer texWall texBg set_player].
  repeat match goal with |- context [if ?c then _ else _] => destruct c end; reflexivity.
Qed.

Lemma update_static hasInt b (dt : float) (s : World) :
  static_part (update_gen hasInt b dt s) = static_part s.
Proof.
  unfold update_gen, collision_handling_gen.
  now rewrite clamp_static, fold_collide_static.
Qed.

Lemma frame_static hasInt (i : FrameInput) (s : World) :
  static_part (frame hasInt i s) = static_part s.
Proof.
  unfold frame, frame_gen. rewrite update_static.
  rewrite <- (poll_events_static (events i) s). reflexivity.
Qed.

(** X3: no frame of any run changes the size of the player, the walls
    or which textures are loaded. *)
Theorem run_keeps_size
  (hasInt : SDL_FRect -> SDL_FRect -> bool) (inputs : list FrameInput) (s : World) :
  Forall (fun s' =>
            w (player s') = w (player s) /\ h (player s') = h (player s) /\
            walls s' = walls s /\
            texPlayer s' = texPlayer s /\ texWall s' = texWall s /\ texBg s' = texBg s)
         (run hasInt inputs s).
Proof.
  assert (H : Forall (fun s' => static_part s' = static_part s) (run hasInt inputs s)).
  { apply (run_Forall hasInt (fun t => static_part t = static_part s)
                             (fun t => static_part t = static_part s)); [|reflexivity].
    intros i t Ht. rewrite frame_static. now split. }
  eapply Forall_impl; [|exact H].
  intros s' E. unfold static_part in E. injection E as -> -> -> -> -> ->. now repeat split.
Qed.

(** ** Leaving the loop *)

Lemma handle_event_running (e : SDL_Event) (s : World) :
  running (handle_event e s) = running s && negb (is_quit_event e).
Proof.
  unfold handle_event, is_quit_event.
  destruct (type e), (key e), (down e); cbn [running set_running set_gravityDir set_vy
    set_targetAngle cout_line negb]; rewrite ?andb_true_r, ?andb_false_r; reflexivity.
Qed.

Lemma poll_events_running (evs : list SDL_Event) (s : World) :
  running (poll_events evs s) = running s && negb (existsb is_quit_event evs).
Proof.
  unfold poll_events. revert s. induction evs as [|e evs IH]; intros s; simpl.
  - now rewrite andb_true_r.
  - rewrite IH, handle_event_running, negb_orb. now rewrite andb_assoc.
Qed.

Lemma frame_running hasInt (i : FrameInput) (s : World) :
  running (frame hasInt i s) = running s && negb (quits i).
Proof.
  unfold frame, frame_gen, quits.
  match goal with
  | |- running (update_gen ?f ?b ?d ?t) = _ =>
      destruct (update_gen_untouched f b d t) as (_ & _ & -> & _)
  end.
  cbn [running set_lastTicks set_vx]. apply poll_events_running.
Qed.

Lemma last_default {A : Type} (a : A) (l : list A) (d d' : A) :
  last (a :: l) d = last (a :: l) d'.
Proof.
  revert a. induction l as [|b l IH]; intros a; [reflexivity|].
  change (last (b :: l) d = last (b :: l) d'). apply IH.
Qed.

Lemma run_cons hasInt (i : FrameInput) (rest : list FrameInput) (s : World) :
  run hasInt (i :: rest) s =
  if running s then frame hasInt i s :: run hasInt rest (frame hasInt i s) else [].
Proof. reflexivity. Qed.

Lemma run_stopped hasInt (inputs : list FrameInput) (s : World) :
  running s = false -> run hasInt inputs s = [].
Proof. intros H. destruct inputs; [reflexivity|]. now rewrite run_cons, H. Qed.

(** X4: the loop (lines 108-256) runs until the first frame that receives
    a quit event ([SDL_EVENT_QUIT] or Escape pressed) and completes that
    frame: [running] after a frame is false exactly when the frame received
    a quit; the number of iterations is the number of frames up to and
    including the first quit; every iteration before the last leaves
    [running] true, and when a quit arrived the last one leaves it false. *)
Theorem loop_runs_until_quit
  (hasInt : SDL_FRect -> SDL_FRect -> bool) (inputs : list FrameInput) (s : World) :
  running s = true ->
  (forall i, running (frame hasInt i s) = negb (quits i)) /\
  length (run hasInt inputs s) = frames_until_quit inputs /\
  Forall (fun s' => running s' = true) (removelast (run hasInt inputs s)) /\
  (existsb quits inputs = true -> running (last (run hasInt inputs s) s) = false).
Proof.
  intros Hr. split; [intros i; now rewrite frame_running, Hr|].
  revert s Hr. induction inputs as [|i rest IH]; intros s Hr.
  - split; [reflexivity|]. split; [constructor | discriminate].
  - rewrite run_cons, Hr. cbn [frames_until_quit existsb].
    pose proof (frame_running hasInt i s) as Hf. rewrite Hr in Hf. cbn [andb] in Hf.
    set (s1 := frame hasInt i s) in *.
    destruct (quits i) eqn:Hq; cbn [negb orb] in *.
    + rewrite (run_stopped hasInt rest s1 Hf).
      split; [reflexivity|]. split; [constructor|]. intros _. exact Hf.
    + destruct (IH s1 Hf) as (Hlen & Hall & Hlast).
      split; [cbn [length]; now rewrite Hlen|].
      destruct (run hasInt rest s1) as [|s2 l] eqn:El.
      * split; [constructor|]. intros Hex. specialize (Hlast Hex). cbn [last] in *.
        congruence.
      * split.
        -- cbn [removelast]. constructor; [exact Hf | exact Hall].
        -- intros Hex. specialize (Hlast Hex).
           change (last (s1 :: s2 :: l) s) with (last (s2 :: l) s).
           now rewrite (last_default s2 l s s1).
Qed.

Lemma loop_runs_until_quit_witness :
  let still := mkInput [] (mkKeyboard false false false false) 16 in
  let esc := mkInput [mkEvent SDL_EVENT_KEY_DOWN SDLK_ESCAPE true false]
                     (mkKeyboard false false false false) 33 in
  length (run has_intersection_positive_extent [still; esc; still]
              (initial_world level_walls 0 true true true)) = 2%nat.
Proof.
  cbv zeta.
  exact (proj1 (proj2 (loop_runs_until_quit has_intersection_positive_extent
                         [mkInput [] (mkKeyboard false false false false) 16;
                          mkInput [mkEvent SDL_EVENT_KEY_DOWN SDLK_ESCAPE true false]
                                  (mkKeyboard false false false false) 33;
                          mkInput [] (mkKeyboard false false false false) 16]
                         (initial_world level_walls 0 true true true) eq_refl))).
Defined.

(** ** The horizontal velocity of a frame *)



(** ** Representable numbers *)

Lemma representable (M e : Z) :
  0 <= M < 2 ^ 24 -> -149 <= e <= 104 ->
  exists g, fin g /\ scaled g = M * 2 ^ (e + 149).
Proof.
  intros HM He.
  destruct (Z.eq_dec M 0) as [-> | HM0].
  { exists (S754_zero false). split; [split; reflexivity | reflexivity]. }
  assert (H : forall k : nat, forall M e, Z.of_nat k = e + 149 -> 0 < M < 2 ^ 24 -> e <= 104 ->
            exists g, fin g /\ scaled g = M * 2 ^ (e + 149)).
  { clear. induction k as [|k IH]; intros M e Hk HM He.
    - destruct M as [|p|p]; try lia.
      exists (S754_finite false p e). split; [|reflexivity].
      split; [|reflexivity]. apply bounded_intro; [lia | lia | right; lia].
    - destruct (Z.le_gt_cases (2 ^ 23) M) as [Hn | Hs].
      + destruct M as [|p|p]; try lia.
        exists (S754_finite false p e). split; [|reflexivity].
        split; [|reflexivity]. apply bounded_intro; [lia | lia | left; exact Hn].
      + change (2 ^ 24) with (2 * 2 ^ 23) in *.
        destruct (IH (2 * M) (e - 1) ltac:(lia) ltac:(lia) ltac:(lia)) as (g & Fg & Sg).
        exists g. split; [exact Fg|]. rewrite Sg.
        replace (e + 149) with (1 + (e - 1 + 149)) by lia.
        rewrite (pow2_split 1 (e - 1 + 149)) by lia. change (2 ^ 1) with 2. ring. }
  apply (H (Z.to_nat (e + 149))); lia.
Qed.

Lemma ltb_leb_trans (a g r : float) :
  fin a -> fin g -> real r -> scaled a < scaled g -> SFleb g r = true -> F32.ltb a r = true.
Proof.
  intros Fa Fg Rr Hlt Hle.
  destruct (geb_finite_inv r g Rr Fg Hle) as [Fr | ->].
  - apply (ltb_scaled a r Fa Fr). apply (leb_scaled g r Fg Fr) in Hle. lia.
  - destruct a, Fa as (_ & Hf); try discriminate Hf; reflexivity.
Qed.

(** ** The clock *)

Lemma raw_dt_ge (n k : Z) (g : float) :
  1 <= k <= n -> n < 2 ^ 64 -> k < 2 ^ 24 -> fin g -> scaled g * 1000 <= k * 2 ^ 149 ->
  real (F32.div (F32.of_Z n) F32.f1000) /\
  SFleb g (F32.div (F32.of_Z n) F32.f1000) = true.
Proof.
  intros Hk Hn Hk24 Fg Hg.
  destruct (of_Z_range n ltac:(lia)) as (m & e & Ha & Hv & Hm & He).
  pose proof (of_Z_rounded n) as Hr. fold (F32.of_Z n) in Hr. rewrite Ha in Hr.
  destruct (representable k 0 ltac:(lia) ltac:(lia)) as (gk & Fk & Sk).
  change (0 + 149) with 149 in Sk.
  destruct Hr as (_ & _ & Hc). destruct (Hc gk (proj1 Fk) (proj2 Fk)) as (Hlo & _).
  pose proof (pow2_pos 149 ltac:(lia)) as HP.
  assert (Fa : fin (S754_finite false m e)) by (split; [exact Hv | reflexivity]).
  assert (Hka : k * 2 ^ 149 <= scaled (S754_finite false m e)).
  { rewrite <- Sk. apply (leb_scaled gk _ Fk Fa). apply Hlo. rewrite Sk. nia. }
  rewrite Ha.
  assert (V1000 : bounded F32.prec F32.emax 16384000 (-14) = true) by reflexivity.
  pose proof (div_rounded m 16384000 e (-14) Hv V1000 Hm ltac:(closed_Z) ltac:(lia)) as Hd.
  change (S754_finite false 16384000 (-14)) with F32.f1000 in Hd.
  fold (F32.div (S754_finite false m e) F32.f1000) in Hd.
  split; [exact (rounded_real _ _ _ Hd)|].
  destruct Hd as (_ & _ & Hcd). destruct (Hcd g (proj1 Fg) (proj2 Fg)) as (Hlo' & _).
  apply Hlo'.
  assert (S1000 : scaled F32.f1000 = 1000 * 2 ^ 149) by reflexivity.
  rewrite S1000.
  set (P := 2 ^ 149) in *. set (A := scaled (S754_finite false m e)) in *.
  set (G := scaled g) in *. nia.
Qed.

Lemma frame_dt_ticking (i : FrameInput) (s : World) :
  (nowTicks i - lastTicks s) mod 2 ^ 64 <> 0 ->
  fin (frame_dt i s) /\ 2 ^ 139 <= scaled (frame_dt i s) <= scaled F32.f0_05.
Proof.
  intros Hn0.
  pose proof (Z.mod_pos_bound (nowTicks i - lastTicks s) (2 ^ 64) ltac:(reflexivity)) as Hn.
  unfold frame_dt, raw_dt. change uint64_modulus with (2 ^ 64).
  set (n := (nowTicks i - lastTicks s) mod 2 ^ 64) in *.
  assert (F1 : fin f2m10) by (split; reflexivity).
  assert (F2 : fin F32.f0_05) by (split; reflexivity).
  destruct (raw_dt_ge n 1 f2m10 ltac:(lia) ltac:(lia) ltac:(reflexivity) F1 ltac:(closed_Z))
    as (Hreal & Hlo).
  unfold clamp_dt. destruct (F32.gtb _ F32.f0_05) eqn:Hg.
  - split; [exact F2|]. split; [closed_Z | lia].
  - assert (Hhi : SFleb (F32.div (F32.of_Z n) F32.f1000) F32.f0_05 = true)
      by (apply not_ltb_leb; [apply Hreal | reflexivity | exact Hg]).
    destruct (between_fin _ _ _ Hreal F1 F2 Hlo Hhi) as (Hf & Hs).
    split; [exact Hf|]. change (scaled f2m10) with (2 ^ 139) in Hs. exact Hs.
Qed.

(** X6: the delta time of a frame is 0 exactly when the tick counter has
    not moved since the frame before (modulo [2^64]); when it has moved the
    delta time is positive, and at least [2^-10] (lines 144-149). *)
Theorem dt_zero_iff_no_tick (i : FrameInput) (s : World) :
  (frame_dt i s = F32.zero <-> (nowTicks i - lastTicks s) mod 2 ^ 64 = 0) /\
  ((nowTicks i - lastTicks s) mod 2 ^ 64 <> 0 ->
     F32.gtb (frame_dt i s) F32.zero = true /\ F32.leb f2m10 (frame_dt i s) = true).
Proof.
  assert (Hpos : (nowTicks i - lastTicks s) mod 2 ^ 64 <> 0 ->
                 fin (frame_dt i s) /\ 2 ^ 139 <= scaled (frame_dt i s))
    by (intros H; destruct (frame_dt_ticking i s H) as (? & ? & _); now split).
  pose proof (pow2_pos 139 ltac:(lia)) as HP.
  split; [split|].
  - intros E. destruct (Z.eq_dec ((nowTicks i - lastTicks s) mod 2 ^ 64) 0) as [|Hn]; [assumption|].
    destruct (Hpos Hn) as (_ & Hs). rewrite E in Hs. simpl scaled in Hs. lia.
  - intros E. unfold frame_dt, raw_dt. change uint64_modulus with (2 ^ 64). rewrite E.
    reflexivity.
  - intros Hn. destruct (Hpos Hn) as (Hf & Hs). split.
    + apply (ltb_scaled F32.zero _ fin_zero Hf). simpl scaled. lia.
    + apply (leb_scaled f2m10 _ (conj eq_refl eq_refl) Hf).
      change (scaled f2m10) with (2 ^ 139). exact Hs.
Qed.

(** X7: from 50 elapsed milliseconds on the delta time is the cap
    [0.05f], whatever the elapsed time is; a tick counter that went
    backwards wraps around to a huge elapsed time and gives the cap as well
    (lines 144-149). *)
Theorem dt_saturates (i : FrameInput) (s : World) :
  50 <= (nowTicks i - lastTicks s) mod 2 ^ 64 -> frame_dt i s = F32.f0_05.
Proof.
  intros H50.
  pose proof (Z.mod_pos_bound (nowTicks i - lastTicks s) (2 ^ 64) ltac:(reflexivity)) as Hn.
  unfold frame_dt, raw_dt. change uint64_modulus with (2 ^ 64).
  set (n := (nowTicks i - lastTicks s) mod 2 ^ 64) in *.
  destruct (Z.eq_dec n 50) as [-> | Hne]; [reflexivity|].
  assert (Fg : fin f0_05_next) by (split; reflexivity).
  destruct (raw_dt_ge n 51 f0_05_next ltac:(lia) ltac:(lia) ltac:(reflexivity) Fg
              ltac:(closed_Z)) as (Hreal & Hlo).
  unfold clamp_dt.
  assert (Hgt : F32.gtb (F32.div (F32.of_Z n) F32.f1000) F32.f0_05 = true).
  { unfold F32.gtb.
    apply (ltb_leb_trans F32.f0_05 f0_05_next _ (conj eq_refl eq_refl) Fg Hreal);
      [apply Z.ltb_lt; vm_compute; reflexivity | exact Hlo]. }
  now rewrite Hgt.
Qed.

Lemma dt_saturates_witness :
  frame_dt (mkInput [] (mkKeyboard false false false false) 5)
           (initial_world [] 1000 true true true) = F32.f0_05.
Proof.
  apply (dt_saturates (mkInput [] (mkKeyboard false false false false) 5)
           (initial_world [] 1000 true true true)).
  vm_compute. discriminate.
Defined.

Lemma animate_up_progress (cur step : float) :
  angle_ok cur -> scaled cur < scaled F32.f180 -> fin step -> 2 ^ 148 <= scaled step ->
  let a := F32.add cur step in
  let a' : float := if F32.gtb a F32.f180 then F32.f180 else a in
  a' = F32.f180 \/ scaled cur + 2 ^ 147 <= scaled a'.
Proof.
  intros Hok Hlt Fs Hs a a'.
  assert (Hr : rounded (scaled cur + scaled step) 1 a)
    by (apply add_rounded; solve [apply Hok | apply Fs]).
  pose proof (rounded_real _ _ _ Hr) as Hreal. destruct Hr as (_ & _ & Hc).
  destruct Hok as (Fc & Hc0 & Hc1).
  assert (S180 : scaled F32.f180 = 11796480 * 2 ^ 133) by reflexivity.
  assert (E148 : 2 ^ 148 = 32768 * 2 ^ 133) by reflexivity.
  assert (E147 : 2 ^ 147 = 16384 * 2 ^ 133) by reflexivity.
  assert (E24 : 2 ^ 24 = 16777216) by reflexivity.
  pose proof (pow2_pos 133 ltac:(lia)) as HP.
  pose proof (Z.div_mod (scaled cur + 2 ^ 148) (2 ^ 133) ltac:(lia)) as Hdm.
  pose proof (Z.mod_pos_bound (scaled cur + 2 ^ 148) (2 ^ 133) HP) as Hmod.
  set (M := (scaled cur + 2 ^ 148) / 2 ^ 133) in *.
  set (r := (scaled cur + 2 ^ 148) mod 2 ^ 133) in *.
  rewrite S180 in *. rewrite E148 in *. rewrite E147.
  set (P := 2 ^ 133) in *.
  assert (HM : 0 <= M < 2 ^ 24) by (rewrite E24; nia).
  destruct (representable M (-16) HM ltac:(lia)) as (g & Fg & Sg).
  change (2 ^ (-16 + 149)) with P in Sg.
  destruct (Hc g (proj1 Fg) (proj2 Fg)) as (Hlo & _). specialize (Hlo ltac:(lia)).
  subst a'. destruct (F32.gtb a F32.f180) eqn:Hgt; [left; reflexivity | right].
  assert (Hhi : SFleb a F32.f180 = true)
    by (apply not_ltb_leb; [apply Hreal | reflexivity | exact Hgt]).
  destruct (between_fin _ _ _ Hreal Fg fin_f180 Hlo Hhi) as (Fa & Ha1 & Ha2).
  lia.
Qed.

Lemma animate_down_progress (cur step : float) :
  angle_ok cur -> 0 < scaled cur -> fin step -> 2 ^ 148 <= scaled step ->
  let a := F32.sub cur step in
  let a' : float := if F32.ltb a F32.zero then F32.zero else a in
  scaled a' = 0 \/ scaled a' + 2 ^ 147 <= scaled cur.
Proof.
  intros Hok Hlt Fs Hs a a'.
  assert (Hr : rounded (scaled cur - scaled step) 1 a)
    by (apply sub_rounded; solve [apply Hok | apply Fs]).
  pose proof (rounded_real _ _ _ Hr) as Hreal. destruct Hr as (_ & _ & Hc).
  destruct Hok as (Fc & Hc0 & Hc1).
  assert (S180 : scaled F32.f180 = 11796480 * 2 ^ 133) by reflexivity.
  assert (E148 : 2 ^ 148 = 32768 * 2 ^ 133) by reflexivity.
  assert (E147 : 2 ^ 147 = 16384 * 2 ^ 133) by reflexivity.
  assert (E24 : 2 ^ 24 = 16777216) by reflexivity.
  pose proof (pow2_pos 133 ltac:(lia)) as HP.
  subst a'. destruct (F32.ltb a F32.zero) eqn:Hneg; [left; reflexivity|].
  assert (Hlo : SFleb F32.zero a = true)
    by (apply not_ltb_leb; [reflexivity | apply Hreal | exact Hneg]).
  destruct (Z.le_gt_cases (scaled cur) (2 ^ 148)) as [Hsmall | Hbig].
  - left. destruct (Hc F32.zero (proj1 fin_zero) (proj2 fin_zero)) as (_ & Hhi).
    change (scaled F32.zero) with 0 in Hhi. specialize (Hhi ltac:(lia)).
    destruct (between_fin _ _ _ Hreal fin_zero fin_zero Hlo Hhi) as (_ & H1 & H2).
    change (scaled F32.zero) with 0 in H1, H2. lia.
  - right.
    pose proof (Z.div_mod (scaled cur - 2 ^ 148 + (2 ^ 133 - 1)) (2 ^ 133) ltac:(lia)) as Hdm.
    pose proof (Z.mod_pos_bound (scaled cur - 2 ^ 148 + (2 ^ 133 - 1)) (2 ^ 133) HP) as Hmod.
    set (M := (scaled cur - 2 ^ 148 + (2 ^ 133 - 1)) / 2 ^ 133) in *.
    set (r := (scaled cur - 2 ^ 148 + (2 ^ 133 - 1)) mod 2 ^ 133) in *.
    rewrite S180 in *. rewrite E148 in *. rewrite E147.
    set (P := 2 ^ 133) in *.
    assert (HM : 0 <= M < 2 ^ 24) by (rewrite E24; nia).
    destruct (representable M (-16) HM ltac:(lia)) as (g & Fg & Sg).
    change (2 ^ (-16 + 149)) with P in Sg.
    destruct (Hc g (proj1 Fg) (proj2 Fg)) as (_ & Hhi). specialize (Hhi ltac:(lia)).
    destruct (between_fin _ _ _ Hreal fin_zero Fg Hlo Hhi) as (Fa & Ha1 & Ha2).
    lia.
Qed.

(** A frame with a positive delta time reaches the target angle or moves
    the angle at least a quarter of a degree towards it. *)
Lemma animate_progress (cur tgt dt : float) :
  angle_ok cur -> tgt = F32.zero \/ tgt = F32.f180 ->
  fin dt -> 2 ^ 139 <= scaled dt <= scaled F32.f0_05 ->
  let a' := animate cur tgt dt in
  angle_ok a' /\
  (scaled a' = scaled tgt \/
   Z.abs (scaled a' - scaled tgt) + 2 ^ 147 <= Z.abs (scaled cur - scaled tgt)).
Proof.
  intros Hok Htgt Fd Hd a'.
  assert (Hcd : clock_dt dt) by (right; now split).
  pose proof (animate_spec cur tgt dt Hok Htgt Hcd) as Hsp. cbv zeta in Hsp.
  destruct Hsp as (Hok' & Hup & Hdn & Heq). fold a' in Hok', Hup, Hdn, Heq.
  split; [exact Hok'|].
  destruct (rotation_step dt Fd Hd) as (Fs & Hs).
  pose proof Hok as (Fc & Hc0 & Hc1).
  assert (Ft : fin tgt) by (destruct Htgt as [-> | ->]; [apply fin_zero | apply fin_f180]).
  pose proof (pow2_pos 147 ltac:(lia)) as HP.
  destruct (F32.ltb cur tgt) eqn:Hlt.
  - destruct (Hup eq_refl) as ((H1 & H2) & _).
    assert (Ht : tgt = F32.f180).
    { destruct Htgt as [-> | ->]; [|reflexivity].
      apply (ltb_scaled cur F32.zero Fc fin_zero) in Hlt. simpl scaled in Hlt. lia. }
    subst tgt. apply (ltb_scaled cur F32.f180 Fc fin_f180) in Hlt.
    pose proof (animate_up_progress cur (F32.mul angleSpeed dt) Hok Hlt Fs Hs) as Hp.
    cbv zeta in Hp.
    assert (Ea : a' = if F32.gtb (F32.add cur (F32.mul angleSpeed dt)) F32.f180
                      then F32.f180 else F32.add cur (F32.mul angleSpeed dt)).
    { subst a'. unfold animate.
      rewrite (proj2 (ltb_scaled cur F32.f180 Fc fin_f180) Hlt). reflexivity. }
    rewrite <- Ea in Hp. destruct Hp as [-> | Hp]; [left; reflexivity | right; lia].
  - destruct (F32.gtb cur tgt) eqn:Hgt.
    + destruct (Hdn eq_refl) as ((H1 & H2) & _).
      assert (Ht : tgt = F32.zero).
      { destruct Htgt as [-> | ->]; [reflexivity|].
        apply (ltb_scaled F32.f180 cur fin_f180 Fc) in Hgt. lia. }
      subst tgt. pose proof Hgt as Hgt'.
      apply (ltb_scaled F32.zero cur fin_zero Fc) in Hgt'.
      change (scaled F32.zero) with 0 in *.
      pose proof (animate_down_progress cur (F32.mul angleSpeed dt) Hok Hgt' Fs Hs) as Hp.
      cbv zeta in Hp.
      assert (Ea : a' = if F32.ltb (F32.sub cur (F32.mul angleSpeed dt)) F32.zero
                        then F32.zero else F32.sub cur (F32.mul angleSpeed dt)).
      { subst a'. unfold animate. rewrite Hlt. unfold F32.gtb in Hgt. unfold F32.gtb.
        rewrite Hgt. reflexivity. }
      rewrite <- Ea in Hp. destruct Hp as [Hp | Hp]; [left; exact Hp | right; lia].
    + left. rewrite (Heq eq_refl eq_refl).
      apply (ltb_false_scaled cur tgt Fc Ft) in Hlt.
      apply (ltb_false_scaled tgt cur Ft Fc) in Hgt. lia.
Qed.

Lemma frame_lastTicks hasInt (i : FrameInput) (s : World) :
  lastTicks (frame hasInt i s) = nowTicks i.
Proof.
  unfold frame, frame_gen.
  match goal with
  | |- lastTicks (update_gen ?f ?b ?d ?t) = _ =>
      destruct (update_gen_untouched f b d t) as (-> & _)
  end.
  reflexivity.
Qed.

Lemma no_flip_filter (evs : list SDL_Event) :
  forallb (fun e => negb (is_flip_event e)) evs = true -> filter is_flip_event evs = [].
Proof.
  induction evs as [|e evs IH]; [reflexivity|]. simpl.
  destruct (is_flip_event e); [discriminate|]. exact IH.
Qed.

Lemma run_rotation hasInt (inputs : list FrameInput) :
  forall (s : World) (D : Z),
  angle_inv s -> running s = true -> ticking (lastTicks s) inputs = true ->
  Z.abs (scaled (playerAngle s) - scaled (targetAngle s)) <= D ->
  let s' := last (run hasInt inputs s) s in
  targetAngle s' = targetAngle s /\ angle_ok (playerAngle s') /\
  (scaled (playerAngle s') = scaled (targetAngle s) \/
   Z.abs (scaled (playerAngle s') - scaled (targetAngle s)) +
     Z.of_nat (length inputs) * 2 ^ 147 <= D).
Proof.
  pose proof (pow2_pos 147 ltac:(lia)) as HP. set (Q := 2 ^ 147) in *.
  induction inputs as [|i rest IH]; intros s D Hinv Hrun Htick HD; cbv zeta.
  - cbn [run run_gen last length]. split; [reflexivity|]. split; [apply Hinv|].
    right. lia.
  - cbn [ticking] in Htick.
    apply andb_prop in Htick. destruct Htick as (Htick & Hrest).
    apply andb_prop in Htick. destruct Htick as (Htick & Hq).
    apply andb_prop in Htick. destruct Htick as (Hn & Hnf).
    apply negb_true_iff in Hn, Hq. apply Z.eqb_neq in Hn. apply no_flip_filter in Hnf.
    rewrite run_cons, Hrun.
    destruct (frame_dt_ticking i s Hn) as (Fd & Hd).
    destruct (frame_angle hasInt i s) as (Hnew & Ht').
    destruct (poll_events_fields (events i) s) as (_ & _ & _ & _ & Hsame).
    specialize (Hsame Hnf). rewrite Hsame in Hnew, Ht'.
    destruct Hinv as (Hok & Htgt).
    pose proof (animate_progress (playerAngle s) (targetAngle s) (frame_dt i s)
                  Hok Htgt Fd Hd) as Hp.
    cbv zeta in Hp. rewrite <- Hnew in Hp. destruct Hp as (Hok1 & Hp).
    pose proof (frame_running hasInt i s) as Hr1. rewrite Hrun, Hq in Hr1. cbn in Hr1.
    pose proof (frame_lastTicks hasInt i s) as Hl1.
    set (s1 := frame hasInt i s) in *.
    assert (Hinv1 : angle_inv s1) by (split; [exact Hok1 | rewrite Ht'; exact Htgt]).
    rewrite <- Hl1 in Hrest.
    assert (Hlast : last (s1 :: run hasInt rest s1) s = last (run hasInt rest s1) s1).
    { destruct (run hasInt rest s1) as [|s2 l]; [reflexivity|].
      change (last (s1 :: s2 :: l) s) with (last (s2 :: l) s). apply last_default. }
    rewrite Hlast.
    assert (HD1 : Z.abs (scaled (playerAngle s1) - scaled (targetAngle s1)) <=
                  Z.max 0 (D - Q)) by (rewrite Ht'; lia).
    pose proof (IH s1 (Z.max 0 (D - Q)) Hinv1 Hr1 Hrest HD1) as H. cbv zeta in H.
    rewrite Ht' in H. destruct H as (H1 & H2 & H3).
    split; [exact H1|]. split; [exact H2|].
    destruct H3 as [H3 | H3]; [left; exact H3|].
    cbn [length]. rewrite Nat2Z.inj_succ.
    destruct Hp as [Hp | Hp].
    + (* already at the target after this frame: the bound of the rest is 0 *)
      assert (HD0 : Z.abs (scaled (playerAngle s1) - scaled (targetAngle s1)) <= 0)
        by (rewrite Ht'; lia).
      pose proof (IH s1 0 Hinv1 Hr1 Hrest HD0) as H. cbv zeta in H.
      rewrite Ht' in H. destruct H as (_ & _ & [H | H]); [left; exact H|].
      left. lia.
    + right. lia.
Qed.

(** X8: the rotation animation completes (lines 151-158): from any angle
    of [[0, 180]], 720 frames in which the tick counter moves and no flip
    and no quit arrives bring [playerAngle] to [targetAngle], which has not
    changed.  Each such frame covers at least a quarter of a degree. *)
Theorem rotation_completes
  (hasInt : SDL_FRect -> SDL_FRect -> bool) (inputs : list FrameInput) (s : World) :
  angle_invariant s = true -> running s = true ->
  ticking (lastTicks s) inputs = true -> (720 <= length inputs)%nat ->
  let s' := last (run hasInt inputs s) s in
  F32.eqb (playerAngle s') (targetAngle s) = true /\ targetAngle s' = targetAngle s.
Proof.
  intros Hinv Hrun Htick Hlen. cbv zeta.
  apply angle_invariant_inv in Hinv. pose proof Hinv as (Hok & Htgt).
  assert (Ft : fin (targetAngle s))
    by (destruct Htgt as [-> | ->]; [apply fin_zero | apply fin_f180]).
  assert (HD : Z.abs (scaled (playerAngle s) - scaled (targetAngle s)) <= 720 * 2 ^ 147).
  { destruct Hok as (_ & H0 & H1).
    assert (S180 : scaled F32.f180 = 720 * 2 ^ 147) by reflexivity. rewrite S180 in H1.
    destruct Htgt as [-> | ->]; [change (scaled F32.zero) with 0 | rewrite S180]; lia. }
  pose proof (run_rotation hasInt inputs s _ Hinv Hrun Htick HD) as H. cbv zeta in H.
  destruct H as (H1 & H2 & H3). split; [|exact H1].
  apply (eqb_scaled _ _ (proj1 H2) Ft).
  pose proof (pow2_pos 147 ltac:(lia)) as HP. set (Q := 2 ^ 147) in *.
  destruct H3 as [H3 | H3]; [exact H3|]. nia.
Qed.

Lemma rotation_completes_witness :
  F32.eqb (playerAngle (last (run has_intersection_positive_extent (steady_frames 720)
                                  flipped_world) flipped_world))
          (targetAngle flipped_world) = true.
Proof.
  refine (proj1 (rotation_completes has_intersection_positive_extent (steady_frames 720)
                   flipped_world eq_refl eq_refl _ _)).
  - vm_compute. reflexivity.
  - apply Nat.leb_le. vm_compute. reflexivity.
Defined.

(** ** Gravity *)

Lemma clock_dt_bounds (dt : float) :
  clock_dt dt -> fin dt /\ 0 <= scaled dt <= 13421773 * 2 ^ 121.
Proof.
  assert (Sdt : scaled F32.f0_05 = 13421773 * 2 ^ 121) by reflexivity.
  pose proof (pow2_pos 121 ltac:(lia)). pose proof (pow2_pos 139 ltac:(lia)).
  intros [-> | (Hf & Hs)].
  - split; [apply fin_zero|]. change (scaled F32.zero) with 0. lia.
  - split; [exact Hf|]. rewrite Sdt in Hs. lia.
Qed.

(** The velocity change [gravity * gravityDir * dt] of one frame is a
    finite number of the sign of [gravityDir], at most 64 in size. *)
Lemma gravity_acc (d dt : float) :
  d = F32.one \/ d = F32.neg_one -> clock_dt dt ->
  fin (F32.mul (F32.mul gravity d) dt) /\
  (d = F32.one -> 0 <= scaled (F32.mul (F32.mul gravity d) dt)) /\
  (d = F32.neg_one -> scaled (F32.mul (F32.mul gravity d) dt) <= 0).
Proof.
  intros Hd Hdt. destruct (clock_dt_bounds dt Hdt) as (Fd & Hd0 & Hd1).
  assert (F64 : fin F32.f64) by (split; reflexivity).
  assert (F64n : fin (SFopp F32.f64)) by (split; reflexivity).
  assert (S64 : scaled F32.f64 = 64 * 2 ^ 149) by reflexivity.
  assert (S64n : scaled (SFopp F32.f64) = - (64 * 2 ^ 149)) by reflexivity.
  assert (E2 : 2 ^ 149 = 268435456 * 2 ^ 121) by reflexivity.
  pose proof (pow2_pos 149 ltac:(lia)) as HP. pose proof (pow2_pos 121 ltac:(lia)) as HR.
  destruct Hd as [-> | ->].
  - change (F32.mul gravity F32.one) with F32.f900.
    assert (F900 : fin F32.f900) by (split; reflexivity).
    assert (S900 : scaled F32.f900 = 900 * 2 ^ 149) by reflexivity.
    pose proof (mul_rounded F32.f900 dt (proj1 F900) (proj1 Fd) (proj2 F900) (proj2 Fd)) as Hr.
    fold (F32.mul F32.f900 dt) in Hr. set (acc := F32.mul F32.f900 dt) in *.
    pose proof (rounded_real _ _ _ Hr) as Hreal. destruct Hr as (_ & _ & Hc).
    destruct (Hc F32.zero (proj1 fin_zero) (proj2 fin_zero)) as (Hlo & _).
    destruct (Hc F32.f64 (proj1 F64) (proj2 F64)) as (_ & Hhi).
    rewrite S900 in Hlo, Hhi. rewrite S64 in Hhi. change (scaled F32.zero) with 0 in Hlo.
    assert (Hlo' : SFleb F32.zero acc = true).
    { apply Hlo. set (P := 2 ^ 149) in *. nia. }
    assert (Hhi' : SFleb acc F32.f64 = true).
    { apply Hhi. rewrite E2 at 2. set (P := 2 ^ 149) in *. set (R := 2 ^ 121) in *. nia. }
    destruct (between_fin _ _ _ Hreal fin_zero F64 Hlo' Hhi') as (Fa & Ha0 & _).
    change (scaled F32.zero) with 0 in Ha0.
    split; [exact Fa|]. split; [intros _; exact Ha0 | discriminate].
  - change (F32.mul gravity F32.neg_one) with (SFopp F32.f900).
    assert (F900 : fin (SFopp F32.f900)) by (split; reflexivity).
    assert (S900 : scaled (SFopp F32.f900) = - (900 * 2 ^ 149)) by reflexivity.
    pose proof (mul_rounded (SFopp F32.f900) dt (proj1 F900) (proj1 Fd) (proj2 F900) (proj2 Fd))
      as Hr.
    fold (F32.mul (SFopp F32.f900) dt) in Hr. set (acc := F32.mul (SFopp F32.f900) dt) in *.
    pose proof (rounded_real _ _ _ Hr) as Hreal. destruct Hr as (_ & _ & Hc).
    destruct (Hc F32.zero (proj1 fin_zero) (proj2 fin_zero)) as (_ & Hhi).
    destruct (Hc (SFopp F32.f64) (proj1 F64n) (proj2 F64n)) as (Hlo & _).
    rewrite S900 in Hlo, Hhi. rewrite S64n in Hlo. change (scaled F32.zero) with 0 in Hhi.
    assert (Hhi' : SFleb acc F32.zero = true).
    { apply Hhi. set (P := 2 ^ 149) in *. nia. }
    assert (Hlo' : SFleb (SFopp F32.f64) acc = true).
    { apply Hlo. rewrite E2 at 2. set (P := 2 ^ 149) in *. set (R := 2 ^ 121) in *. nia. }
    destruct (between_fin _ _ _ Hreal F64n fin_zero Hlo' Hhi') as (Fa & _ & Ha0).
    change (scaled F32.zero) with 0 in Ha0.
    split; [exact Fa|]. split; [discriminate | intros _; exact Ha0].
Qed.

Lemma leb_refl_real (v : float) : real v -> SFleb v v = true.
Proof.
  intros Rv. destruct (real_cases v Rv) as [Fv | [-> | ->]]; try reflexivity.
  apply (leb_scaled v v Fv Fv). lia.
Qed.

Lemma add_real_mono (v acc : float) :
  real v -> fin acc ->
  real (F32.add v acc) /\
  (0 <= scaled acc -> SFleb v (F32.add v acc) = true) /\
  (scaled acc <= 0 -> SFleb (F32.add v acc) v = true).
Proof.
  intros Rv Fa. destruct (real_cases v Rv) as [Fv | Hinf].
  - pose proof (add_rounded v acc (proj1 Fv) (proj1 Fa) (proj2 Fv) (proj2 Fa)) as Hr.
    fold (F32.add v acc) in Hr. split; [exact (rounded_real _ _ _ Hr)|].
    destruct Hr as (_ & _ & Hc). destruct (Hc v (proj1 Fv) (proj2 Fv)) as (Hlo & Hhi).
    split; intros H; [apply Hlo | apply Hhi]; lia.
  - assert (E : F32.add v acc = v).
    { destruct Fa as (_ & Hf).
      destruct Hinf as [-> | ->]; destruct acc; try discriminate Hf; reflexivity. }
    rewrite E. split; [exact Rv|]. split; intros _; now apply leb_refl_real.
Qed.

(** X9: gravity pulls in the direction of [gravityDir] (line 161): with
    the delta time of any frame, [vy += gravity * gravityDir * dt] leaves
    [vy] a number, not smaller than before when [gravityDir] is +1 and not
    larger when it is -1. *)
Theorem gravity_pulls (now last : Z) (s : World) :
  dir_ok s -> F32.valid (vy s) = true -> F32.is_nan (vy s) = false ->
  let s' := apply_gravity (clamp_dt (raw_dt now last)) s in
  F32.is_nan (vy s') = false /\
  (gravityDir s = F32.one -> F32.leb (vy s) (vy s') = true) /\
  (gravityDir s = F32.neg_one -> F32.leb (vy s') (vy s) = true).
Proof.
  intros Hd Hv Hn. cbv zeta. unfold apply_gravity. cbn [vy set_vy].
  destruct (gravity_acc (gravityDir s) _ Hd (clock_dt_clamp now last)) as (Fa & Hp & Hm).
  destruct (add_real_mono (vy s) _ (conj Hv Hn) Fa) as (Hr & Hup & Hdn).
  split; [apply Hr|]. unfold F32.leb. split; intros E; auto.
Qed.

Lemma gravity_pulls_witness :
  F32.leb (vy falling_world)
          (vy (apply_gravity (clamp_dt (raw_dt 16 0)) falling_world)) = true.
Proof.
  exact (proj1 (proj2 (gravity_pulls 16 0 falling_world (or_introl eq_refl) eq_refl eq_refl))
           eq_refl).
Defined.

(** ** The vertical velocity is a number *)

Lemma handle_event_vy (e : SDL_Event) (s : World) :
  vy (handle_event e s) = vy s \/ vy (handle_event e s) = F32.zero.
Proof.
  unfold handle_event. destruct (type e), (key e), (down e); auto.
Qed.

Lemma poll_events_vy (evs : list SDL_Event) (s : World) :
  vy (poll_events evs s) = vy s \/ vy (poll_events evs s) = F32.zero.
Proof.
  unfold poll_events. revert s. induction evs as [|e evs IH]; intros s; simpl; [auto|].
  destruct (IH (handle_event e s)) as [-> | ->]; [apply handle_event_vy | auto].
Qed.

Lemma collide_wall_vy hasInt b oldX oldY (s : World) (wl : SDL_FRect) :
  vy (collide_wall_gen hasInt b oldX oldY s wl) = vy s \/
  vy (collide_wall_gen hasInt b oldX oldY s wl) = F32.zero.
Proof.
  unfold collide_wall_gen.
  repeat match goal with
         | |- context [if ?c then _ else _] => destruct c
         end; auto.
Qed.

Lemma fold_collide_vy hasInt b oldX oldY (ws : list SDL_FRect) (s : World) :
  vy (fold_left (collide_wall_gen hasInt b oldX oldY) ws s) = vy s \/
  vy (fold_left (collide_wall_gen hasInt b oldX oldY) ws s) = F32.zero.
Proof.
  revert s. induction ws as [|wl ws IH]; intros s; simpl; [auto|].
  destruct (IH (collide_wall_gen hasInt b oldX oldY s wl)) as [-> | ->];
    [apply collide_wall_vy | auto].
Qed.

Lemma update_vy hasInt b (dt : float) (s : World) :
  vy (update_gen hasInt b dt s) = F32.add (vy s) (F32.mul (F32.mul gravity (gravityDir s)) dt) \/
  vy (update_gen hasInt b dt s) = F32.zero.
Proof.
  unfold update_gen, collision_handling_gen. cbn [vy set_player].
  match goal with
  | |- context [fold_left (collide_wall_gen _ _ ?ox ?oy) ?l ?a] =>
      destruct (fold_collide_vy hasInt b ox oy l a) as [-> | ->]; [left | right; reflexivity]
  end.
  reflexivity.
Qed.

Lemma frame_vy_real hasInt (i : FrameInput) (s : World) :
  dir_ok s /\ real (vy s) -> dir_ok (frame hasInt i s) /\ real (vy (frame hasInt i s)).
Proof.
  intros (Hd & Hr).
  assert (Hd' : dir_ok (frame hasInt i s)).
  { pose proof (run_dir_ok hasInt [i] s Hd) as H. unfold run in H. cbn [run_gen] in H.
    destruct (running s) eqn:E.
    - now inversion H.
    - unfold dir_ok, frame, frame_gen.
      match goal with
      | |- gravityDir (update_gen ?f ?b ?d ?u) = _ \/ _ =>
          destruct (update_gen_untouched f b d u) as (_ & _ & _ & -> & _)
      end.
      cbn [gravityDir set_lastTicks set_vx].
      exact (poll_events_dir_ok (events i) s Hd). }
  split; [exact Hd'|].
  unfold frame, frame_gen.
  match goal with
  | |- real (vy (update_gen ?f ?b ?d ?u)) =>
      destruct (update_vy f b d u) as [-> | ->]; [|split; reflexivity]
  end.
  cbn [vy gravityDir set_lastTicks set_vx lastTicks].
  pose proof (poll_events_dir_ok (events i) s Hd) as Hd1.
  assert (Hr1 : real (vy (poll_events (events i) s))).
  { destruct (poll_events_vy (events i) s) as [-> | ->]; [exact Hr | split; reflexivity]. }
  destruct (gravity_acc (gravityDir (poll_events (events i) s))
              (clamp_dt (raw_dt (nowTicks i) (lastTicks (poll_events (events i) s))))
              Hd1 (clock_dt_clamp _ _)) as (Fa & _).
  exact (proj1 (add_real_mono _ _ Hr1 Fa)).
Qed.

(** X10: the vertical velocity is never NaN: in every frame of any run
    that starts with [gravityDir] +1 or -1 and [vy] a number, as [main]
    does, [vy] is a valid number (possibly an infinity) and [gravityDir] is
    still +1 or -1 (lines 123-124, 161, 192, 196). *)
Theorem vy_never_nan
  (hasInt : SDL_FRect -> SDL_FRect -> bool) (inputs : list FrameInput) (s : World) :
  dir_ok s -> F32.valid (vy s) = true -> F32.is_nan (vy s) = false ->
  Forall (fun s' => F32.is_nan (vy s') = false /\ F32.valid (vy s') = true /\ dir_ok s')
         (run hasInt inputs s).
Proof.
  intros Hd Hv Hn.
  apply (run_Forall hasInt (fun t => dir_ok t /\ real (vy t))
           (fun t => F32.is_nan (vy t) = false /\ F32.valid (vy t) = true /\ dir_ok t)).
  - intros i t Ht. destruct (frame_vy_real hasInt i t Ht) as (H1 & H2 & H3).
    split; [split; [exact H1 | split; assumption]|]. now repeat split.
  - split; [exact Hd | split; assumption].
Qed.

Lemma vy_never_nan_witness :
  Forall (fun s' => F32.is_nan (vy s') = false /\ F32.valid (vy s') = true /\ dir_ok s')
         (run has_intersection_positive_extent (steady_frames 3) flipped_world).
Proof.
  apply (vy_never_nan has_intersection_positive_extent (steady_frames 3) flipped_world).
  - right. reflexivity.
  - reflexivity.
  - reflexivity.
Defined.

(** ** The tile loops *)

(** X11: a tile loop that ends (lines 89-96) has only appended to the
    walls: fewer tiles than it had fuel, all at the height given, [tileW]
    wide and [tileH] high, each with its left edge left of 800, the first at
    the start value and each next one [tileW] further right; and the
    position after the last tile is not left of 800. *)
Theorem tile_row_appends
  (fuel : nat) (top cx : float) (acc r : list SDL_FRect) :
  tile_row fuel top cx acc = Some r ->
  exists tiles,
    r = acc ++ tiles /\ (length tiles < fuel)%nat /\
    Forall (fun t => y t = top /\ w t = tileW /\ h t = tileH /\
                     F32.ltb (x t) F32.f800 = true) tiles /\
    (forall d, tiles <> [] -> x (nth 0 tiles d) = cx) /\
    (forall d k, (S k < length tiles)%nat ->
       x (nth (S k) tiles d) = F32.add (x (nth k tiles d)) tileW) /\
    F32.ltb (fold_left (fun c _ => F32.add c tileW) tiles cx) F32.f800 = false.
Proof.
  revert cx acc. induction fuel as [|fuel IH]; intros cx acc; cbn [tile_row]; [discriminate|].
  destruct (F32.ltb cx F32.f800) eqn:Hlt.
  - intros H. destruct (IH _ _ H) as (tiles & -> & Hlen & Hall & Hhd & Hstep & Hend).
    exists (mkRect cx top tileW tileH :: tiles).
    split; [now rewrite <- app_assoc|]. split; [cbn [length]; lia|].
    split; [constructor; [now repeat split | exact Hall]|].
    split; [reflexivity|]. split; [|exact Hend].
    intros d [|k] Hk; cbn [length] in Hk.
    + cbn [nth x]. apply Hhd. destruct tiles; [cbn in Hk; lia | discriminate].
    + change (x (nth (S k) tiles d) = F32.add (x (nth k tiles d)) tileW). apply Hstep. lia.
  - intros [= <-]. exists []. split; [now rewrite app_nil_r|]. split; [cbn; lia|].
    split; [constructor|]. split; [congruence|]. split; [cbn; lia | exact Hlt].
Qed.

Lemma tile_row_appends_witness :
  exists tiles,
    [mkRect (F32.of_Z 768) F32.zero tileW tileH] = [] ++ tiles /\ (length tiles < 2)%nat /\
    Forall (fun t => y t = F32.zero /\ w t = tileW /\ h t = tileH /\
                     F32.ltb (x t) F32.f800 = true) tiles /\
    (forall d, tiles <> [] -> x (nth 0 tiles d) = F32.of_Z 768) /\
    (forall d k, (S k < length tiles)%nat ->
       x (nth (S k) tiles d) = F32.add (x (nth k tiles d)) tileW) /\
    F32.ltb (fold_left (fun c _ => F32.add c tileW) tiles (F32.of_Z 768)) F32.f800 = false.
Proof.
  apply (tile_row_appends 2 F32.zero (F32.of_Z 768) []
           [mkRect (F32.of_Z 768) F32.zero tileW tileH]).
  vm_compute. reflexivity.
Defined.

Lemma tile_row_less_fuel (fuel k : nat) (top cx : float) (acc : list SDL_FRect) :
  tile_row (fuel + k) top cx acc = None -> tile_row fuel top cx acc = None.
Proof.
  intros H. destruct (tile_row fuel top cx acc) as [r|] eqn:E; [|reflexivity].
  rewrite (tile_row_more_fuel fuel k _ _ _ _ E) in H. discriminate H.
Qed.

(** X12: the two tile loops of [main] take 14 evaluations of their
    condition each, and with that many the walls are 13 floor tiles at
    y = 560 and 13 ceiling tiles at y = 0, with left edges 0, 64, ..., 768
    computed without rounding error, followed by the two platforms
    (lines 85-100). *)
Theorem level_is_built (fuel : nat) :
  build_walls fuel = if (14 <=? fuel)%nat then Some level_layout else None.
Proof.
  destruct (14 <=? fuel)%nat eqn:E.
  - apply Nat.leb_le in E. rewrite (proj1 (build_walls_level fuel E)).
    vm_compute. reflexivity.
  - apply Nat.leb_gt in E. unfold build_walls.
    rewrite (tile_row_less_fuel fuel (13 - fuel)); [reflexivity|].
    replace (fuel + (13 - fuel))%nat with 13%nat by lia. vm_compute. reflexivity.
Qed.

(** ** Any number of flips in one frame *)

Lemma handle_other_event_physics (e : SDL_Event) (s : World) :
  is_flip_event e = false ->
  gravityDir (handle_event e s) = gravityDir s /\ vy (handle_event e s) = vy s /\
  targetAngle (handle_event e s) = targetAngle s /\ cout (handle_event e s) = cout s.
Proof.
  unfold is_flip_event, handle_event.
  destruct (type e), (key e), (down e); intros H; try discriminate H; now repeat split.
Qed.

Lemma target_of_flip (d : float) :
  d = F32.one \/ d = F32.neg_one ->
  F32.mul d F32.neg_one = SFopp d /\
  (if F32.gtb (SFopp d) F32.zero then F32.zero else F32.f180) = target_of_dir (SFopp d).
Proof. intros [-> | ->]; split; reflexivity. Qed.

(** X13: the event loop of one frame (lines 110-135) handles every flip
    event it is given: after [n] of them [gravityDir] is the old one for an
    even [n] and its negation for an odd one, [n] lines were written, with
    no flip [vy], [targetAngle] and the output are unchanged, and with at
    least one [vy] is 0 and [targetAngle] is the angle of the final
    [gravityDir]. *)
Theorem poll_events_parity (evs : list SDL_Event) (s : World) :
  dir_ok s ->
  let n := length (filter is_flip_event evs) in
  let s' := poll_events evs s in
  gravityDir s' = (if Nat.even n then gravityDir s else SFopp (gravityDir s)) /\
  length (cout s') = (length (cout s) + n)%nat /\
  (n = 0%nat -> vy s' = vy s /\ targetAngle s' = targetAngle s /\ cout s' = cout s) /\
  ((0 < n)%nat -> vy s' = F32.zero /\ targetAngle s' = target_of_dir (gravityDir s')).
Proof.
  cbv zeta. unfold poll_events. revert s.
  induction evs as [|e evs IH]; intros s Hd; cbn [filter fold_left].
  - cbn [length Nat.even]. split; [reflexivity|]. split; [lia|].
    split; [now repeat split | lia].
  - pose proof (handle_event_dir_ok e s Hd) as Hd1.
    destruct (IH (handle_event e s) Hd1) as (Hg & Hc & Hz & Hp).
    set (n := length (filter is_flip_event evs)) in *.
    destruct (is_flip_event e) eqn:He.
    + cbn [length]. fold n. rewrite Nat.even_succ, <- Nat.negb_even.
      rewrite (handle_flip_event e s He) in Hg, Hc, Hz, Hp |- *.
      cbv zeta in *. cbn [gravityDir vy targetAngle cout cout_line set_targetAngle set_vy
                           set_gravityDir length] in *.
      destruct (target_of_flip (gravityDir s) Hd) as (Em & Et). rewrite Em, Et in *.
      split.
      { rewrite Hg. destruct (Nat.even n); cbn [negb]; [reflexivity | apply SFopp_involutive]. }
      split; [lia|]. split; [lia|]. intros _.
      destruct (Nat.eq_dec n 0) as [E0 | Hn].
      * destruct (Hz E0) as (Hv & Ht & _). rewrite Hv, Ht, Hg, E0. now split.
      * apply Hp. lia.
    + destruct (handle_other_event_physics e s He) as (Eg & Ev & Et & Ec).
      fold n. rewrite Eg, Ec in *. rewrite Ev, Et in Hz.
      exact (conj Hg (conj Hc (conj Hz Hp))).
Qed.

Lemma poll_events_parity_witness :
  gravityDir (poll_events (press_held 2) falling_world) = SFopp (gravityDir falling_world).
Proof.
  exact (proj1 (poll_events_parity (press_held 2) falling_world (or_introl eq_refl))).
Defined.

(** ** Render *)

Lemma drawn_rects_app (a b : list RenderCall) :
  drawn_rects (a ++ b) = drawn_rects a ++ drawn_rects b.
Proof. apply flat_map_app. Qed.

Lemma drawn_rects_textured (ws : list SDL_FRect) :
  drawn_rects (map (SDL_RenderTexture TexWall) ws) = ws.
Proof. induction ws as [|wl ws IH]; [reflexivity|]. cbn. now f_equal. Qed.

Lemma drawn_rects_filled (ws : list SDL_FRect) :
  drawn_rects (map SDL_RenderFillRect ws) = ws.
Proof. induction ws as [|wl ws IH]; [reflexivity|]. cbn. now f_equal. Qed.

Lemma present_textured (ws : list SDL_FRect) :
  filter is_present (map (SDL_RenderTexture TexWall) ws) = [].
Proof. induction ws as [|wl ws IH]; [reflexivity | exact IH]. Qed.

Lemma present_filled (ws : list SDL_FRect) :
  filter is_present (map SDL_RenderFillRect ws) = [].
Proof. induction ws as [|wl ws IH]; [reflexivity | exact IH]. Qed.

Lemma render_presents_once (s : World) : filter is_present (render s) = [SDL_RenderPresent].
Proof.
  unfold render. rewrite !filter_app.
  destruct (texBg s), (texWall s), (texPlayer s); cbn [negb];
    change (filter is_present (?c :: map ?f ?l)) with (filter is_present (map f l));
    rewrite ?present_textured, ?present_filled; reflexivity.
Qed.

Lemma render_rotated (s : World) (t : Texture) (dst : SDL_FRect) (a : float) (c : float * float) :
  In (SDL_RenderTextureRotated t dst a c) (render s) ->
  texPlayer s = true /\ t = TexPlayer /\ dst = player s /\ a = playerAngle s /\
  c = (F32.div (w (player s)) f2_0, F32.div (h (player s)) f2_0).
Proof.
  unfold render. intros Hin.
  repeat (apply in_app_or in Hin; destruct Hin as [Hin | Hin]).
  - destruct (texBg s); cbn in Hin; intuition discriminate.
  - destruct (texWall s); [|destruct Hin as [Hin | Hin]; [discriminate|]];
      apply in_map_iff in Hin; destruct Hin as (? & Hin & _); discriminate.
  - destruct (texPlayer s); cbn in Hin; [|intuition discriminate].
    destruct Hin as [[= <- <- <- <-] | []]. now repeat split.
  - cbn in Hin. intuition discriminate.
Qed.

Lemma render_fill_rect (s : World) (r : SDL_FRect) :
  In (SDL_RenderFillRect r) (render s) -> In r (walls s) \/ r = player s.
Proof.
  unfold render. intros Hin.
  repeat (apply in_app_or in Hin; destruct Hin as [Hin | Hin]).
  - destruct (texBg s); cbn in Hin; intuition discriminate.
  - left. destruct (texWall s); [|destruct Hin as [Hin | Hin]; [discriminate|]];
      apply in_map_iff in Hin; destruct Hin as (r' & E & Hin); [discriminate|].
    now injection E as <-.
  - right. destruct (texPlayer s); cbn in Hin; [intuition discriminate|].
    destruct Hin as [Hin | [[= <-] | []]]; [discriminate | reflexivity].
  - cbn in Hin. intuition discriminate.
Qed.

Lemma render_texture (s : World) (t : Texture) (r : SDL_FRect) :
  In (SDL_RenderTexture t r) (render s) ->
  (t = TexWall /\ In r (walls s)) \/
  (t = TexBg /\ r = mkRect F32.zero F32.zero F32.f800 F32.f600).
Proof.
  unfold render. intros Hin.
  repeat (apply in_app_or in Hin; destruct Hin as [Hin | Hin]).
  - right. destruct (texBg s); cbn in Hin; [|intuition discriminate].
    destruct Hin as [[= <- <-] | []]. now split.
  - left. destruct (texWall s); [|destruct Hin as [Hin | Hin]; [discriminate|]];
      apply in_map_iff in Hin; destruct Hin as (r' & E & Hin); [|discriminate].
    injection E as <- <-. now split.
  - destruct (texPlayer s); cbn in Hin; intuition discriminate.
  - cbn in Hin. intuition discriminate.
Qed.

(** X14: the render half of a frame (lines 216-255) draws, on top of the
    background, the walls in their order and then the player, each at its
    collision rectangle, whichever textures are loaded; it presents once,
    as its last call; and the only rotated draw is the player texture at the
    player's rectangle by [playerAngle]. *)
Theorem render_draws_the_collision_rects (s : World) :
  drawn_rects (render s) = walls s ++ [player s] /\
  filter is_present (render s) = [SDL_RenderPresent] /\
  last (render s) SDL_RenderClear = SDL_RenderPresent /\
  (forall t dst a c, In (SDL_RenderTextureRotated t dst a c) (render s) ->
     texPlayer s = true /\ t = TexPlayer /\ dst = player s /\ a = playerAngle s).
Proof.
  split; [|split; [|split]].
  - unfold render. rewrite !drawn_rects_app.
    destruct (texBg s), (texWall s), (texPlayer s); cbn [negb];
      change (drawn_rects (?c :: map ?f ?l)) with (drawn_rects (map f l));
      rewrite ?drawn_rects_textured, ?drawn_rects_filled; reflexivity.
  - apply render_presents_once.
  - unfold render. rewrite !app_assoc. apply last_last.
  - intros t dst a c Hin.
    destruct (render_rotated s t dst a c Hin) as (H1 & H2 & H3 & H4 & _). now repeat split.
Qed.

(** ** The program around the loop *)

Lemma count_app (p : SdlCall -> bool) (a b : list SdlCall) :
  count p (a ++ b) = (count p a + count p b)%nat.
Proof. unfold count. now rewrite filter_app, length_app. Qed.

Lemma count_frame_calls (p : SdlCall -> bool) (tr : list SdlCall) :
  (forall c, is_frame_call c = true -> p c = false) ->
  forallb is_frame_call tr = true -> count p tr = 0%nat.
Proof.
  intros Hp. unfold count. induction tr as [|c tr IH]; [reflexivity|]. cbn [forallb filter].
  intros H. apply andb_prop in H. destruct H as (Hc & Htr). rewrite (Hp c Hc). now apply IH.
Qed.

Lemma frame_trace_calls (s s' : World) : forallb is_frame_call (frame_trace s s') = true.
Proof.
  unfold frame_trace. rewrite forallb_app. apply andb_true_intro. split.
  - induction (new_lines s s'); [reflexivity | assumption].
  - induction (render s'); [reflexivity | assumption].
Qed.

Lemma frame_trace_presents (s s' : World) : count is_present_call (frame_trace s s') = 1%nat.
Proof.
  unfold frame_trace. rewrite count_app.
  assert (H1 : forall l : list Output,
             count is_present_call (map (fun o => Cout (MsgFlipped o)) l) = 0%nat)
    by (induction l; [reflexivity | assumption]).
  assert (H2 : forall l : list RenderCall,
             count is_present_call (map Call_Render l) = length (filter is_present l)).
  { unfold count. induction l as [|c l IH]; [reflexivity|]. cbn [map filter].
    destruct c; cbn [is_present_call is_present length]; now rewrite IH. }
  now rewrite H1, H2, render_presents_once.
Qed.

Lemma main_loop_result hasInt (inputs : list FrameInput) :
  forall (s sf : World) (tr : list SdlCall),
  main_loop hasInt inputs s = Some (sf, tr) ->
  running sf = false /\ static_part sf = static_part s /\
  forallb is_frame_call tr = true /\
  count is_present_call tr = length (run hasInt inputs s).
Proof.
  induction inputs as [|i rest IH]; intros s sf tr; cbn [main_loop].
  - destruct (running s) eqn:Hr; [discriminate|]. intros [= <- <-]. now repeat split.
  - rewrite run_cons. destruct (running s) eqn:Hr; [|intros [= <- <-]; now repeat split].
    destruct (main_loop hasInt rest (frame hasInt i s)) as [[sf' tr']|] eqn:Hl; [|discriminate].
    intros [= <- <-]. destruct (IH _ _ _ Hl) as (H1 & H2 & H3 & H4).
    split; [exact H1|]. split; [now rewrite H2, frame_static|].
    split; [rewrite forallb_app, frame_trace_calls; exact H3|].
    rewrite count_app, frame_trace_presents, H4. reflexivity.
Qed.

Lemma main_loop_quits hasInt (inputs : list FrameInput) :
  forall s : World, running s = true ->
  if existsb quits inputs
  then exists sf tr, main_loop hasInt inputs s = Some (sf, tr)
  else main_loop hasInt inputs s = None.
Proof.
  induction inputs as [|i rest IH]; intros s Hr; cbn [main_loop existsb].
  - now rewrite Hr.
  - rewrite Hr. pose proof (frame_running hasInt i s) as Hf. rewrite Hr in Hf. cbn [andb] in Hf.
    destruct (quits i) eqn:Hq; cbn [negb orb] in *.
    + destruct rest as [|j rest']; cbn [main_loop]; rewrite Hf; eauto.
    + specialize (IH _ Hf). destruct (existsb quits rest).
      * destruct IH as (sf & tr & ->). eauto.
      * now rewrite IH.
Qed.

Lemma frame_call_not (p : SdlCall -> bool) :
  In p resource_tests -> forall c, is_frame_call c = true -> p c = false.
Proof.
  intros Hin c Hc. cbn [In resource_tests] in Hin.
  destruct c as [| | | | | | | | | |r|m|]; try discriminate Hc;
    [|destruct m; try discriminate Hc];
    repeat (destruct Hin as [<- | Hin]; [reflexivity|]); destruct Hin.
Qed.

Lemma count_resource (p : SdlCall -> bool) (tr : list SdlCall) :
  In p resource_tests -> forallb is_frame_call tr = true -> count p tr = 0%nat.
Proof. intros Hin. apply count_frame_calls. now apply frame_call_not. Qed.

Lemma filter_resource (p : SdlCall -> bool) (tr : list SdlCall) :
  In p resource_tests -> forallb is_frame_call tr = true -> filter p tr = [].
Proof.
  intros Hin Htr. apply length_zero_iff_nil. now apply (count_resource p tr).
Qed.

(** X15: whenever [main] returns, the exit code is 0 if SDL, the window
    and the renderer were created and 1 otherwise, and the trace is
    balanced: [SDL_Quit] is called once iff [SDL_Init] succeeded, the window
    and the renderer are destroyed iff they were created, every surface
    loaded by [LoadBMPTexture] is destroyed, and as many textures are
    destroyed as were created (lines 7-60, 258-268). *)
Theorem main_releases_what_it_acquired
  (hasInt : SDL_FRect -> SDL_FRect -> bool)
  (fuel : nat) (env : Env) (inputs : list FrameInput) (code : Z) (tr : list SdlCall) :
  main hasInt fuel env inputs = Some (code, tr) ->
  code = (if init_ok env && window_ok env && renderer_ok env then 0 else 1) /\
  count is_init_ok tr = count is_quit_call tr /\
  count is_window_created tr = count is_window_destroyed tr /\
  count is_renderer_created tr = count is_renderer_destroyed tr /\
  count is_surface_loaded tr = count is_surface_destroyed tr /\
  count is_texture_created tr = count is_texture_destroyed tr.
Proof.
  unfold main.
  destruct (init_ok env); cbn [negb andb]; [|intros [= <- <-]; now repeat split].
  destruct (window_ok env); cbn [negb andb]; [|intros [= <- <-]; now repeat split].
  destruct (renderer_ok env); cbn [negb andb]; [|intros [= <- <-]; now repeat split].
  destruct (build_walls fuel) as [ws|];
    [|destruct (player_bmp env) as [[] []], (wall_bmp env) as [[] []],
        (bg_bmp env) as [[] []]; discriminate].
  destruct (player_bmp env) as [[] []], (wall_bmp env) as [[] []], (bg_bmp env) as [[] []];
    cbn [fst snd LoadBMPTexture negb app];
    match goal with
    | |- context [main_loop hasInt inputs ?s0] =>
        destruct (main_loop hasInt inputs s0) as [[sf ltr]|] eqn:Hl; [|discriminate]
    end;
    intros [= <- <-];
    destruct (main_loop_result hasInt inputs _ _ _ Hl) as (_ & Hstat & Hcalls & _);
    unfold static_part in Hstat; cbn [texPlayer texWall texBg initial_world] in Hstat;
    injection Hstat as _ _ _ Hp Hw Hb;
    repeat split;
    unfold count; cbn; rewrite !filter_app, !(filter_resource _ ltr) by (exact Hcalls || (cbn; tauto));
    unfold cleanup; rewrite Hp, Hw, Hb; reflexivity.
Qed.

Lemma main_releases_what_it_acquired_witness :
  count is_texture_created quick_exit_trace = count is_texture_destroyed quick_exit_trace.
Proof.
  apply (main_releases_what_it_acquired has_intersection_positive_extent 14 (all_ok 0)
           [esc_frame 16] 0 quick_exit_trace).
  vm_compute. reflexivity.
Defined.

Lemma run_length hasInt (inputs : list FrameInput) :
  forall s : World, running s = true ->
  length (run hasInt inputs s) = frames_until_quit inputs.
Proof.
  induction inputs as [|i rest IH]; intros s Hr; [reflexivity|].
  rewrite run_cons, Hr. cbn [frames_until_quit length].
  pose proof (frame_running hasInt i s) as Hf. rewrite Hr in Hf. cbn [andb] in Hf.
  destruct (quits i); cbn [negb] in Hf.
  - now rewrite (run_stopped hasInt rest _ Hf).
  - now rewrite (IH _ Hf).
Qed.

Lemma LoadBMPTexture_presents (a b : bool) (path : string) :
  count is_present_call (snd (LoadBMPTexture a b path)) = 0%nat.
Proof. destruct a, b; reflexivity. Qed.

Lemma cleanup_last (sf : World) (l : list SdlCall) (d : SdlCall) :
  last (l ++ cleanup sf) d = Cout MsgExit /\ count is_present_call (cleanup sf) = 0%nat.
Proof.
  split.
  - unfold cleanup. rewrite !app_assoc.
    change [Call_SDL_DestroyRenderer; Call_SDL_DestroyWindow; Call_SDL_Quit; Cout MsgExit]
      with ([Call_SDL_DestroyRenderer; Call_SDL_DestroyWindow; Call_SDL_Quit] ++ [Cout MsgExit]).
    rewrite app_assoc. apply last_last.
  - unfold cleanup. destruct (texPlayer sf), (texWall sf), (texBg sf); reflexivity.
Qed.

(** X16: when SDL, the window and the renderer are created and the tile
    loops have their 14 steps, [main] returns if and only if a quit event
    arrives: then with exit code 0, after presenting one picture for each
    frame up to and including the one of the quit and writing the exit line
    last; while the inputs hold no quit the loop is not left. *)
Theorem main_ends_with_the_loop
  (hasInt : SDL_FRect -> SDL_FRect -> bool)
  (fuel : nat) (env : Env) (inputs : list FrameInput) :
  (14 <= fuel)%nat -> init_ok env = true -> window_ok env = true -> renderer_ok env = true ->
  if existsb quits inputs
  then exists tr, main hasInt fuel env inputs = Some (0, tr) /\
                  count is_present_call tr = frames_until_quit inputs /\
                  last tr (Cout MsgStart) = Cout MsgExit
  else main hasInt fuel env inputs = None.
Proof.
  intros Hfuel Hi Hw Hr. unfold main. rewrite Hi, Hw, Hr. cbn [negb].
  rewrite (proj1 (build_walls_level fuel Hfuel)).
  pose proof (LoadBMPTexture_presents (fst (player_bmp env)) (snd (player_bmp env)) player_path)
    as P1.
  pose proof (LoadBMPTexture_presents (fst (wall_bmp env)) (snd (wall_bmp env)) wall_path)
    as P2.
  pose proof (LoadBMPTexture_presents (fst (bg_bmp env)) (snd (bg_bmp env)) bg_path) as P3.
  destruct (LoadBMPTexture (fst (player_bmp env)) _ player_path) as [tp trp].
  destruct (LoadBMPTexture (fst (wall_bmp env)) _ wall_path) as [tw trw].
  destruct (LoadBMPTexture (fst (bg_bmp env)) _ bg_path) as [tb trb].
  cbn [snd] in P1, P2, P3.
  set (s0 := initial_world level_walls (first_ticks env) tp tw tb).
  assert (Hrun : running s0 = true) by reflexivity.
  pose proof (main_loop_quits hasInt inputs s0 Hrun) as Hq.
  destruct (existsb quits inputs); [|now rewrite Hq].
  destruct Hq as (sf & ltr & Hl). rewrite Hl.
  destruct (main_loop_result hasInt inputs _ _ _ Hl) as (_ & _ & _ & Hn).
  rewrite (run_length hasInt inputs s0 Hrun) in Hn.
  eexists. split; [reflexivity|]. split.
  - rewrite !count_app, P1, P2, P3, Hn, (proj2 (cleanup_last sf [] (Cout MsgStart))).
    destruct tp, tw, tb; cbn; lia.
  - rewrite !app_assoc. apply (cleanup_last sf).
Qed.

Lemma main_ends_with_the_loop_witness :
  exists tr, main has_intersection_positive_extent 14 (all_ok 0)
               [steady_frame 16; esc_frame 33; steady_frame 50] = Some (0, tr) /\
             count is_present_call tr = 2%nat /\
             last tr (Cout MsgStart) = Cout MsgExit.
Proof.
  exact (main_ends_with_the_loop has_intersection_positive_extent 14 (all_ok 0)
           [steady_frame 16; esc_frame 33; steady_frame 50]
           (le_n 14) eq_refl eq_refl eq_refl).
Defined.

(** ** What the program draws *)

Lemma build_walls_some (fuel : nat) (ws : list SDL_FRect) :
  build_walls fuel = Some ws -> ws = level_walls.
Proof.
  destruct (Nat.le_gt_cases 14 fuel) as [H | H].
  - rewrite (proj1 (build_walls_level fuel H)). now intros [= <-].
  - unfold build_walls.
    rewrite (tile_row_less_fuel fuel (13 - fuel)); [discriminate|].
    replace (fuel + (13 - fuel))%nat with 13%nat by lia. vm_compute. reflexivity.
Qed.

Lemma frame_loop_inv hasInt (i : FrameInput) (s : World) :
  loop_inv s ->
  loop_inv (frame hasInt i s) /\ in_screen (frame hasInt i s) /\
  angle_in_range (frame hasInt i s).
Proof.
  intros (Hx & Ha & Hh & Hw).
  destruct (frame_x_inv hasInt i s Hx) as (Hx' & Hs').
  pose proof (frame_angle_inv hasInt i s Ha) as H. cbv zeta in H.
  destruct H as (Ha' & _ & _ & _ & _ & Hr').
  pose proof (frame_static hasInt i s) as Hst.
  set (s1 := frame hasInt i s) in *. clearbody s1.
  unfold static_part in Hst. injection Hst as _ Hh' Hw' _ _ _.
  split; [|split; [exact Hs' | exact Hr']].
  split; [exact Hx'|]. split; [exact Ha'|].
  split; [rewrite Hh'; exact Hh | rewrite Hw'; exact Hw].
Qed.

Lemma main_loop_cons hasInt (i : FrameInput) (rest : list FrameInput) (s : World) :
  main_loop hasInt (i :: rest) s =
  if running s then
    match main_loop hasInt rest (frame hasInt i s) with
    | None => None
    | Some (sf, tr) => Some (sf, frame_trace s (frame hasInt i s) ++ tr)
    end
  else Some (s, []).
Proof. reflexivity. Qed.

Lemma main_loop_step hasInt (rest : list FrameInput) (s s1 sf : World) (tr : list SdlCall) :
  (forall sf tr, loop_inv s1 -> main_loop hasInt rest s1 = Some (sf, tr) ->
     forall rc, In (Call_Render rc) tr ->
     exists s', loop_inv s' /\ in_screen s' /\ angle_in_range s' /\ In rc (render s')) ->
  loop_inv s1 -> in_screen s1 -> angle_in_range s1 ->
  match main_loop hasInt rest s1 with
  | None => None
  | Some (sf, tr) => Some (sf, frame_trace s s1 ++ tr)
  end = Some (sf, tr) ->
  forall rc, In (Call_Render rc) tr ->
  exists s', loop_inv s' /\ in_screen s' /\ angle_in_range s' /\ In rc (render s').
Proof.
  intros IH Hinv' Hs' Hr'.
  destruct (main_loop hasInt rest s1) as [[sf' tr']|]; [|discriminate].
  intros E rc Hin. injection E as _ <-.
  apply in_app_or in Hin. destruct Hin as [Hin | Hin];
    [|exact (IH _ _ Hinv' eq_refl rc Hin)].
  unfold frame_trace in Hin. apply in_app_or in Hin. destruct Hin as [Hin | Hin].
  - apply in_map_iff in Hin. destruct Hin as (? & E & _). discriminate E.
  - apply in_map_iff in Hin. destruct Hin as (rc' & E & Hin). injection E as ->.
    exists s1. exact (conj Hinv' (conj Hs' (conj Hr' Hin))).
Qed.

Lemma main_loop_draws hasInt (inputs : list FrameInput) :
  forall (s sf : World) (tr : list SdlCall),
  loop_inv s -> main_loop hasInt inputs s = Some (sf, tr) ->
  forall rc, In (Call_Render rc) tr ->
  exists s', loop_inv s' /\ in_screen s' /\ angle_in_range s' /\ In rc (render s').
Proof.
  induction inputs as [|i rest IH]; intros s sf tr Hinv.
  - cbn [main_loop]. destruct (running s); [discriminate|]. intros E rc Hin.
    injection E as _ <-. destruct Hin.
  - rewrite main_loop_cons.
    destruct (running s); [|intros E rc Hin; injection E as _ <-; destruct Hin].
    destruct (frame_loop_inv hasInt i s Hinv) as (Hinv' & Hs' & Hr').
    exact (main_loop_step hasInt rest s (frame hasInt i s) sf tr
             (IH (frame hasInt i s)) Hinv' Hs' Hr').
Qed.

Lemma LoadBMPTexture_no_render (a b : bool) (path : string) (rc : RenderCall) :
  ~ In (Call_Render rc) (snd (LoadBMPTexture a b path)).
Proof. destruct a, b; cbn; intuition discriminate. Qed.

Lemma cleanup_no_render (s : World) (rc : RenderCall) : ~ In (Call_Render rc) (cleanup s).
Proof.
  unfold cleanup. destruct (texPlayer s), (texWall s), (texBg s); cbn; intuition discriminate.
Qed.

Lemma main_draws hasInt (fuel : nat) (env : Env) (inputs : list FrameInput)
  (code : Z) (tr : list SdlCall) :
  main hasInt fuel env inputs = Some (code, tr) ->
  forall rc, In (Call_Render rc) tr ->
  exists s', loop_inv s' /\ in_screen s' /\ angle_in_range s' /\ In rc (render s').
Proof.
  unfold main.
  destruct (init_ok env); cbn [negb];
    [|intros [= <- <-] rc Hin; cbn in Hin; exfalso; intuition discriminate].
  destruct (window_ok env); cbn [negb];
    [|intros [= <- <-] rc Hin; cbn in Hin; exfalso; intuition discriminate].
  destruct (renderer_ok env); cbn [negb];
    [|intros [= <- <-] rc Hin; cbn in Hin; exfalso; intuition discriminate].
  pose proof (LoadBMPTexture_no_render (fst (player_bmp env)) (snd (player_bmp env)) player_path)
    as P1.
  pose proof (LoadBMPTexture_no_render (fst (wall_bmp env)) (snd (wall_bmp env)) wall_path)
    as P2.
  pose proof (LoadBMPTexture_no_render (fst (bg_bmp env)) (snd (bg_bmp env)) bg_path) as P3.
  destruct (LoadBMPTexture (fst (player_bmp env)) _ player_path) as [tp trp].
  destruct (LoadBMPTexture (fst (wall_bmp env)) _ wall_path) as [tw trw].
  destruct (LoadBMPTexture (fst (bg_bmp env)) _ bg_path) as [tb trb].
  cbn [snd] in P1, P2, P3.
  destruct (build_walls fuel) as [ws|] eqn:Hb; [|discriminate].
  apply build_walls_some in Hb. subst ws.
  destruct (main_loop hasInt inputs _) as [[sf ltr]|] eqn:Hl; [|discriminate].
  intros [= <- <-] rc Hin.
  assert (Hinv : loop_inv (initial_world level_walls (first_ticks env) tp tw tb)).
  { destruct (initial_world_invariants (first_ticks env) tp tw tb) as (H1 & H2).
    split; [now apply x_invariant_inv|]. split; [now apply angle_invariant_inv|].
    split; reflexivity. }
  repeat first [ apply in_app_or in Hin; destruct Hin as [Hin | Hin]
               | destruct Hin as [Hin | Hin]; [discriminate Hin|] ];
    try (exfalso; first [ exact (P1 _ Hin) | exact (P2 _ Hin) | exact (P3 _ Hin)
                        | exact (cleanup_no_render _ _ Hin) ]);
    try exact (main_loop_draws hasInt inputs _ _ _ Hinv Hl rc Hin);
    exfalso;
    repeat match type of Hin with context [if ?c then _ else _] => destruct c end;
    cbn in Hin; intuition discriminate.
Qed.

(** X17: what [main] draws in any run: every rotated draw is the player,
    40 by 60, with its left edge within [[0, 760]], rotated by an angle
    within [[0, 180]] about (20, 30); every filled rectangle is a wall of
    the level or such a player rectangle; every plain textured draw is a
    wall of the level or the background over the whole screen. *)
Theorem main_draws_the_player_on_screen
  (hasInt : SDL_FRect -> SDL_FRect -> bool)
  (fuel : nat) (env : Env) (inputs : list FrameInput) (code : Z) (tr : list SdlCall) :
  main hasInt fuel env inputs = Some (code, tr) ->
  (forall t dst a c, In (Call_Render (SDL_RenderTextureRotated t dst a c)) tr ->
     on_screen_player dst /\ F32.leb F32.zero a = true /\ F32.leb a F32.f180 = true /\
     c = (F32.of_Z 20, F32.of_Z 30)) /\
  (forall r, In (Call_Render (SDL_RenderFillRect r)) tr ->
     In r level_walls \/ on_screen_player r) /\
  (forall t r, In (Call_Render (SDL_RenderTexture t r)) tr ->
     (t = TexWall /\ In r level_walls) \/
     (t = TexBg /\ r = mkRect F32.zero F32.zero F32.f800 F32.f600)).
Proof.
  intros Hmain.
  assert (Hp : forall s', loop_inv s' -> in_screen s' -> on_screen_player (player s')).
  { intros s' ((Hw & _) & _ & Hh & _) (H1 & H2). rewrite Hw in H2. now repeat split. }
  split; [|split].
  - intros t dst a c Hin.
    destruct (main_draws hasInt fuel env inputs code tr Hmain _ Hin) as (s' & Hi & Hs & Ha & Hr).
    destruct (render_rotated s' t dst a c Hr) as (_ & _ & -> & -> & ->).
    split; [now apply Hp|]. split; [apply Ha|]. split; [apply Ha|].
    destruct Hi as ((Hw & _) & _ & Hh & _). rewrite Hw, Hh. reflexivity.
  - intros r Hin.
    destruct (main_draws hasInt fuel env inputs code tr Hmain _ Hin) as (s' & Hi & Hs & Ha & Hr).
    destruct (render_fill_rect s' r Hr) as [H | ->]; [left | right; now apply Hp].
    destruct Hi as (_ & _ & _ & <-). exact H.
  - intros t r Hin.
    destruct (main_draws hasInt fuel env inputs code tr Hmain _ Hin) as (s' & Hi & Hs & Ha & Hr).
    destruct (render_texture s' t r Hr) as [(-> & H) | H]; [left | right; exact H].
    destruct Hi as (_ & _ & _ & <-). now split.
Qed.

Lemma main_draws_the_player_on_screen_witness :
  forall_rotated_on_screen quick_exit_trace.
Proof.
  refine (proj1 (main_draws_the_player_on_screen has_intersection_positive_extent 14 (all_ok 0)
                   [esc_frame 16] 0 quick_exit_trace _)).
  vm_compute. reflexivity.
Defined.
